(** * Chunked resumable transfer pipeline of the wave-energy forecasting
      repository: a shallow embedding of the two downloader scripts

    Sources embedded here:
    - [src/infrastructure/copernicus_downloader.py]: [generate_chunks],
      [retry], [save_log] and the download-and-upload loop;
    - [src/infrastructure/noaa_downloader.py]: the object listing, the
      checkpoint set and the per-file loop with its [try]/[except].

    Python integers are [Z]; strings are [string]; a Python [list] of
    strings is a [list string] and the [set] of the NOAA checkpoint is a
    [gset string].  Everything outside the scripts (the remote dataset
    provider, the object store, the local disk) is a [world] whose fallible
    calls take their outcome from a script of outcomes consumed in call
    order. *)

From Stdlib Require Import ZArith Lia Ascii Sorted.
From stdpp Require Import base tactics option list strings pretty gmap.

Local Open Scope Z_scope.

(** ** Python exceptions *)

(** An instance of a subclass of [Exception]: its class name and [str(e)]. *)
Record exn := Exn { exn_type : string; exn_msg : string }.

#[global] Instance exn_eq_dec : EqDecision exn.
Proof. solve_decision. Defined.

(** ** [datetime.datetime] (naive) *)

Module DateTime.

Record datetime := mk {
  year : Z; month : Z; day : Z;
  hour : Z; minute : Z; second : Z; microsecond : Z
}.

#[global] Instance datetime_eq_dec : EqDecision datetime.
Proof. solve_decision. Defined.

Definition MINYEAR : Z := 1.
Definition MAXYEAR : Z := 9999.

Definition is_leap (y : Z) : bool :=
  (y mod 4 =? 0) && (negb (y mod 100 =? 0) || (y mod 400 =? 0)).

Definition days_in_month (y m : Z) : Z :=
  if m =? 2 then (if is_leap y then 29 else 28)
  else if (m =? 4) || (m =? 6) || (m =? 9) || (m =? 11) then 30
  else 31.

(** The range checks of the [datetime] constructor. *)
Definition check_date (y m d : Z) : bool :=
  (MINYEAR <=? y) && (y <=? MAXYEAR) && (1 <=? m) && (m <=? 12)
  && (1 <=? d) && (d <=? days_in_month y m).

Definition check_time (h mi s us : Z) : bool :=
  (0 <=? h) && (h <=? 23) && (0 <=? mi) && (mi <=? 59)
  && (0 <=? s) && (s <=? 59) && (0 <=? us) && (us <=? 999999).

Definition valid (t : datetime) : bool :=
  check_date (year t) (month t) (day t)
  && check_time (hour t) (minute t) (second t) (microsecond t).

(** [datetime(year, month, day, hour)]: minute, second and microsecond
    default to 0; a field out of range raises [ValueError]. *)
Definition datetime4 (y m d h : Z) : exn + datetime :=
  let t := mk y m d h 0 0 0 in
  if valid t then inr t
  else inl (Exn "ValueError" "datetime field out of range").

(** Comparison of naive datetimes: lexicographic on the seven fields. *)
Definition fields (t : datetime) : list Z :=
  [year t; month t; day t; hour t; minute t; second t; microsecond t].

Fixpoint lex_compare (a b : list Z) : comparison :=
  match a, b with
  | x :: a', y :: b' =>
      match x ?= y with
      | Eq => lex_compare a' b'
      | c => c
      end
  | [], [] => Eq
  | [], _ :: _ => Lt
  | _ :: _, [] => Gt
  end.

Definition compare (a b : datetime) : comparison :=
  lex_compare (fields a) (fields b).

Definition ltb (a b : datetime) : bool :=
  match compare a b with Lt => true | _ => false end.
Definition leb (a b : datetime) : bool :=
  match compare a b with Gt => false | _ => true end.

Definition lt (a b : datetime) : Prop := ltb a b = true.
Definition le (a b : datetime) : Prop := leb a b = true.

(** Fixed-width decimal fields of [strftime] and [str]. *)
Definition digit (d : Z) : ascii := pretty_N_char (Z.to_N d).

Fixpoint zfill (width : nat) (n : Z) : string :=
  match width with
  | O => ""
  | S w => zfill w (n / 10) +:+ String (digit (n mod 10)) ""
  end.

(** [t.strftime('%Y%m%d')] *)
Definition strftime_Ymd (t : datetime) : string :=
  zfill 4 (year t) +:+ zfill 2 (month t) +:+ zfill 2 (day t).

(** [str(t)]: ISO format with a space separator; the fraction is printed
    only when the microsecond is not 0. *)
Definition str (t : datetime) : string :=
  zfill 4 (year t) +:+ "-" +:+ zfill 2 (month t) +:+ "-" +:+ zfill 2 (day t)
  +:+ " " +:+ zfill 2 (hour t) +:+ ":" +:+ zfill 2 (minute t)
  +:+ ":" +:+ zfill 2 (second t)
  +:+ (if microsecond t =? 0 then "" else "." +:+ zfill 6 (microsecond t)).

(** Months since year 0, the quantity the planner advances by one. *)
Definition month_index (t : datetime) : Z := year t * 12 + month t.

End DateTime.

Import DateTime.

(** ** [generate_chunks] (copernicus_downloader.py, lines 39-48) *)

(** How the generator stops: its [while] condition became false, the
    [datetime] constructor raised, or the loop model ran out of steps. *)
Inductive gen_stop := GenDone | GenRaise (e : exn) | GenFuel.

#[global] Instance gen_stop_eq_dec : EqDecision gen_stop.
Proof. solve_decision. Defined.

Abbreviation chunk := (datetime * datetime)%type.

(** The candidate end of the chunk starting at [current]: the same day
    (capped at 28) and hour of the following month. *)
Definition next_month (current : datetime) : exn + datetime :=
  let month_ := month current mod 12 + 1 in
  let year_ := year current + month current / 12 in
  datetime4 year_ month_ (Z.min (day current) 28) (hour current).

Fixpoint generate_chunks_loop (fuel : nat) (current end_ : datetime)
  : list chunk * gen_stop :=
  match fuel with
  | O => ([], GenFuel)
  | S fuel' =>
      if ltb current end_ then
        match next_month current with
        | inl e => ([], GenRaise e)
        | inr next_chunk =>
            let next_chunk := if ltb end_ next_chunk then end_ else next_chunk in
            let '(rest, stop) := generate_chunks_loop fuel' next_chunk end_ in
            ((current, next_chunk) :: rest, stop)
        end
      else ([], GenDone)
  end.

(** One more step than there are months from [start] to [end_] is enough
    (see [generate_chunks_terminates]). *)
Definition chunk_fuel (start end_ : datetime) : nat :=
  S (Z.to_nat (month_index end_ - month_index start + 1)).

Definition generate_chunks (start end_ : datetime) : list chunk * gen_stop :=
  generate_chunks_loop (chunk_fuel start end_) start end_.

(** ** The world outside the scripts *)

(** Outcome of one fallible external call.  [partial] tells whether the
    call had begun to write its target file when it failed. *)
Inductive outcome := Success | Failure (e : exn) (partial : bool).

#[global] Instance outcome_eq_dec : EqDecision outcome.
Proof. solve_decision. Defined.

(** The external calls of the two scripts. *)
Inductive call :=
  | OpenDataset (start_datetime end_datetime : datetime)
  | DsChunk
  | ToNetcdf (path : string)
  | UploadFile (filename key : string)
  | OsRemove (path : string)
  | JsonDump (ids : list string)
  | ListObjectsV2 (prefix : string)
  | GetObject (key : string)
  | BodyRead
  | XrOpenDataset
  | DsSel.

#[global] Instance call_eq_dec : EqDecision call.
Proof. solve_decision. Defined.

(** What a run does that can be observed from outside, in order. *)
Inductive event :=
  | Print (line : string)
  | Sleep (seconds : Z)
  | Call (c : call) (o : outcome)
  | Traceback (e : exn).

#[global] Instance event_eq_dec : EqDecision event.
Proof. solve_decision. Defined.

(** The ledger file: absent, a JSON array of strings, or bytes that
    [json.load] rejects (a write that stopped after [open(..., "w")] had
    truncated the file). *)
Inductive file_content := Missing | Json (ids : list string) | Garbled.

#[global] Instance file_content_eq_dec : EqDecision file_content.
Proof. solve_decision. Defined.

(** The state a script runs in: its module-level ledger variable
    ([completed_chunks], a list, or [completed_files], a set) and the
    world.  [script] holds the outcomes of the fallible calls still to
    come; when it is used up every further call succeeds. *)
Record state {G : Type} := State {
  globals : G;
  script : list outcome;
  disk : gset string;
  dest_bucket : gset string;
  source_bucket : list string;
  ledger_file : file_content
}.
Arguments state : clear implicits.
Arguments State {G}.

Definition set_globals {G G'} (g : G') (s : state G) : state G' :=
  State g (script s) (disk s) (dest_bucket s) (source_bucket s) (ledger_file s).
Definition set_script {G} (sc : list outcome) (s : state G) : state G :=
  State (globals s) sc (disk s) (dest_bucket s) (source_bucket s) (ledger_file s).
Definition set_disk {G} (d : gset string) (s : state G) : state G :=
  State (globals s) (script s) d (dest_bucket s) (source_bucket s) (ledger_file s).
Definition set_dest_bucket {G} (b : gset string) (s : state G) : state G :=
  State (globals s) (script s) (disk s) b (source_bucket s) (ledger_file s).
Definition set_ledger_file {G} (f : file_content) (s : state G) : state G :=
  State (globals s) (script s) (disk s) (dest_bucket s) (source_bucket s) f.

(** ** A state, error and output monad for the scripts

    A computation reads and writes the state, returns a value or raises,
    and emits events; it cannot read the events emitted so far. *)
Definition M (G A : Type) : Type := state G → (exn + A) * state G * list event.

Definition ret {G A} (a : A) : M G A := λ s, (inr a, s, []).
Definition raise {G A} (e : exn) : M G A := λ s, (inl e, s, []).
Definition bind {G A B} (m : M G A) (f : A → M G B) : M G B := λ s,
  match m s with
  | (inl e, s1, evs1) => (inl e, s1, evs1)
  | (inr a, s1, evs1) =>
      let '(r, s2, evs2) := f a s1 in (r, s2, evs1 ++ evs2)
  end.

Notation "x <- m ;; k" := (bind m (λ x, k))
  (at level 100, m at next level, right associativity).
Notation "m ;;; k" := (bind m (λ _, k))
  (at level 100, right associativity).

Definition emit {G} (ev : event) : M G unit := λ s, (inr (), s, [ev]).
Definition print {G} (line : string) : M G unit := emit (Print line).
Definition get_globals {G} : M G G := λ s, (inr (globals s), s, []).
Definition put_globals {G} (g : G) : M G unit := λ s, (inr (), set_globals g s, []).

(** A fallible external call: takes the next outcome of the script,
    applies the outcome's effect to the state and raises on failure. *)
Definition next_outcome {G} (s : state G) : outcome * state G :=
  match script s with
  | [] => (Success, s)
  | o :: rest => (o, set_script rest s)
  end.

Definition external {G} (c : call) (effect : outcome → state G → state G)
  : M G unit := λ s,
  let '(o, s1) := next_outcome s in
  (match o with Success => inr () | Failure e _ => inl e end,
   effect o s1, [Call c o]).

(** [time.sleep(seconds)] for an integer argument.  CPython first
    converts the argument to nanoseconds in a signed 64-bit integer and
    raises [OverflowError] when they do not fit (more than [sleep_max]
    seconds either way); then it raises [ValueError] on a negative value;
    then it hands the deadline, the monotonic clock plus the delay, to the
    operating system, which raises [OSError] when the deadline is beyond
    the range of its clock.  The model has no clock: a delay of at most
    [sure_sleep] seconds is slept (the system accepts it as long as its
    clock reads less than 260 years), and for a longer one the answer of
    the system is the next outcome of the script. *)
Definition sleep_max : Z := 9223372036.
Definition sure_sleep : Z := 1000000000.

Definition sleep {G} (seconds : Z) : M G unit :=
  if (seconds <? - sleep_max) || (sleep_max <? seconds)
  then raise (Exn "OverflowError"
                "timestamp too large to convert to C _PyTime_t")
  else if seconds <? 0
  then raise (Exn "ValueError" "sleep length must be non-negative")
  else if seconds <=? sure_sleep
  then emit (Sleep seconds)
  else λ s,
    let '(o, s1) := next_outcome s in
    match o with
    | Success => (inr (), s1, [Sleep seconds])
    | Failure e _ => (inl e, s1, [])
    end.

(** ** [retry] (copernicus_downloader.py, lines 51-61) *)

Section Retry.
Context {G A : Type}.
Variable func : M G A.
Variables max_attempts delay : Z.

(** The body of the [for] loop over the attempt numbers still to come.
    Falling off the end of the loop returns [None]. *)
Fixpoint retry_for (attempts : list Z) : M G (option A) :=
  match attempts with
  | [] => ret None
  | attempt :: rest => λ s,
      match func s with
      | (inr a, s1, evs) => (inr (Some a), s1, evs)
      | (inl e, s1, evs) =>
          let handler : M G (option A) :=
            print ("Attempt " +:+ pretty attempt +:+ " failed: " +:+ exn_msg e) ;;;
            if attempt <? max_attempts then
              print ("Retrying in " +:+ pretty delay +:+ " seconds...") ;;;
              sleep delay ;;;
              retry_for rest
            else raise e in
          let '(r, s2, evs') := handler s1 in (r, s2, evs ++ evs')
      end
  end.

(** [range(1, max_attempts+1)] *)
Definition retry : M G (option A) := retry_for (seqZ 1 max_attempts).
End Retry.

(** *** What [retry] prints and when it sleeps *)

Definition failure_line (attempt : Z) (e : exn) : string :=
  "Attempt " +:+ pretty attempt +:+ " failed: " +:+ exn_msg e.
Definition retrying_line (delay : Z) : string :=
  "Retrying in " +:+ pretty delay +:+ " seconds...".

(** [fails func s fs s']: invoking [func] again and again from state [s]
    fails [length fs] times in a row, with the exceptions and events
    listed in [fs], and leaves state [s']. *)
Inductive fails {G A} (func : M G A)
  : state G → list (exn * list event) → state G → Prop :=
  | fails_nil s : fails func s [] s
  | fails_cons s e s1 evs fs s' :
      func s = (inl e, s1, evs) →
      fails func s1 fs s' →
      fails func s ((e, evs) :: fs) s'.

(** The events of a row of failed attempts that are each followed by
    another attempt: the operation's own events, the failure line, the
    retry line and the sleep. *)
Fixpoint failed_attempts_events (delay attempt : Z)
    (fs : list (exn * list event)) : list event :=
  match fs with
  | [] => []
  | (e, evs) :: fs' =>
      evs ++ [Print (failure_line attempt e); Print (retrying_line delay);
              Sleep delay]
          ++ failed_attempts_events delay (attempt + 1) fs'
  end.

Definition prints (evs : list event) : list string :=
  omap (λ ev, match ev with Print l => Some l | _ => None end) evs.
Definition sleeps (evs : list event) : list Z :=
  omap (λ ev, match ev with Sleep d => Some d | _ => None end) evs.
Definition calls (evs : list event) : list (call * outcome) :=
  omap (λ ev, match ev with Call c o => Some (c, o) | _ => None end) evs.

(** ** Loops and the end of a run *)

(** A [for] loop whose body may raise; a [continue] is the body returning
    early. *)
Fixpoint for_each {G A} (body : A → M G unit) (xs : list A) : M G unit :=
  match xs with
  | [] => ret ()
  | x :: xs' => body x ;;; for_each body xs'
  end.

(** How a script ends: it reaches its last line, an exception escapes to
    the interpreter (which prints the traceback and exits), or the model
    of a loop ran out of steps. *)
Inductive run_end := Finished | Uncaught (e : exn) | OutOfFuel.

#[global] Instance run_end_eq_dec : EqDecision run_end.
Proof. solve_decision. Defined.

Definition newline : string := String (ascii_of_nat 10) "".

(** ** External calls shared by the two scripts *)

(** [to_netcdf(path)]: the file exists afterwards when the call succeeded
    or failed part-way. *)
Definition to_netcdf {G} (path : string) : M G unit :=
  external (ToNetcdf path) (λ o s,
    match o with
    | Success | Failure _ true => set_disk ({[path]} ∪ disk s) s
    | Failure _ false => s
    end).

(** [s3.upload_file(Filename, Bucket, Key)] into the destination bucket
    (both scripts upload to the same one). *)
Definition upload_file {G} (filename key : string) : M G unit :=
  external (UploadFile filename key) (λ o s,
    match o with
    | Success => set_dest_bucket ({[key]} ∪ dest_bucket s) s
    | Failure _ _ => s
    end).

(** [os.remove(path)]; both scripts call it on the file [to_netcdf] has
    just written. *)
Definition os_remove {G} (path : string) : M G unit :=
  external (OsRemove path) (λ o s,
    match o with
    | Success => set_disk (disk s ∖ {[path]}) s
    | Failure _ _ => s
    end).

(** [open(ledger, "w")] then [json.dump(ids, f)].  A failure of [open]
    leaves the file as it was; a failure of the dump leaves it truncated. *)
Definition json_dump {G} (ids : list string) : M G unit :=
  external (JsonDump ids) (λ o s,
    match o with
    | Success => set_ledger_file (Json ids) s
    | Failure _ true => set_ledger_file Garbled s
    | Failure _ false => s
    end).

(** ** copernicus_downloader.py *)

Module Copernicus.

Definition bucket_name : string := "panthalassa-ocean-raw-data".
Definition local_temp_dir : string := "./temp_downloads".
Definition start_date : datetime := mk 1980 1 1 21 0 0 0.
Definition end_date : datetime := mk 2023 4 30 21 0 0 0.

(** [completed_chunks] is the global of this script. *)
Abbreviation St := (state (list string)).
Abbreviation Cmd := (M (list string)).

(** [copernicusmarine.open_dataset(...)]: lazy, touches nothing local. *)
Definition open_dataset (chunk_start chunk_end : datetime) : Cmd unit :=
  external (OpenDataset chunk_start chunk_end) (λ _ s, s).

(** [ds.chunk({'time': 50})], evaluated once before [retry] is entered. *)
Definition ds_chunk : Cmd unit := external DsChunk (λ _ s, s).

(** [save_log] (lines 34-36): dumps the global list. *)
Definition save_log : Cmd unit :=
  completed_chunks <- get_globals ;; json_dump completed_chunks.

Definition chunk_name (c : chunk) : string :=
  strftime_Ymd c.1 +:+ "_" +:+ strftime_Ymd c.2.
(** [os.path.join(local_temp_dir, f"{chunk_name}.nc")] *)
Definition temp_file (c : chunk) : string :=
  local_temp_dir +:+ "/" +:+ chunk_name c +:+ ".nc".
Definition s3_key (c : chunk) : string :=
  pretty (year c.1) +:+ "/" +:+ chunk_name c +:+ ".nc".

Definition skipping_line (c : chunk) : string :=
  "Skipping already completed chunk " +:+ chunk_name c.
Definition processing_line (c : chunk) : string :=
  "Processing chunk: " +:+ str c.1 +:+ " → " +:+ str c.2.
Definition saving_line (c : chunk) : string :=
  "Saving chunk to " +:+ temp_file c +:+ " using dask...".
Definition uploading_line (c : chunk) : string :=
  "Uploading " +:+ temp_file c +:+ " to s3://" +:+ bucket_name +:+ "/"
  +:+ s3_key c +:+ "...".
Definition completed_line (c : chunk) : string :=
  "Chunk " +:+ chunk_name c +:+ " completed and uploaded." +:+ newline.
Definition banner : string :=
  "All chunks downloaded and uploaded successfully.".

(** The part of the loop body after the skip test (lines 70-102). *)
Definition transfer (c : chunk) : Cmd unit :=
  print (processing_line c) ;;;
  retry (open_dataset c.1 c.2) 3 10 ;;;
  print (saving_line c) ;;;
  ds_chunk ;;;
  retry (to_netcdf (temp_file c)) 3 10 ;;;
  print (uploading_line c) ;;;
  retry (upload_file (temp_file c) (s3_key c)) 3 10 ;;;
  os_remove (temp_file c) ;;;
  (completed_chunks <- get_globals ;;
   put_globals (completed_chunks ++ [chunk_name c])) ;;;
  save_log ;;;
  print (completed_line c).

(** The loop body (lines 64-102). *)
Definition process_chunk (c : chunk) : Cmd unit :=
  completed_chunks <- get_globals ;;
  if bool_decide (chunk_name c ∈ completed_chunks)
  then print (skipping_line c)
  else transfer c.

(** Lines 28-32: the ledger is read when the script starts. *)
Definition load_log (f : file_content) : exn + list string :=
  match f with
  | Missing => inr []
  | Json ids => inr ids
  | Garbled => inl (Exn "JSONDecodeError" "Expecting value")
  end.

(** The whole script, for a given temporal range. *)
Definition main {G0} (start_date end_date : datetime) (s0 : state G0)
  : run_end * St * list event :=
  match load_log (ledger_file s0) with
  | inl e => (Uncaught e, set_globals [] s0, [Traceback e])
  | inr completed_chunks =>
      let '(chunks, stop) := generate_chunks start_date end_date in
      let loop :=
        for_each process_chunk chunks ;;;
        match stop with GenRaise e => raise e | _ => ret () end in
      match loop (set_globals completed_chunks s0) with
      | (inl e, s, evs) => (Uncaught e, s, evs ++ [Traceback e])
      | (inr _, s, evs) =>
          match stop with
          | GenFuel => (OutOfFuel, s, evs)
          | _ => (Finished, s, evs ++ [Print banner])
          end
      end
  end.

End Copernicus.

(** A machine with nothing on it and a network that never fails. *)
Definition fresh : state unit := State () [] ∅ ∅ [] Missing.

(** ** Python string methods used by noaa_downloader.py *)

Module Py.

(** [s.split(sep)] for a one-character separator. *)
Fixpoint split (sep : ascii) (s : string) : list string :=
  match s with
  | EmptyString => [""]
  | String c s' =>
      if Ascii.eqb c sep then "" :: split sep s'
      else match split sep s' with
           | seg :: rest => String c seg :: rest
           | [] => [String c ""]
           end
  end.

(** [xs[-1]] on the result of a split, which is never empty. *)
Definition last_segment (xs : list string) : string := List.last xs "".

(** [s.endswith(suffix)] *)
Definition endswith (s suffix : string) : bool :=
  let n := String.length s in
  let m := String.length suffix in
  (m <=? n)%nat && String.eqb (String.substring (n - m) m s) suffix.

(** [s.startswith(p)] *)
Definition startswith (s p : string) : bool := String.prefix p s.

(** [s.replace(old, new)] for a non-empty [old]: every occurrence, left
    to right, without overlap.  [skip] counts the characters of a
    matched [old] still to be dropped. *)
Fixpoint replace_go (old new : string) (skip : nat) (s : string) : string :=
  match s with
  | EmptyString => ""
  | String c s' =>
      match skip with
      | S k => replace_go old new k s'
      | O =>
          if String.prefix old s
          then new +:+ replace_go old new (String.length old - 1) s'
          else String c (replace_go old new 0 s')
      end
  end.
Definition replace (old new s : string) : string := replace_go old new 0 s.

(** [os.path.join(a, b)] for a directory [a] without trailing slash. *)
Definition path_join (a b : string) : string :=
  if startswith b "/" then b else a +:+ "/" +:+ b.

End Py.

(** ** noaa_downloader.py *)

Module Noaa.

Definition source_prefix : string := "GEFSv12/reforecast/2019/".
Definition destination_prefix : string := "noaa-data/2019/".
Definition local_tmp : string := "/tmp".

(** [completed_files] is the global of this script. *)
Abbreviation St := (state (gset string)).
Abbreviation Cmd := (M (gset string)).

(** The object store answers one [list_objects_v2] request with at most
    this many keys ([MaxKeys], which the script leaves at its default)
    and a continuation token for the rest. *)
Definition page_size : nat := 1000.

(** The first page of the keys of a bucket that start with the prefix,
    in listing order. *)
Definition first_page (prefix : string) (bucket : list string)
  : list string :=
  take page_size (filter (λ k, Py.startswith k prefix = true) bucket).

(** [s3.list_objects_v2(Bucket, Prefix)['Contents']] (an absent
    ['Contents'] is read as the empty list). *)
Definition list_objects_v2 (prefix : string) : Cmd (list string) := λ s,
  let '(r, s1, evs) := external (ListObjectsV2 prefix) (λ _ s, s) s in
  (match r with
   | inl e => inl e
   | inr _ => inr (first_page prefix (source_bucket s))
   end, s1, evs).

(** Line 31: the keys of the listing that end in [.grib2]. *)
Definition grib_files (contents : list string) : list string :=
  filter (λ k, Py.endswith k ".grib2" = true) contents.

Definition get_object (key : string) : Cmd unit :=
  external (GetObject key) (λ _ s, s).
(** [obj['Body'].read()] *)
Definition body_read : Cmd unit := external BodyRead (λ _ s, s).
(** [xr.open_dataset(file_stream, engine='cfgrib')] *)
Definition xr_open_dataset : Cmd unit := external XrOpenDataset (λ _ s, s).
(** [ds.sel(latitude=..., longitude=...)] *)
Definition ds_sel : Cmd unit := external DsSel (λ _ s, s).

Definition filename (key : string) : string :=
  Py.last_segment (Py.split "/" key).
(** [key.split('/')[4]] *)
Definition date_folder (key : string) : exn + string :=
  match Py.split "/" key !! 4%nat with
  | Some seg => inr seg
  | None => inl (Exn "IndexError" "list index out of range")
  end.
Definition netcdf_name (key : string) : string :=
  Py.replace ".grib2" ".nc" (filename key).
Definition local_nc_path (key : string) : string :=
  Py.path_join local_tmp (netcdf_name key).
Definition dest_key (key folder : string) : string :=
  destination_prefix +:+ folder +:+ "/" +:+ netcdf_name key.

Definition found_line (n : nat) : string :=
  "Found " +:+ pretty n +:+ " files in 2019.".
Definition skipping_line (key : string) : string :=
  "Skipping " +:+ filename key +:+ " (already done).".
Definition processing_line (key : string) : string :=
  "Processing " +:+ filename key +:+ " ...".
Definition completed_line (key : string) : string :=
  "Completed " +:+ filename key +:+ ".".
Definition error_line (key : string) (e : exn) : string :=
  "Error processing " +:+ filename key +:+ ": " +:+ exn_msg e.

(** The [try] block (lines 44-77). *)
Definition try_block (key : string) : Cmd unit :=
  print (processing_line key) ;;;
  get_object key ;;;
  body_read ;;;
  xr_open_dataset ;;;
  ds_sel ;;;
  folder <- (λ s, (date_folder key, s, [])) ;;
  to_netcdf (local_nc_path key) ;;;
  upload_file (local_nc_path key) (dest_key key folder) ;;;
  os_remove (local_nc_path key) ;;;
  (completed_files <- get_globals ;;
   put_globals ({[filename key]} ∪ completed_files)) ;;;
  (completed_files <- get_globals ;;
   json_dump (elements completed_files)) ;;;
  print (completed_line key).

(** [try: ... except Exception as e: print(...); continue] *)
Definition try_except {A} (block : Cmd A) (handler : exn → Cmd A) : Cmd A :=
  λ s,
  match block s with
  | (inl e, s1, evs) =>
      let '(r, s2, evs') := handler e s1 in (r, s2, evs ++ evs')
  | ok => ok
  end.

(** The loop body (lines 36-81). *)
Definition process_file (key : string) : Cmd unit :=
  completed_files <- get_globals ;;
  if bool_decide (filename key ∈ completed_files)
  then print (skipping_line key)
  else try_except (try_block key) (λ e, print (error_line key e)).

(** Lines 23-27. *)
Definition load_checkpoint (f : file_content) : exn + gset string :=
  match f with
  | Missing => inr ∅
  | Json ids => inr (list_to_set ids)
  | Garbled => inl (Exn "JSONDecodeError" "Expecting value")
  end.

(** The keys the run will walk through (lines 30-31). *)
Definition plan : Cmd (list string) :=
  contents <- list_objects_v2 source_prefix ;;
  ret (grib_files contents).

(** The whole script. *)
Definition main {G0} (s0 : state G0) : run_end * St * list event :=
  match load_checkpoint (ledger_file s0) with
  | inl e => (Uncaught e, set_globals ∅ s0, [Traceback e])
  | inr completed_files =>
      let script :=
        grib_files <- plan ;;
        print (found_line (length grib_files)) ;;;
        for_each process_file grib_files in
      match script (set_globals completed_files s0) with
      | (inl e, s, evs) => (Uncaught e, s, evs ++ [Traceback e])
      | (inr _, s, evs) => (Finished, s, evs)
      end
  end.

End Noaa.
(** ** Vocabulary of the statements *)

(** [tiles start cs end_]: the intervals [cs], in order, cover
    [[start, end_)] edge to edge: the first starts at [start], each is
    non-empty, each ends where the next starts and the last ends at
    [end_]. *)
Fixpoint tiles (start : datetime) (cs : list chunk) (end_ : datetime) : Prop :=
  match cs with
  | [] => start = end_
  | c :: rest => c.1 = start ∧ lt c.1 c.2 ∧ tiles c.2 rest end_
  end.

(** The last instant a domain may end at for the planner never to ask
    for a date in year 10000. *)
Definition last_end : datetime := mk 9999 12 1 0 0 0 0.

(** [month_step end_ c]: the chunk [c] ends one planner step after its
    start, or at [end_] when that comes first. *)
Definition month_step (end_ : datetime) (c : chunk) : Prop :=
  ∃ n, next_month c.1 = inr n ∧ (c.2 = n ∨ (c.2 = end_ ∧ lt end_ n)).

(** [inside t c]: the instant [t] lies in the half-open interval [c]. *)
Definition inside (t : datetime) (c : chunk) : Prop := le c.1 t ∧ lt t c.2.

(** The lines of a run that announce an attempt on a chunk: both scripts
    print ["Processing ..."] when they start work on one. *)
Definition attempted (evs : list event) : list string :=
  filter (λ l, String.prefix "Processing" l = true) (prints evs).

(** What [retry] leaves in the events when it wraps the external call
    [c]: only calls of [c], no line that announces a chunk, and as last
    call the success it returned after, or the failure it raised after
    three attempts. *)
Definition retry_log (c : call) (r : exn + option unit) (evs : list event)
  : Prop :=
  Forall (λ co, co.1 = c) (calls evs)
  ∧ attempted evs = []
  ∧ match r with
    | inl e => ∃ p, last (calls evs) = Some (c, Failure e p)
                    ∧ length (calls evs) = 3%nat
    | inr a => a = Some () ∧ last (calls evs) = Some (c, Success)
    end.

(** The ledger writes among the calls of a run. *)
Definition is_json_dump (c : call) : bool :=
  match c with JsonDump _ => true | _ => false end.
Definition dumps (evs : list event) : list (call * outcome) :=
  filter (λ co, is_json_dump co.1 = true) (calls evs).

(** What one pass through the body of the Copernicus loop, past the skip
    test, does to the state, by the call it stopped at. *)
Definition transfer_summary (c : chunk) (s : Copernicus.St)
    (r : exn + unit) (s' : Copernicus.St) (evs : list event) : Prop :=
  let name := Copernicus.chunk_name c in
  let temp := Copernicus.temp_file c in
  let key := Copernicus.s3_key c in
  attempted evs = [Copernicus.processing_line c]
  ∧ source_bucket s' = source_bucket s
  ∧ match r with
    | inr _ =>
        globals s' = globals s ++ [name]
        ∧ ledger_file s' = Json (globals s ++ [name])
        ∧ dest_bucket s' = {[key]} ∪ dest_bucket s
        ∧ disk s' = ({[temp]} ∪ disk s) ∖ {[temp]}
        ∧ [(OpenDataset c.1 c.2, Success); (DsChunk, Success);
           (ToNetcdf temp, Success); (UploadFile temp key, Success);
           (OsRemove temp, Success); (JsonDump (globals s ++ [name]), Success)]
          ⊆ calls evs
    | inl e =>
        ∃ c' p, last (calls evs) = Some (c', Failure e p) ∧
        match c' with
        | OpenDataset _ _ | DsChunk =>
            globals s' = globals s ∧ ledger_file s' = ledger_file s
            ∧ dest_bucket s' = dest_bucket s ∧ disk s' = disk s
        | ToNetcdf _ =>
            globals s' = globals s ∧ ledger_file s' = ledger_file s
            ∧ dest_bucket s' = dest_bucket s
            ∧ (disk s' = disk s ∨ disk s' = {[temp]} ∪ disk s)
        | UploadFile _ _ =>
            globals s' = globals s ∧ ledger_file s' = ledger_file s
            ∧ dest_bucket s' = dest_bucket s
            ∧ disk s' = {[temp]} ∪ disk s
            ∧ length (filter (λ co, co.1 = c') (calls evs)) = 3%nat
        | OsRemove _ =>
            globals s' = globals s ∧ ledger_file s' = ledger_file s
            ∧ dest_bucket s' = {[key]} ∪ dest_bucket s
            ∧ disk s' = {[temp]} ∪ disk s
        | JsonDump _ =>
            globals s' = globals s ++ [name]
            ∧ (ledger_file s' = ledger_file s ∨ ledger_file s' = Garbled)
            ∧ dest_bucket s' = {[key]} ∪ dest_bucket s
            ∧ disk s' = ({[temp]} ∪ disk s) ∖ {[temp]}
            ∧ length (dumps evs) = 1%nat
        | _ => False
        end
    end.

(** [runs m s Q]: the computation [m], run from state [s], ends with a
    result, a state and events that satisfy [Q]. *)
Definition runs {G A} (m : M G A) (s : state G)
    (Q : exn + A → state G → list event → Prop) : Prop :=
  ∃ r s' evs, m s = (r, s', evs) ∧ Q r s' evs.

(** The ids a ledger file holds, as the scripts would load them. *)
Definition persisted (f : file_content) : list string :=
  match f with Json ids => ids | _ => [] end.

(** The successful calls that carry a chunk from the provider into the
    bucket and clear its staging file. *)
Definition transfer_calls (c : chunk) : list (call * outcome) :=
  [(OpenDataset c.1 c.2, Success); (DsChunk, Success);
   (ToNetcdf (Copernicus.temp_file c), Success);
   (UploadFile (Copernicus.temp_file c) (Copernicus.s3_key c), Success);
   (OsRemove (Copernicus.temp_file c), Success)].

(** What the Copernicus loop over the chunks [cs] does from state [s]:
    of the chunks whose name is not in the ledger, it commits a first
    part [done_], in order, and stops at the next one if that one fails. *)
Definition loop_summary (cs : list chunk) (s : Copernicus.St)
    (r : exn + unit) (s' : Copernicus.St) (evs : list event) : Prop :=
  ∃ done_ failed rest,
    filter (λ c, Copernicus.chunk_name c ∉ globals s) cs
      = done_ ++ failed ++ rest
    ∧ match r with
      | inr _ => failed = [] ∧ rest = []
                 ∧ globals s' = globals s ++ (Copernicus.chunk_name <$> done_)
      | inl e => ∃ c, failed = [c]
      end
    ∧ attempted evs = (Copernicus.processing_line <$> done_ ++ failed)
    ∧ Forall (λ c, Copernicus.s3_key c ∈ dest_bucket s'
                   ∧ transfer_calls c ⊆ calls evs) done_
    ∧ dest_bucket s ⊆ dest_bucket s'
    ∧ (ledger_file s'
         = match done_ with
           | [] => ledger_file s
           | _ => Json (globals s ++ (Copernicus.chunk_name <$> done_))
           end
       ∨ ((∃ e, r = inl e) ∧ ledger_file s' = Garbled)).

(** The successful calls that carry one source object into the
    destination bucket and clear its staging file. *)
Definition noaa_calls (key folder : string) : list (call * outcome) :=
  [(GetObject key, Success); (BodyRead, Success); (XrOpenDataset, Success);
   (DsSel, Success); (ToNetcdf (Noaa.local_nc_path key), Success);
   (UploadFile (Noaa.local_nc_path key) (Noaa.dest_key key folder), Success);
   (OsRemove (Noaa.local_nc_path key), Success)].

(** What the [try] block of the NOAA loop does to the state, by the
    statement it stopped at. *)
Definition try_summary (key : string) (s : Noaa.St)
    (r : exn + unit) (s' : Noaa.St) (evs : list event) : Prop :=
  let name := Noaa.filename key in
  let temp := Noaa.local_nc_path key in
  attempted evs = [Noaa.processing_line key]
  ∧ source_bucket s' = source_bucket s
  ∧ (∀ k o, (GetObject k, o) ∈ calls evs → k = key)
  ∧ match r with
    | inr _ =>
        ∃ folder, Noaa.date_folder key = inr folder
        ∧ globals s' = {[name]} ∪ globals s
        ∧ ledger_file s' = Json (elements ({[name]} ∪ globals s))
        ∧ dest_bucket s' = {[Noaa.dest_key key folder]} ∪ dest_bucket s
        ∧ disk s' = ({[temp]} ∪ disk s) ∖ {[temp]}
        ∧ noaa_calls key folder ⊆ calls evs
        ∧ Forall (λ co, co.2 = Success) (calls evs)
    | inl e =>
        (Noaa.date_folder key = inl e
         ∧ last (calls evs) = Some (DsSel, Success)
         ∧ globals s' = globals s ∧ ledger_file s' = ledger_file s
         ∧ dest_bucket s' = dest_bucket s ∧ disk s' = disk s)
        ∨ ∃ c' p, last (calls evs) = Some (c', Failure e p) ∧
          match c' with
          | GetObject _ | BodyRead | XrOpenDataset | DsSel =>
              globals s' = globals s ∧ ledger_file s' = ledger_file s
              ∧ dest_bucket s' = dest_bucket s ∧ disk s' = disk s
          | ToNetcdf _ =>
              globals s' = globals s ∧ ledger_file s' = ledger_file s
              ∧ dest_bucket s' = dest_bucket s
              ∧ (disk s' = disk s ∨ disk s' = {[temp]} ∪ disk s)
          | UploadFile _ _ =>
              globals s' = globals s ∧ ledger_file s' = ledger_file s
              ∧ dest_bucket s' = dest_bucket s
              ∧ disk s' = {[temp]} ∪ disk s
          | OsRemove _ =>
              globals s' = globals s ∧ ledger_file s' = ledger_file s
              ∧ (∃ folder, Noaa.date_folder key = inr folder
                   ∧ dest_bucket s' = {[Noaa.dest_key key folder]} ∪ dest_bucket s)
              ∧ disk s' = {[temp]} ∪ disk s
          | JsonDump _ =>
              globals s' = {[name]} ∪ globals s
              ∧ (ledger_file s' = ledger_file s ∨ ledger_file s' = Garbled)
              ∧ (∃ folder, Noaa.date_folder key = inr folder
                   ∧ dest_bucket s' = {[Noaa.dest_key key folder]} ∪ dest_bucket s)
              ∧ disk s' = ({[temp]} ∪ disk s) ∖ {[temp]}
              ∧ length (dumps evs) = 1%nat
          | _ => False
          end
    end.

(** The lines with which the NOAA loop reports a file it gave up on. *)
Definition errors (evs : list event) : list string :=
  filter (λ l, String.prefix "Error" l = true) (prints evs).

(** What the NOAA loop over the keys [keys] does from state [s]. *)
Definition files_summary (keys : list string) (s : Noaa.St)
    (r : exn + unit) (s' : Noaa.St) (evs : list event) : Prop :=
  r = inr ()
  ∧ source_bucket s' = source_bucket s
  ∧ dest_bucket s ⊆ dest_bucket s'
  ∧ globals s ⊆ globals s'
  ∧ (∀ k o, (GetObject k, o) ∈ calls evs → k ∈ keys)
  ∧ (∀ id, id ∈ persisted (ledger_file s') →
       id ∈ persisted (ledger_file s) ∨ id ∈ globals s')
  ∧ (NoDup (Noaa.filename <$> keys) →
       attempted evs
       = (Noaa.processing_line <$>
            filter (λ k, Noaa.filename k ∉ globals s) keys))
  ∧ (errors evs = [] →
       (∀ k, k ∈ keys → Noaa.filename k ∈ globals s')
       ∧ ((ledger_file s' = ledger_file s ∧ globals s' = globals s)
          ∨ ledger_file s' = Json (elements (globals s')))).

(** How the Copernicus script ends, from how its loop ended ([r0], with
    events [evs0]) and how the generator stopped. *)
Definition main_end (stop : gen_stop) (r0 : exn + unit) (evs0 : list event)
  : run_end * list event :=
  match r0, stop with
  | inl e, _ | inr _, GenRaise e => (Uncaught e, evs0 ++ [Traceback e])
  | inr _, GenFuel => (OutOfFuel, evs0)
  | inr _, GenDone => (Finished, evs0 ++ [Print Copernicus.banner])
  end.

(** The keys a NOAA run walks through when its listing succeeds. *)
Definition noaa_keys {G} (s : state G) : list string :=
  Noaa.grib_files (Noaa.first_page Noaa.source_prefix (source_bucket s)).


(** ** Vocabulary of the further properties *)

(** What the loop over the chunks [cs] may add to the bucket and leave on
    the disk. *)
Definition loop_frame_post (cs : list chunk) (s : Copernicus.St)
    (r : exn + unit) (s' : Copernicus.St) (evs : list event) : Prop :=
  (∀ k, k ∈ dest_bucket s' →
     k ∈ dest_bucket s
     ∨ ∃ c, c ∈ cs ∧ (Copernicus.chunk_name c ∉ globals s)
            ∧ k = Copernicus.s3_key c)
  ∧ match r with
    | inr _ =>
        (∀ p, p ∈ disk s' → p ∈ disk s)
        ∧ ∀ c, c ∈ cs → Copernicus.chunk_name c ∉ globals s →
               Copernicus.temp_file c ∉ disk s'
    | inl _ =>
        ∃ c, c ∈ cs ∧ (Copernicus.chunk_name c ∉ globals s)
             ∧ ∀ p, p ∈ disk s' → p = Copernicus.temp_file c ∨ p ∈ disk s
    end.

(** What the NOAA loop over the keys [keys] may add to the bucket and
    leave on the disk. *)
Definition files_frame_post (keys : list string) (s : Noaa.St)
    (r : exn + unit) (s' : Noaa.St) (evs : list event) : Prop :=
  (∀ k, k ∈ dest_bucket s' →
     k ∈ dest_bucket s
     ∨ ∃ key folder, key ∈ keys ∧ (Noaa.filename key ∉ globals s)
                     ∧ Noaa.date_folder key = inr folder
                     ∧ k = Noaa.dest_key key folder)
  ∧ (∀ p, p ∈ disk s' →
       p ∈ disk s
       ∨ ∃ key, key ∈ keys ∧ (Noaa.filename key ∉ globals s)
                ∧ p = Noaa.local_nc_path key)
  ∧ (errors evs = [] →
       (∀ p, p ∈ disk s' → p ∈ disk s)
       ∧ ∀ key, key ∈ keys → Noaa.filename key ∉ globals s →
                Noaa.local_nc_path key ∉ disk s').

(** What the NOAA loop leaves in the checkpoint file, by the checkpoint
    writes it made: none, and the set and the file are as before; or the
    last one succeeded, and the file holds the set as it is in memory.
    Every list a write dumped, whether the write succeeded or not, is
    part of the set in memory at the end. *)
Definition files_sync_post (s : Noaa.St)
    (r : exn + unit) (s' : Noaa.St) (evs : list event) : Prop :=
  (dumps evs = [] →
     globals s' = globals s ∧ ledger_file s' = ledger_file s)
  ∧ (∀ c, last (dumps evs) = Some (c, Success) →
       ledger_file s' = Json (elements (globals s')))
  ∧ (∀ ids o, (JsonDump ids, o) ∈ calls evs →
       ∀ id, id ∈ ids → id ∈ globals s').

(** ** s3_setup.py: [create_panthalassa_buckets] (lines 5-55)

    The object store is the set of buckets the caller owns, each with the
    keys of its objects.  A call fails with a [ClientError], which carries
    the error code of the service and its text [str(e)], or with another
    exception (no connection, no credentials).  The outcomes of the calls
    are taken from a script, in call order; when it is used up every
    further call gets through to the service. *)

Module S3Setup.

Inductive failure :=
  | ClientError (code text : string)
  | OtherError (e : exn).

#[global] Instance failure_eq_dec : EqDecision failure.
Proof. solve_decision. Defined.

Record config := Config {
  name : string;
  description : string;
  folders : list string
}.

(** Lines 11-27. *)
Definition bucket_configs : list config := [
  Config "panthalassa-ocean-raw-data"
    "Raw Copernicus Marine and NOAA wave data"
    ["copernicus_raw/"; "noaa_wave_data/"; "api_tests/";
     "connectivity_tests/"];
  Config "panthalassa-ocean-processed"
    "Cleaned and filtered ocean datasets"
    ["wave_power_flux/"; "monthly_aggregations/"; "spatial_subsets/"];
  Config "panthalassa-ocean-results"
    "Model outputs, forecasts, and analysis results"
    ["ml_models/"; "forecasts/"; "visualizations/"; "reports/"]
].

(** [boto3.client('s3', region_name='us-east-2')] *)
Definition region_name : string := "us-east-2".

Inductive s3_call :=
  | CreateBucket (bucket : string) (location_constraint : option string)
  | PutObject (bucket key : string).

#[global] Instance s3_call_eq_dec : EqDecision s3_call.
Proof. solve_decision. Defined.

Inductive s3_event :=
  | Printed (line : string)
  | Called (c : s3_call) (o : option failure).

#[global] Instance s3_event_eq_dec : EqDecision s3_event.
Proof. solve_decision. Defined.

Record world := World {
  buckets : gmap string (gset string);
  answers : list (option failure)
}.

Definition next_answer (w : world) : option failure * world :=
  match answers w with
  | [] => (None, w)
  | o :: rest => (o, World (buckets w) rest)
  end.

Definition already_owned : failure :=
  ClientError "BucketAlreadyOwnedByYou"
    "An error occurred (BucketAlreadyOwnedByYou) when calling the CreateBucket operation: Your previous request to create the named bucket succeeded and you already own it.".

Definition no_such_bucket : failure :=
  ClientError "NoSuchBucket"
    "An error occurred (NoSuchBucket) when calling the PutObject operation: The specified bucket does not exist".

(** [s3.create_bucket]: the call may fail before or at the service (the
    next answer of the script); when it gets through, for a bucket the
    caller owns already the service answers [BucketAlreadyOwnedByYou] if
    a location constraint is given, and succeeds without a change in
    us-east-1, where none is given. *)
Definition create_bucket (bucket : string) (location : option string)
    (w : world) : option failure * world :=
  let '(o, w1) := next_answer w in
  match o with
  | Some f => (Some f, w1)
  | None =>
      if decide (bucket ∈ dom (buckets w1)) then
        match location with
        | Some _ => (Some already_owned, w1)
        | None => (None, w1)
        end
      else (None, World (<[bucket := ∅]> (buckets w1)) (answers w1))
  end.

(** [s3.put_object(Bucket, Key, Body='')] *)
Definition put_object (bucket key : string) (w : world)
  : option failure * world :=
  let '(o, w1) := next_answer w in
  match o with
  | Some f => (Some f, w1)
  | None =>
      match buckets w1 !! bucket with
      | None => (Some no_such_bucket, w1)
      | Some keys =>
          (None, World (<[bucket := {[key]} ∪ keys]> (buckets w1)) (answers w1))
      end
  end.

(** Lines 43-49: the loop over the folders; it stops at the first call
    that raises. *)
Fixpoint create_folders (bucket : string) (fs : list string) (w : world)
  : option failure * world * list s3_event :=
  match fs with
  | [] => (None, w, [])
  | folder :: rest =>
      let '(o, w1) := put_object bucket folder w in
      match o with
      | Some f => (Some f, w1, [Called (PutObject bucket folder) o])
      | None =>
          let '(r, w2, evs) := create_folders bucket rest w1 in
          (r, w2,
           [Called (PutObject bucket folder) None;
            Printed ("  Created folder: " +:+ folder)] ++ evs)
      end
  end.

(** Lines 31-49: the body of the [try]. *)
Definition try_body (cfg : config) (w : world)
  : option failure * world * list s3_event :=
  let location :=
    if String.eqb region_name "us-east-1" then None else Some region_name in
  let '(o, w1) := create_bucket (name cfg) location w in
  match o with
  | Some f => (Some f, w1, [Called (CreateBucket (name cfg) location) o])
  | None =>
      let '(r, w2, evs) := create_folders (name cfg) (folders cfg) w1 in
      (r, w2,
       [Called (CreateBucket (name cfg) location) None;
        Printed ("Created bucket: " +:+ name cfg)] ++ evs)
  end.

(** Lines 51-55: [except ClientError as e]; any other exception goes on
    to the caller. *)
Definition handler (cfg : config) (f : failure) : option exn * list s3_event :=
  match f with
  | ClientError code text =>
      (None,
       [Printed (if String.eqb code "BucketAlreadyOwnedByYou"
                 then "Bucket " +:+ name cfg +:+ " already exists"
                 else "Error creating bucket " +:+ name cfg +:+ ": " +:+ text)])
  | OtherError e => (Some e, [])
  end.

(** Lines 29-55: the loop over the configurations. *)
Fixpoint create_loop (cfgs : list config) (w : world)
  : option exn * world * list s3_event :=
  match cfgs with
  | [] => (None, w, [])
  | cfg :: rest =>
      let '(o, w1, evs1) := try_body cfg w in
      let '(raised, evs2) :=
        match o with
        | None => (None, [])
        | Some f => handler cfg f
        end in
      match raised with
      | Some e => (Some e, w1, evs1 ++ evs2)
      | None =>
          let '(r, w2, evs3) := create_loop rest w1 in
          (r, w2, evs1 ++ evs2 ++ evs3)
      end
  end.

Definition create_panthalassa_buckets (w : world)
  : option exn * world * list s3_event :=
  create_loop bucket_configs w.

(** The [create_bucket] calls among the events of a run. *)
Definition creations (evs : list s3_event)
  : list (string * option string) :=
  omap (λ ev, match ev with
              | Called (CreateBucket b l) _ => Some (b, l)
              | _ => None
              end) evs.

(** The [put_object] calls among the events of a run. *)
Definition puts (evs : list s3_event) : list (string * string) :=
  omap (λ ev, match ev with
              | Called (PutObject b k) _ => Some (b, k)
              | _ => None
              end) evs.

(** The failures the calls of a run ended with. *)
Definition failures (evs : list s3_event) : list failure :=
  omap (λ ev, match ev with Called _ (Some f) => Some f | _ => None end) evs.

Definition is_client_error (f : failure) : Prop :=
  match f with ClientError _ _ => True | OtherError _ => False end.

End S3Setup.
(** * Properties of the embedded scripts *)

(** ** The model on small inputs *)

Example generate_chunks_2020 :
  generate_chunks (mk 2020 1 1 0 0 0 0) (mk 2020 3 1 0 0 0 0)
  = ([(mk 2020 1 1 0 0 0 0, mk 2020 2 1 0 0 0 0);
      (mk 2020 2 1 0 0 0 0, mk 2020 3 1 0 0 0 0)], GenDone).
Proof. reflexivity. Qed.

Example strftime_example : strftime_Ymd (mk 2020 1 1 21 0 0 0) = "20200101".
Proof. reflexivity. Qed.

Example copernicus_two_months :
  let '(r, s, evs) :=
    Copernicus.main (mk 2020 1 1 0 0 0 0) (mk 2020 3 1 0 0 0 0) fresh in
  r = Finished ∧ globals s = ["20200101_20200201"; "20200201_20200301"]
  ∧ ledger_file s = Json ["20200101_20200201"; "20200201_20200301"]
  ∧ disk s = ∅.
Proof. vm_compute. repeat split. Qed.

Example split_example :
  Py.split "/" "GEFSv12/reforecast/2019/x.grib2"
  = ["GEFSv12"; "reforecast"; "2019"; "x.grib2"].
Proof. reflexivity. Qed.

Example replace_example : Py.replace ".grib2" ".nc" "hs.grib2" = "hs.nc".
Proof. reflexivity. Qed.

Example endswith_example :
  Py.endswith "a/b.grib2" ".grib2" = true ∧ Py.endswith "b.grib" ".grib2" = false.
Proof. split; reflexivity. Qed.

(** A delay in this range is slept, whatever the state. *)
Lemma sleep_ok {G} (delay : Z) :
  0 ≤ delay → delay ≤ sure_sleep → sleep delay = (emit (Sleep delay) : M G unit).
Proof.
intros Hlo Hhi. unfold sleep.
rewrite (proj2 (Z.ltb_ge delay (- sleep_max)))
  by (unfold sleep_max, sure_sleep in *; lia).
rewrite (proj2 (Z.ltb_ge sleep_max delay))
  by (unfold sleep_max, sure_sleep in *; lia).
rewrite (proj2 (Z.ltb_ge delay 0)) by lia.
by rewrite (proj2 (Z.leb_le delay sure_sleep)).
Qed.

Section RetryFacts.
Context {G A : Type}.
Variable func : M G A.
Variables max_attempts delay : Z.
Hypothesis delay_nonneg : 0 ≤ delay.
Hypothesis delay_sure : delay ≤ sure_sleep.

Lemma retry_for_success (n : Z) fs : ∀ attempt s s1 a s2 evs,
  fails func s fs s1 →
  attempt + Z.of_nat (length fs) < max_attempts + 1 →
  attempt + Z.of_nat (length fs) < attempt + n →
  func s1 = (inr a, s2, evs) →
  retry_for func max_attempts delay (seqZ attempt n) s
  = (inr (Some a), s2, failed_attempts_events delay attempt fs ++ evs).
Proof.
  revert n. induction fs as [|[e evs0] fs IH];
    intros n attempt s s1 a s2 evs Hf Hlt Hn Hok.
  - inversion Hf; subst. rewrite seqZ_cons by (simpl in Hn; lia).
    simpl. by rewrite Hok.
  - inversion Hf as [|? ? s0 ? ? ? Hfail Hrest]; subst.
    simpl in Hlt, Hn.
    rewrite seqZ_cons by lia. simpl. rewrite Hfail.
    rewrite sleep_ok by done.
    unfold bind, print, emit.
    destruct (attempt <? max_attempts) eqn:Hcmp; [|lia].
    rewrite (IH (Z.pred n) (Z.succ attempt) s0 s1 a s2 evs); try done; try lia.
    simpl. rewrite <- !app_assoc. simpl.
    by replace (Z.succ attempt) with (attempt + 1) by lia.
Qed.

Lemma retry_for_exhausted fs : ∀ attempt s s1 e s2 evs,
  fails func s fs s1 →
  attempt + Z.of_nat (length fs) = max_attempts →
  func s1 = (inl e, s2, evs) →
  retry_for func max_attempts delay
    (seqZ attempt (Z.of_nat (length fs) + 1)) s
  = (inl e, s2,
     failed_attempts_events delay attempt fs
       ++ evs ++ [Print (failure_line max_attempts e)]).
Proof.
  induction fs as [|[e0 evs0] fs IH]; intros attempt s s1 e s2 evs Hf;
    inversion Hf as [|? ? s0 ? ? ? Hfail Hrest]; subst; intros Hlen Hlast;
    simpl length in *.
  - rewrite seqZ_cons by lia. simpl retry_for. rewrite Hlast.
    unfold bind, print, emit.
    destruct (attempt <? max_attempts) eqn:Hcmp; [lia|].
    unfold raise. simpl. by replace attempt with max_attempts by lia.
  - rewrite seqZ_cons by lia. simpl retry_for. rewrite Hfail.
    rewrite sleep_ok by done.
    unfold bind, print, emit.
    destruct (attempt <? max_attempts) eqn:Hcmp; [|lia].
    replace (Z.pred (Z.of_nat (S (length fs)) + 1))
      with (Z.of_nat (length fs) + 1) by lia.
    rewrite (IH (Z.succ attempt) s0 s1 e s2 evs); try done; try lia.
    simpl. rewrite <- !app_assoc. simpl.
    by replace (Z.succ attempt) with (attempt + 1) by lia.
Qed.
End RetryFacts.

(** ** Order on datetimes *)

Section Order.
Import DateTime.

Lemma lex_compare_refl a : lex_compare a a = Eq.
Proof. induction a as [|x a IH]; simpl; [done|]. by rewrite Z.compare_refl. Qed.

Lemma lex_compare_eq a : ∀ b, lex_compare a b = Eq → a = b.
Proof.
  induction a as [|x a IH]; intros [|y b]; simpl; try done.
  destruct (Z.compare_spec x y) as [->| |]; try done.
  intros Hrest. f_equal. by apply IH.
Qed.

Lemma lex_compare_antisym a : ∀ b, lex_compare b a = CompOpp (lex_compare a b).
Proof.
  induction a as [|x a IH]; intros [|y b]; simpl; try done.
  rewrite (Z.compare_antisym x y).
  destruct (x ?= y); simpl; auto.
Qed.

Lemma lex_compare_trans a : ∀ b c,
  lex_compare a b = Lt → lex_compare b c = Lt → lex_compare a c = Lt.
Proof.
  induction a as [|x a IH]; intros [|y b] [|z c]; simpl; try done.
  destruct (Z.compare_spec x y) as [Hxy|Hxy|Hxy],
           (Z.compare_spec y z) as [Hyz|Hyz|Hyz]; try done; intros H1 H2.
  - subst. rewrite Z.compare_refl. eauto.
  - subst. by apply Z.compare_lt_iff in Hyz as ->.
  - subst. by apply Z.compare_lt_iff in Hxy as ->.
  - assert (x < z) as ->%Z.compare_lt_iff by lia. done.
Qed.

Lemma fields_inj a b : fields a = fields b → a = b.
Proof. destruct a, b; unfold fields; simpl; intros [=]; by subst. Qed.

Lemma ltb_irrefl a : ltb a a = false.
Proof. unfold ltb, compare. by rewrite lex_compare_refl. Qed.

Lemma leb_refl a : leb a a = true.
Proof. unfold leb, compare. by rewrite lex_compare_refl. Qed.

Lemma ltb_trans a b c : ltb a b = true → ltb b c = true → ltb a c = true.
Proof.
  unfold ltb, compare. intros H1 H2.
  rewrite (lex_compare_trans (fields a) (fields b) (fields c)); [done|..];
    by repeat case_match.
Qed.

Lemma ltb_leb a b : ltb a b = true → leb a b = true.
Proof. unfold ltb, leb. by case_match. Qed.

Lemma leb_cases a b : leb a b = true → a = b ∨ ltb a b = true.
Proof.
  unfold ltb, leb, compare. destruct (lex_compare _ _) eqn:H; try done.
  - left. by apply fields_inj, lex_compare_eq.
  - by right.
Qed.

Lemma ltb_false_leb a b : ltb a b = false → leb b a = true.
Proof.
  unfold ltb, leb, compare. rewrite (lex_compare_antisym (fields a)).
  by destruct (lex_compare _ _).
Qed.

Lemma ltb_asym a b : ltb a b = true → ltb b a = false.
Proof.
  unfold ltb, compare. rewrite (lex_compare_antisym (fields a)).
  by destruct (lex_compare _ _).
Qed.

Lemma leb_ltb_trans a b c : leb a b = true → ltb b c = true → ltb a c = true.
Proof. intros [->|H]%leb_cases; eauto using ltb_trans. Qed.

Lemma ltb_leb_trans a b c : ltb a b = true → leb b c = true → ltb a c = true.
Proof. intros H [<-|H']%leb_cases; eauto using ltb_trans. Qed.

(** The year and month of the earlier datetime are not later. *)
Lemma ltb_year_month a b :
  ltb a b = true →
  year a < year b ∨ (year a = year b ∧ month a ≤ month b).
Proof.
  unfold ltb, compare, fields. simpl.
  destruct (Z.compare_spec (year a) (year b)); try done; [|lia].
  destruct (Z.compare_spec (month a) (month b)); try done; lia.
Qed.
End Order.

(** ** The planner *)

Section Planner.
Import DateTime.

Lemma valid_fields t :
  valid t = true →
  1 ≤ year t ≤ 9999 ∧ 1 ≤ month t ≤ 12 ∧ 1 ≤ day t ≤ 31
  ∧ 0 ≤ hour t ≤ 23 ∧ 0 ≤ minute t ≤ 59 ∧ 0 ≤ second t ≤ 59
  ∧ 0 ≤ microsecond t ≤ 999999.
Proof.
  unfold valid, check_date, check_time, MINYEAR, MAXYEAR.
  rewrite !andb_true_iff, !Z.leb_le. intros [[[[[[? ?] ?] ?] ?] Hd] ?].
  assert (days_in_month (year t) (month t) ≤ 31).
  { unfold days_in_month. repeat case_match; lia. }
  lia.
Qed.

Lemma days_in_month_ge y m : 28 ≤ days_in_month y m.
Proof. unfold days_in_month. repeat case_match; lia. Qed.

(** One step of the planner from a valid datetime before December 9999. *)
Lemma next_month_ok cur :
  valid cur = true →
  month_index cur < 9999 * 12 + 12 →
  ∃ n, next_month cur = inr n
    ∧ n = mk (year cur + month cur / 12) (month cur mod 12 + 1)
            (Z.min (day cur) 28) (hour cur) 0 0 0
    ∧ valid n = true
    ∧ month_index n = month_index cur + 1
    ∧ ltb cur n = true.
Proof.
  intros Hv Hmi. pose proof (valid_fields _ Hv) as (Hy & Hm & Hd & Hh & _).
  unfold month_index in *.
  assert (month cur / 12 = 0 ∧ month cur mod 12 = month cur ∧ month cur < 12
          ∨ month cur / 12 = 1 ∧ month cur mod 12 = 0 ∧ month cur = 12)
    as Hcase.
  { destruct (decide (month cur = 12)) as [->|]; [by right|left].
    rewrite Z.div_small, Z.mod_small by lia. lia. }
  eexists. split; [|split; [reflexivity|]].
  - unfold next_month, datetime4.
    assert (valid (mk (year cur + month cur / 12) (month cur mod 12 + 1)
              (Z.min (day cur) 28) (hour cur) 0 0 0) = true) as ->; [|done].
    unfold valid, check_date, check_time, MINYEAR, MAXYEAR. simpl.
    pose proof (days_in_month_ge (year cur + month cur / 12)
                  (month cur mod 12 + 1)).
    rewrite !andb_true_iff, !Z.leb_le. lia.
  - split; [|split].
    + unfold valid, check_date, check_time, MINYEAR, MAXYEAR. simpl.
      pose proof (days_in_month_ge (year cur + month cur / 12)
                    (month cur mod 12 + 1)).
      rewrite !andb_true_iff, !Z.leb_le. lia.
    + simpl. lia.
    + unfold ltb, compare, fields. simpl.
      destruct Hcase as [(-> & -> & ?)|(-> & -> & ?)].
      * rewrite Z.add_0_r, Z.compare_refl.
        by assert (month cur < month cur + 1) as ->%Z.compare_lt_iff by lia.
      * by assert (year cur < year cur + 1) as ->%Z.compare_lt_iff by lia.
Qed.

(** In December 9999 the step asks for year 10000. *)
Lemma next_month_raises cur :
  year cur = 9999 → month cur = 12 →
  next_month cur = inl (Exn "ValueError" "datetime field out of range").
Proof.
  intros Hy Hm. unfold next_month, datetime4, valid, check_date, MAXYEAR.
  by rewrite Hy, Hm.
Qed.

Lemma ltb_month_index a b :
  valid a = true → valid b = true → ltb a b = true →
  month_index a ≤ month_index b.
Proof.
  intros (_ & ? & _)%valid_fields (_ & ? & _)%valid_fields
    Hlt%ltb_year_month.
  unfold month_index. lia.
Qed.

Lemma before_last_end cur end_ :
  valid cur = true → leb end_ last_end = true → ltb cur end_ = true →
  month_index cur < 9999 * 12 + 12.
Proof.
  intros Hv Hend Hlt.
  pose proof (ltb_leb_trans _ _ _ Hlt Hend) as Hcur.
  pose proof (valid_fields _ Hv) as (Hy & Hm & Hd & Hh & Hmi & Hs & Hus).
  revert Hcur. unfold ltb, compare, fields, last_end, month_index. simpl.
  destruct (Z.compare_spec (year cur) 9999); try done; [|lia].
  destruct (Z.compare_spec (month cur) 12); try done; [|lia].
  destruct (Z.compare_spec (day cur) 1); try done; [|lia].
  destruct (Z.compare_spec (hour cur) 0); try done; [|lia].
  destruct (Z.compare_spec (minute cur) 0); try done; [|lia].
  destruct (Z.compare_spec (second cur) 0); try done; [|lia].
  destruct (Z.compare_spec (microsecond cur) 0); try done; lia.
Qed.

Lemma generate_chunks_loop_spec fuel : ∀ cur end_,
  valid cur = true → valid end_ = true → leb end_ last_end = true →
  leb cur end_ = true →
  (Z.to_nat (month_index end_ - month_index cur + 1) < fuel)%nat →
  ∃ cs, generate_chunks_loop fuel cur end_ = (cs, GenDone)
    ∧ tiles cur cs end_
    ∧ Forall (λ c, valid c.1 = true ∧ valid c.2 = true ∧ month_step end_ c) cs
    ∧ Forall (λ c, month_index cur ≤ month_index c.1) cs
    ∧ StronglySorted (λ c c' : chunk, month_index c.1 < month_index c'.1) cs.
Proof.
  induction fuel as [|fuel IH]; intros cur end_ Hvc Hve Hlast Hle Hfuel; [lia|].
  simpl. destruct (ltb cur end_) eqn:Hlt.
  - pose proof (before_last_end _ _ Hvc Hlast Hlt) as Hmi.
    destruct (next_month_ok _ Hvc Hmi) as (n & Hn & Hnform & Hvn & Hmin & Hcn).
    pose proof (ltb_month_index _ _ Hvc Hve Hlt) as Hmono.
    rewrite Hn. destruct (ltb end_ n) eqn:Hcut.
    + (* truncated to [end_]: the loop stops at the next test *)
      destruct fuel as [|fuel]; [lia|]. simpl. rewrite ltb_irrefl.
      exists [(cur, end_)]. split; [done|]. split; [done|].
      split; [|split].
      * constructor; [|done]. split_and!; try done.
        exists n. split; [done|]. by right.
      * by constructor.
      * repeat constructor.
    + pose proof (ltb_false_leb _ _ Hcut) as Hnle.
      assert (month_index n ≤ month_index end_) as Hnmi.
      { apply leb_cases in Hnle as [->|?]; [lia|]. by apply ltb_month_index. }
      destruct (IH n end_) as (cs & -> & Ht & Hall & Hlow & Hsorted);
        try done; [lia|].
      exists ((cur, n) :: cs). split; [done|]. split; [done|].
      split; [|split].
      * constructor; [|done]. split_and!; try done.
        exists n. split; [done|]. by left.
      * constructor; [done|].
        eapply Forall_impl; [exact Hlow|]. simpl. intros c ?. lia.
      * constructor; [done|].
        eapply Forall_impl; [exact Hlow|]. simpl. intros c ?. lia.
  - exists []. split; [done|]. split; [|by repeat constructor].
    simpl. apply leb_cases in Hle as [->|Hlt']; [done|congruence].
Qed.
End Planner.

(** ** Intervals that tile a domain partition it *)

Section Tiles.
Import DateTime.

Lemma leb_trans a b c : leb a b = true → leb b c = true → leb a c = true.
Proof.
  intros [->|H1]%leb_cases; [done|].
  intros H2. apply ltb_leb. eauto using ltb_leb_trans.
Qed.

Lemma leb_ltb_false a b : leb a b = true → ltb b a = false.
Proof.
  intros [->|H]%leb_cases; [apply ltb_irrefl|by apply ltb_asym].
Qed.

Lemma tiles_le start cs : ∀ end_, tiles start cs end_ → le start end_.
Proof.
  unfold le. revert start. induction cs as [|c cs IH]; simpl; intros start end_.
  - intros ->. apply leb_refl.
  - intros (<- & Hlt & Hrest). eapply leb_trans; [by apply ltb_leb|eauto].
Qed.

(** Every instant of the domain lies in one of the intervals, and the
    intervals hold nothing else. *)
Lemma tiles_cover start cs : ∀ end_ t,
  tiles start cs end_ →
  (le start t ∧ lt t end_) ↔ ∃ c, c ∈ cs ∧ inside t c.
Proof.
  unfold inside, le, lt. revert start.
  induction cs as [|c cs IH]; simpl; intros start end_ t.
  - intros ->. split.
    + intros [H1 H2]. pose proof (leb_ltb_trans _ _ _ H1 H2) as H.
      by rewrite ltb_irrefl in H.
    + intros (c & Hc & _). by apply elem_of_nil in Hc.
  - intros (<- & Hlt & Hrest). pose proof (tiles_le _ _ _ Hrest) as Hce.
    specialize (IH _ _ t Hrest). split.
    + intros [H1 H2]. destruct (ltb t c.2) eqn:Htc.
      * exists c. split; [left|done].
      * apply ltb_false_leb in Htc.
        destruct (proj1 IH) as (c' & Hin & Hc'); [done|].
        exists c'. split; [by right|done].
    + intros (c' & [->|Hin]%elem_of_cons & H1 & H2).
      * split; [done|]. eauto using ltb_leb_trans.
      * destruct (proj2 IH) as [H3 H4]; [by exists c'|].
        split; [|done]. eapply leb_trans; [by apply ltb_leb|done].
Qed.

(** No instant lies in two of the intervals. *)
Lemma tiles_disjoint start cs : ∀ end_ t i j c c',
  tiles start cs end_ →
  cs !! i = Some c → cs !! j = Some c' →
  inside t c → inside t c' → i = j.
Proof.
  assert (∀ cs start end_ t c j c',
    tiles start cs end_ → cs !! 0%nat = Some c → cs !! S j = Some c' →
    inside t c → inside t c' → False) as Hfirst.
  { intros [|c0 cs0] start0 end_ t c j c'; simpl; [done|].
    intros (<- & Hlt & Hrest) [= <-] Hj [_ H2] [H3 H4].
    assert (c' ∈ cs0) as Hin by (eapply list_elem_of_lookup; eauto).
    destruct (proj2 (tiles_cover _ _ _ t Hrest)) as [H5 _].
    { exists c'. by split. }
    pose proof (leb_ltb_trans _ _ _ H5 H2) as H.
    by rewrite ltb_irrefl in H. }
  revert start. induction cs as [|c0 cs IH]; intros start end_ t i j c c' Ht;
    [done|].
  destruct i as [|i], j as [|j]; try done.
  - intros. exfalso. eapply (Hfirst (c0 :: cs)); eauto.
  - intros. exfalso. eapply (Hfirst (c0 :: cs)); eauto.
  - simpl. destruct Ht as (_ & _ & Hrest). intros. f_equal. eauto.
Qed.

(** The last interval ends at the end of the domain. *)
Lemma tiles_last start cs : ∀ end_ c,
  tiles start cs end_ → last cs = Some c → c.2 = end_.
Proof.
  revert start. induction cs as [|c0 cs IH]; simpl; intros start end_ c; [done|].
  intros (_ & _ & Hrest). destruct cs as [|c1 cs]; simpl in *.
  - by intros [= <-].
  - intros Hl. by eapply IH.
Qed.
End Tiles.

Section PlannerRun.
Import DateTime.

Lemma next_month_inr s n :
  next_month s = inr n →
  n = mk (year s + month s / 12) (month s mod 12 + 1)
        (Z.min (day s) 28) (hour s) 0 0 0
  ∧ valid n = true.
Proof.
  unfold next_month, datetime4. destruct (valid _) eqn:Hv; [|done].
  by intros [= <-].
Qed.

Lemma month_step_le end_ c : month_step end_ c → ∃ n,
  next_month c.1 = inr n ∧ le c.2 n
  ∧ month_index n = month_index c.1 + 1
  ∧ day n = Z.min (day c.1) 28 ∧ hour n = hour c.1.
Proof.
  intros (n & Hn & Hc). exists n. split; [done|].
  destruct (next_month_inr _ _ Hn) as [Hform _].
  split; [|rewrite Hform; unfold month_index; simpl;
           pose proof (Z.div_mod (month c.1) 12); lia].
  destruct Hc as [->|[-> Hlt]]; [apply leb_refl|by apply ltb_leb].
Qed.

(** The generator, started on a non-empty domain that ends by
    [last_end], stops by itself after tiling the domain. *)
Lemma generate_chunks_spec start end_ :
  valid start = true → valid end_ = true →
  lt start end_ → le end_ last_end →
  ∃ cs, generate_chunks start end_ = (cs, GenDone)
    ∧ cs ≠ []
    ∧ tiles start cs end_
    ∧ Forall (λ c, valid c.1 = true ∧ valid c.2 = true ∧ month_step end_ c) cs
    ∧ StronglySorted (λ c c' : chunk, month_index c.1 < month_index c'.1) cs.
Proof.
  intros Hvs Hve Hlt Hlast. unfold generate_chunks, chunk_fuel.
  destruct (generate_chunks_loop_spec
              (S (Z.to_nat (month_index end_ - month_index start + 1)))
              start end_) as (cs & Heq & Ht & Hall & _ & Hsorted);
    try done; [by apply ltb_leb|lia|].
  exists cs. split_and!; try done.
  intros ->. simpl in Ht. subst. unfold lt in Hlt. by rewrite ltb_irrefl in Hlt.
Qed.

Lemma generate_chunks_empty start end_ :
  ¬ lt start end_ → generate_chunks start end_ = ([], GenDone).
Proof.
  unfold lt, generate_chunks, chunk_fuel. simpl.
  by destruct (ltb start end_).
Qed.
End PlannerRun.

(** ** Events of a composite run *)

Lemma calls_app a b : calls (a ++ b) = calls a ++ calls b.
Proof. apply omap_app. Qed.

Lemma prints_app a b : prints (a ++ b) = prints a ++ prints b.
Proof. apply omap_app. Qed.

Lemma attempted_app a b : attempted (a ++ b) = attempted a ++ attempted b.
Proof. unfold attempted. by rewrite prints_app, filter_app. Qed.

Lemma union_singleton_twice (p : string) (d : gset string) :
  {[p]} ∪ ({[p]} ∪ d) = {[p]} ∪ d.
Proof. by rewrite (assoc_L (∪)), (idemp_L (∪)). Qed.

(** ** The retried calls, with the three attempts of the scripts *)

Ltac unfold_retry3 :=
  unfold retry; change (seqZ 1 3) with [1; 2; 3];
  unfold retry_for, external, bind, print, sleep, sleep_max, sure_sleep,
    next_outcome, emit, raise,
    ret, set_script, set_disk, set_dest_bucket, set_ledger_file; simpl.

(** Case analysis on the next [n] outcomes of the script [sc]. *)
Ltac script_cases n sc :=
  lazymatch n with
  | O => idtac
  | S ?m =>
      destruct sc as [|[|? [|]] sc]; simpl;
      [| |script_cases m sc|script_cases m sc]
  end.

Ltac retry_log_done :=
  unfold retry_log; simpl; split_and?; eauto; repeat constructor.

Lemma retry_open_run a b (s : Copernicus.St) :
  ∃ r sc evs,
    retry (Copernicus.open_dataset a b) 3 10 s = (r, set_script sc s, evs)
    ∧ retry_log (OpenDataset a b) r evs.
Proof.
  destruct s as [g sc d bk src lf]. unfold Copernicus.open_dataset.
  unfold_retry3.
  script_cases 3%nat sc;
    (eexists _, _, _; split; [reflexivity|]); retry_log_done.
Qed.

Lemma retry_upload_run {G} f k (s : state G) :
  ∃ r sc bk evs,
    retry (upload_file f k) 3 10 s
    = (r, set_dest_bucket bk (set_script sc s), evs)
    ∧ retry_log (UploadFile f k) r evs
    ∧ match r with
      | inl _ => bk = dest_bucket s
      | inr _ => bk = {[k]} ∪ dest_bucket s
      end.
Proof.
  destruct s as [g sc d bk src lf]. unfold upload_file.
  unfold_retry3.
  script_cases 3%nat sc;
    (eexists _, _, _, _; split; [reflexivity|]);
    (split; [retry_log_done|]); done.
Qed.

Lemma retry_netcdf_run {G} p (s : state G) :
  ∃ r sc dk evs,
    retry (to_netcdf p) 3 10 s = (r, set_disk dk (set_script sc s), evs)
    ∧ retry_log (ToNetcdf p) r evs
    ∧ match r with
      | inl _ => dk = disk s ∨ dk = {[p]} ∪ disk s
      | inr _ => dk = {[p]} ∪ disk s
      end.
Proof.
  destruct s as [g sc d bk src lf]. unfold to_netcdf.
  unfold_retry3.
  script_cases 3%nat sc;
    (eexists _, _, _, _; split; [reflexivity|]);
    (split; [retry_log_done|]);
    simpl; rewrite ?union_singleton_twice; auto.
Qed.

Lemma external_run {G} c eff (s : state G) :
  ∃ o sc, external c eff s
    = (match o with Success => inr () | Failure e _ => inl e end,
       eff o (set_script sc s), [Call c o]).
Proof.
  destruct s as [g sc d bk src lf]. unfold external, next_outcome, set_script.
  simpl. destruct sc as [|o sc]; [by exists Success, []|by exists o, sc].
Qed.

(** ** Rules for [runs] *)

Lemma runs_bind {G A B} (m : M G A) (f : A → M G B) s r1 s1 evs1 Q :
  m s = (r1, s1, evs1) →
  match r1 with
  | inl e => Q (inl e) s1 evs1
  | inr a => runs (f a) s1 (λ r s2 evs2, Q r s2 (evs1 ++ evs2))
  end →
  runs (bind m f) s Q.
Proof.
  intros Hm HQ. unfold runs, bind. rewrite Hm. destruct r1 as [e|a].
  - by eexists _, _, _.
  - destruct HQ as (r & s2 & evs2 & -> & HQ). by eexists _, _, _.
Qed.

Lemma runs_intro {G A} (m : M G A) s r s' evs (Q : _ → _ → _ → Prop) :
  m s = (r, s', evs) → Q r s' evs → runs m s Q.
Proof. intros. by exists r, s', evs. Qed.

Lemma runs_wand {G A} (m : M G A) s (Q Q' : _ → _ → _ → Prop) :
  runs m s Q → (∀ r s' evs, Q r s' evs → Q' r s' evs) → runs m s Q'.
Proof. intros (r & s' & evs & ? & ?) HQ. exists r, s', evs. eauto. Qed.

Lemma runs_det {G A} (m : M G A) s r s' evs Q :
  runs m s Q → m s = (r, s', evs) → Q r s' evs.
Proof. intros (r0 & s0 & evs0 & Heq & HQ) Hm. rewrite Heq in Hm. by simplify_eq. Qed.

Lemma last_app_Some {A} (l1 l2 : list A) x :
  last l2 = Some x → last (l1 ++ l2) = Some x.
Proof. intros H. by rewrite last_app, H. Qed.

Lemma filter_none {A} (P : A → Prop) `{∀ x, Decision (P x)} (l : list A) :
  Forall (λ x, ¬ P x) l → filter P l = [].
Proof.
  induction 1 as [|x l Hx Hl IH]; [done|].
  by rewrite filter_cons_False.
Qed.

Lemma filter_all {A} (P : A → Prop) `{∀ x, Decision (P x)} (l : list A) :
  Forall P l → filter P l = l.
Proof.
  induction 1 as [|x l Hx Hl IH]; [done|].
  by rewrite filter_cons_True, IH.
Qed.

Lemma last_elem_of {A} (l : list A) x : last l = Some x → x ∈ l.
Proof.
  induction l as [|y l IH]; [done|]. destruct l as [|z l]; simpl in *.
  - intros [= ->]. left.
  - intros H. right. by apply IH.
Qed.

(** ** One chunk of the Copernicus loop *)

Ltac last_call := repeat (apply last_app_Some); first [eassumption|reflexivity].

Section CopernicusChunk.
Import Copernicus.

Lemma save_log_run (s : St) :
∃ o sc, save_log s
  = (match o with Success => inr () | Failure e _ => inl e end,
     match o with
     | Success => set_ledger_file (Json (globals s)) (set_script sc s)
     | Failure _ true => set_ledger_file Garbled (set_script sc s)
     | Failure _ false => set_script sc s
     end, [Call (JsonDump (globals s)) o]).
Proof.
destruct s as [g sc d bk src lf].
unfold save_log, bind, get_globals, json_dump, external, next_outcome,
  set_script, set_ledger_file. simpl.
destruct sc as [|o sc]; [by exists Success, []|by exists o, sc].
Qed.

Lemma transfer_run c s : runs (transfer c) s (transfer_summary c s).
Proof.
unfold transfer.
eapply runs_bind; [reflexivity|]. cbv beta iota.
destruct (retry_open_run c.1 c.2 s) as (r1 & sc1 & evs1 & H1 & Hc1 & Ha1 & Hl1).
eapply runs_bind; [exact H1|].
destruct r1 as [e|a].
{ destruct Hl1 as (p & Hl1 & _).
  unfold transfer_summary. rewrite !attempted_app, !calls_app, Ha1.
  split_and!; try done.
  exists (OpenDataset c.1 c.2), p. split; [last_call|done]. }
destruct Hl1 as [-> Hl1].
eapply runs_bind; [reflexivity|]. cbv beta iota.
destruct (external_run DsChunk (λ _ s, s) (set_script sc1 s)) as (o2 & sc2 & H2).
eapply runs_bind; [exact H2|].
destruct o2 as [|e2 p2].
2:{ unfold transfer_summary. rewrite !attempted_app, !calls_app, Ha1.
    split_and!; try done.
    exists DsChunk, p2. split; [last_call|done]. }
destruct (retry_netcdf_run (temp_file c) (set_script sc2 (set_script sc1 s)))
  as (r3 & sc3 & dk3 & evs3 & H3 & (Hc3 & Ha3 & Hl3) & Hd3).
eapply runs_bind; [exact H3|].
destruct r3 as [e|a].
{ destruct Hl3 as (p & Hl3 & _).
  unfold transfer_summary. rewrite !attempted_app, !calls_app, Ha1, Ha3.
  split_and!; try done.
  exists (ToNetcdf (temp_file c)), p. split; [last_call|done]. }
destruct Hl3 as [-> Hl3]. simpl in Hd3. subst dk3.
eapply runs_bind; [reflexivity|]. cbv beta iota.
match goal with |- runs _ ?st _ => 
  destruct (retry_upload_run (temp_file c) (s3_key c) st)
    as (r4 & sc4 & bk4 & evs4 & H4 & (Hc4 & Ha4 & Hl4) & Hb4) end.
eapply runs_bind; [exact H4|].
destruct r4 as [e|a].
{ destruct Hl4 as (p & Hl4 & Hn4). simpl in Hb4. subst bk4.
  unfold transfer_summary. rewrite !attempted_app, !calls_app, Ha1, Ha3, Ha4.
  split_and!; try done.
  exists (UploadFile (temp_file c) (s3_key c)), p. split; [last_call|].
  split_and!; try done.
  rewrite !filter_app.
  rewrite (filter_none _ (calls evs1)), (filter_none _ (calls evs3)),
    (filter_all _ (calls evs4)); [done|done|..].
  - eapply Forall_impl; [exact Hc3|]. by intros co -> [=].
  - eapply Forall_impl; [exact Hc1|]. by intros co -> [=]. }
destruct Hl4 as [-> Hl4]. simpl in Hb4. subst bk4.
match goal with |- runs _ ?st _ => 
  destruct (external_run (OsRemove (temp_file c)) (λ o s,
    match o with
    | Success => set_disk (disk s ∖ {[temp_file c]}) s
    | Failure _ _ => s
    end) st) as (o5 & sc5 & H5) end.
eapply runs_bind; [exact H5|].
destruct o5 as [|e5 p5].
2:{ unfold transfer_summary. rewrite !attempted_app, !calls_app, Ha1, Ha3, Ha4.
    split_and!; try done.
    exists (OsRemove (temp_file c)), p5. split; [last_call|done]. }
eapply runs_bind; [reflexivity|]. cbv beta iota.
match goal with |- runs _ ?st _ => 
  destruct (save_log_run st) as (o6 & sc6 & H6) end.
eapply runs_bind; [exact H6|].
destruct o6 as [|e6 [|]].
2,3: unfold transfer_summary; rewrite !attempted_app, !calls_app, Ha1, Ha3, Ha4;
  (split_and!; try done);
  eexists _, _; (split; [last_call|]);
  (split_and!; [simpl; auto..|]);
  unfold dumps; rewrite ?calls_app, !filter_app;
  rewrite (filter_none _ (calls evs1)), (filter_none _ (calls evs3)),
    (filter_none _ (calls evs4)); try done;
  (eapply Forall_impl; [eassumption|]); by intros co ->.
eapply runs_intro; [reflexivity|].
unfold transfer_summary. rewrite !attempted_app, !calls_app, Ha1, Ha3, Ha4.
split_and!; try done.
apply last_elem_of in Hl1, Hl3, Hl4.
intros co. simpl. rewrite !elem_of_cons, !elem_of_app, !elem_of_cons.
intros [->|[->|[->|[->|[->|[->|[]%elem_of_nil]]]]]];
  repeat (rewrite elem_of_app || rewrite elem_of_cons); auto 20.
Qed.

End CopernicusChunk.

(** ** Chunk names of a plan are pairwise different *)

Section Names.
Import DateTime Copernicus.

Lemma digit_inj a b : 0 ≤ a < 10 → 0 ≤ b < 10 → digit a = digit b → a = b.
Proof.
intros Ha Hb H. unfold digit in H.
apply pretty_N_char_inj in H; lia.
Qed.

Lemma strftime_Ymd_split t rest t' rest' :
valid t = true → valid t' = true →
strftime_Ymd t +:+ rest = strftime_Ymd t' +:+ rest' →
year t = year t' ∧ month t = month t' ∧ day t = day t' ∧ rest = rest'.
Proof.
intros (Hy & Hm & Hd & _)%valid_fields (Hy' & Hm' & Hd' & _)%valid_fields.
unfold strftime_Ymd. simpl.
intros [= H1 H2 H3 H4 H5 H6 H7 H8 Hr].
apply digit_inj in H1, H2, H3, H4, H5, H6, H7, H8;
  try (apply Z.mod_pos_bound; lia).
split_and!; [Z.to_euclidean_division_equations; lia..|done].
Qed.

Lemma chunk_name_inj c c' :
valid c.1 = true → valid c'.1 = true →
chunk_name c = chunk_name c' →
year c.1 = year c'.1 ∧ month c.1 = month c'.1 ∧ day c.1 = day c'.1.
Proof.
intros Hv Hv' H. unfold chunk_name in H.
destruct (strftime_Ymd_split _ _ _ _ Hv Hv' H) as (? & ? & ? & _). done.
Qed.

Lemma names_nodup (cs : list chunk) :
Forall (λ c, valid c.1 = true) cs →
StronglySorted (λ c c' : chunk, month_index c.1 < month_index c'.1) cs →
NoDup (chunk_name <$> cs).
Proof.
induction 2 as [|c cs Hs IH Hc]; simpl; [constructor|].
apply Forall_cons in H as [Hv Hvs]. constructor; [|auto].
intros (c' & Heq & Hin)%list_elem_of_fmap.
rewrite Forall_forall in Hc, Hvs.
destruct (chunk_name_inj c c') as (Hy & Hm & _); auto.
specialize (Hc _ Hin). unfold month_index in Hc. lia.
Qed.

Lemma generate_chunks_loop_sorted fuel : ∀ cur end_ cs stop,
  valid cur = true → valid end_ = true →
  generate_chunks_loop fuel cur end_ = (cs, stop) →
  Forall (λ c : chunk, valid c.1 = true ∧ valid c.2 = true) cs
  ∧ Forall (λ c : chunk, month_index cur ≤ month_index c.1) cs
  ∧ StronglySorted (λ c c' : chunk, month_index c.1 < month_index c'.1) cs.
Proof.
  induction fuel as [|fuel IH]; intros cur end_ cs stop Hvc Hve; simpl.
  { intros [= <- <-]. by repeat constructor. }
  destruct (ltb cur end_) eqn:Hlt; [|intros [= <- <-]; by repeat constructor].
  destruct (next_month cur) as [e|n] eqn:Hn;
    [intros [= <- <-]; by repeat constructor|].
  destruct (next_month_inr _ _ Hn) as [Hform Hvn].
  assert (month_index n = month_index cur + 1) as Hmi.
  { rewrite Hform. unfold month_index. simpl.
    pose proof (Z.div_mod (month cur) 12). lia. }
  destruct (ltb end_ n) eqn:Hcut.
  - assert (generate_chunks_loop fuel end_ end_ = ([], GenDone)
            ∨ generate_chunks_loop fuel end_ end_ = ([], GenFuel)) as [->| ->].
    { destruct fuel; simpl; [by right|]. rewrite ltb_irrefl. by left. }
    all: intros [= <- <-]; split_and!; repeat constructor; done.
  - destruct (generate_chunks_loop fuel n end_) as [rest stop'] eqn:Hrest.
    destruct (IH _ _ _ _ Hvn Hve Hrest) as (Hall & Hlow & Hsorted).
    intros [= <- <-]. split_and!.
    + by constructor.
    + constructor; [done|].
      eapply Forall_impl; [exact Hlow|]. simpl. intros c ?. lia.
    + constructor; [done|].
      eapply Forall_impl; [exact Hlow|]. simpl. intros c ?. lia.
Qed.

Lemma generate_chunks_names start end_ cs stop :
  valid start = true → valid end_ = true →
  generate_chunks start end_ = (cs, stop) →
  NoDup (chunk_name <$> cs).
Proof.
  intros Hvs Hve Hgen.
  destruct (generate_chunks_loop_sorted _ _ _ _ _ Hvs Hve Hgen)
    as (Hall & _ & Hsorted).
  apply names_nodup; [|done].
  eapply Forall_impl; [exact Hall|]. by intros c [? _].
Qed.
End Names.

(** ** The Copernicus loop *)

Lemma filter_ext_in {A} (P Q : A → Prop) `{∀ x, Decision (P x)}
    `{∀ x, Decision (Q x)} (l : list A) :
  (∀ x, x ∈ l → P x ↔ Q x) → filter P l = filter Q l.
Proof.
  induction l as [|x l IH]; intros HPQ; [done|].
  rewrite !filter_cons.
  rewrite IH by (intros y Hy; apply HPQ; by right).
  destruct (decide (P x)) as [HP|HP], (decide (Q x)) as [HQ|HQ]; try done.
  - exfalso. apply HQ, HPQ; [left|done].
  - exfalso. apply HP, HPQ; [left|done].
Qed.

Section CopernicusLoop.
Import Copernicus.

Lemma process_chunk_skip c (s : St) :
  chunk_name c ∈ globals s →
  process_chunk c s = (inr (), s, [Print (skipping_line c)]).
Proof.
  intros Hin. unfold process_chunk, bind, get_globals. simpl.
  by rewrite bool_decide_eq_true_2.
Qed.

Lemma process_chunk_transfer c (s : St) :
  chunk_name c ∉ globals s →
  process_chunk c s = transfer c s.
Proof.
  intros Hin. unfold process_chunk, bind, get_globals. simpl.
  rewrite bool_decide_eq_false_2 by done.
  by destruct (transfer c s) as [[r s'] evs].
Qed.

Lemma loop_run cs : ∀ s,
  NoDup (chunk_name <$> cs) →
  runs (for_each process_chunk cs) s (loop_summary cs s).
Proof.
  induction cs as [|c cs IH]; intros s Hnd.
  { eapply runs_intro; [reflexivity|].
    exists [], [], []. split_and!; try done; [by rewrite app_nil_r|by left]. }
  apply NoDup_cons in Hnd as [Hc Hnd]. simpl.
  destruct (decide (chunk_name c ∈ globals s)) as [Hin|Hin].
  - eapply runs_bind; [by apply process_chunk_skip|].
    eapply runs_wand; [apply (IH s Hnd)|].
    intros r s' evs (done_ & failed & rest & Htodo & Hr & Ha & Hd & Hb & Hl).
    exists done_, failed, rest. rewrite filter_cons_False by (by intros ?).
    split_and!; done.
  - destruct (transfer_run c s) as (r1 & s1 & evs1 & Hrun & Ha1 & Hsrc & Hcase).
    eapply runs_bind; [by rewrite process_chunk_transfer|].
    destruct r1 as [e|[]].
    + exists [], [c], (filter (λ c, chunk_name c ∉ globals s) cs).
      rewrite filter_cons_True by done.
      split_and!; try done; eauto.
      * destruct Hcase as (c' & p & _ & Hc').
        destruct c'; try done; destruct Hc' as (_ & _ & -> & _);
          try done; apply union_subseteq_r.
      * destruct Hcase as (c' & p & _ & Hc').
        destruct c'; try done; simpl.
        all: try (destruct Hc' as (_ & -> & _); by left).
        destruct Hc' as (_ & [->| ->] & _); [by left|right; eauto].
    + destruct Hcase as (Hg & Hlf & Hbk & Hdk & Hcalls).
      eapply runs_wand; [apply (IH s1 Hnd)|].
      intros r s' evs (done_ & failed & rest & Htodo & Hr & Ha & Hd & Hb & Hl).
      exists (c :: done_), failed, rest.
      rewrite filter_cons_True by done.
      assert (filter (λ c0, chunk_name c0 ∉ globals s) cs
              = filter (λ c0, chunk_name c0 ∉ globals s1) cs) as ->.
      { apply filter_ext_in. intros c0 Hc0. rewrite Hg, elem_of_app, list_elem_of_singleton.
        split; [|tauto]. intros ? [?|Heq]; [done|].
        apply Hc. rewrite <- Heq. by apply list_elem_of_fmap_2. }
      rewrite Htodo. split_and!; try done.
      * destruct r as [e|[]]; [done|]. destruct Hr as (-> & -> & ->).
        split_and!; try done. rewrite Hg. simpl. by rewrite <- app_assoc.
      * rewrite attempted_app, Ha1, Ha. done.
      * constructor.
        -- split; [apply Hb; rewrite Hbk; apply elem_of_union_l; by apply elem_of_singleton|].
           rewrite calls_app. intros x Hx. apply elem_of_app. left.
           apply Hcalls. unfold transfer_calls in Hx.
             rewrite !elem_of_cons, elem_of_nil in Hx. rewrite !elem_of_cons. tauto.
        -- eapply Forall_impl; [exact Hd|]. intros c' [? Hsub]. split; [done|].
           rewrite calls_app. intros x ?. apply elem_of_app. right. by apply Hsub.
      * rewrite Hbk in Hb. etrans; [apply union_subseteq_r|exact Hb].
      * destruct Hl as [Hl|Hl]; [left|by right].
        rewrite Hl, Hlf, Hg. destruct done_; simpl; [done|].
        by rewrite <- app_assoc.
Qed.
End CopernicusLoop.

(** ** One file of the NOAA loop *)

(** One external call of the [try] block: run it, name its outcome. *)
Ltac ext_step o sc H :=
  match goal with
  | |- runs (bind (external ?c ?eff) _) ?st _ =>
      destruct (external_run c eff st) as (o & sc & H);
      eapply runs_bind; [exact H|]
  end.

Ltac elems :=
  simpl; repeat (rewrite elem_of_cons || rewrite elem_of_app
                 || rewrite elem_of_nil).

Ltac try_failed :=
  unfold try_summary; rewrite ?attempted_app, ?calls_app;
  split; [done|]; split; [done|];
  split; [intros ? ?; elems; intuition congruence|];
  right; eexists _, _; (split; [last_call|]); simpl; split_and?; eauto.

Lemma dump_globals_run {G} (f : G → list string) (s : state G) :
  ∃ o sc, (g <- get_globals ;; json_dump (f g)) s
    = (match o with Success => inr () | Failure e _ => inl e end,
       match o with
       | Success => set_ledger_file (Json (f (globals s))) (set_script sc s)
       | Failure _ true => set_ledger_file Garbled (set_script sc s)
       | Failure _ false => set_script sc s
       end, [Call (JsonDump (f (globals s))) o]).
Proof.
  destruct s as [g sc d bk src lf].
  unfold bind, get_globals, json_dump, external, next_outcome,
    set_script, set_ledger_file. simpl.
  destruct sc as [|o sc]; [by exists Success, []|by exists o, sc].
Qed.

Section NoaaFile.
Import Noaa.

Lemma try_block_run key s : runs (try_block key) s (try_summary key s).
Proof.
  unfold try_block, get_object, body_read, xr_open_dataset, ds_sel,
    to_netcdf, upload_file, os_remove.
  eapply runs_bind; [reflexivity|]. cbv beta iota.
  ext_step o1 sc1 H1. destruct o1 as [|e1 p1]; [|try_failed].
  ext_step o2 sc2 H2. destruct o2 as [|e2 p2]; [|try_failed].
  ext_step o3 sc3 H3. destruct o3 as [|e3 p3]; [|try_failed].
  ext_step o4 sc4 H4. destruct o4 as [|e4 p4]; [|try_failed].
  eapply runs_bind; [reflexivity|].
  destruct (date_folder key) as [e|folder] eqn:Hfolder.
  { unfold try_summary. rewrite ?attempted_app, ?calls_app.
    split; [done|]; split; [done|].
    split; [intros ? ?; elems; intuition congruence|].
    left. split_and!; try done; last_call. }
  ext_step o5 sc5 H5. destruct o5 as [|e5 [|]]; [|try_failed..].
  ext_step o6 sc6 H6. destruct o6 as [|e6 p6]; [|try_failed].
  ext_step o7 sc7 H7. destruct o7 as [|e7 p7]; [|try_failed].
  eapply runs_bind; [reflexivity|]. cbv beta iota.
  match goal with |- runs _ ?st _ =>
    destruct (dump_globals_run (λ g : gset string, elements g) st)
      as (o8 & sc8 & H8) end.
  eapply runs_bind; [exact H8|].
  destruct o8 as [|e8 [|]]; [|try_failed..].
  eapply runs_intro; [reflexivity|].
  unfold try_summary. rewrite ?attempted_app, ?calls_app.
  split; [done|]; split; [done|].
  split; [intros ? ?; elems; intuition congruence|].
  exists folder. split_and!; try done.
  - intros co. unfold noaa_calls. elems. tauto.
  - simpl. repeat constructor.
Qed.
End NoaaFile.

(** ** The NOAA loop *)

Lemma errors_app a b : errors (a ++ b) = errors a ++ errors b.
Proof. unfold errors. by rewrite prints_app, filter_app. Qed.

Section NoaaLoop.
Import Noaa.

Lemma process_file_skip key (s : St) :
  filename key ∈ globals s →
  process_file key s = (inr (), s, [Print (skipping_line key)]).
Proof.
  intros Hin. unfold process_file, bind, get_globals. simpl.
  by rewrite bool_decide_eq_true_2.
Qed.

Lemma process_file_try key (s : St) r s' evs :
  filename key ∉ globals s →
  try_block key s = (r, s', evs) →
  process_file key s
  = (inr (), s', match r with
                 | inl e => evs ++ [Print (error_line key e)]
                 | inr _ => evs
                 end).
Proof.
  intros Hin Htry. unfold process_file, bind, get_globals. simpl.
  rewrite bool_decide_eq_false_2 by done.
  unfold try_except. rewrite Htry. by destruct r as [e|[]].
Qed.

Lemma try_frame key s r1 s1 evs1 :
  try_summary key s r1 s1 evs1 →
  dest_bucket s ⊆ dest_bucket s1
  ∧ (globals s1 = globals s ∨ globals s1 = {[filename key]} ∪ globals s)
  ∧ (∀ id, id ∈ persisted (ledger_file s1) →
       id ∈ persisted (ledger_file s) ∨ id ∈ globals s1)
  ∧ (∀ u, r1 = inr u →
       globals s1 = {[filename key]} ∪ globals s
       ∧ ledger_file s1 = Json (elements (globals s1))).
Proof.
  intros (_ & _ & _ & Hcase). destruct r1 as [e|u].
  - destruct Hcase as [(_ & _ & Hg & Hl & Hb & _)|(c' & p & _ & Hc')].
    { rewrite Hg, Hl, Hb. split_and!; auto. by intros u [=]. }
    destruct c'; try done.
    all: destruct Hc' as (Hg & Hl & Hb & _); try destruct Hb as (f & _ & Hb);
      rewrite Hg, Hb; split_and!; auto; try apply union_subseteq_r;
      try (by intros u [=]);
      try (rewrite Hl; by auto);
      try (destruct Hl as [->| ->]; [by auto|by intros id []%elem_of_nil]).
  - destruct Hcase as (f & _ & Hg & Hl & Hb & _). rewrite Hl, Hb, Hg.
    split_and!; auto; try apply union_subseteq_r.
    intros id Hid. right. simpl in Hid. by apply elem_of_elements in Hid.
Qed.

Lemma files_run keys : ∀ s,
  runs (for_each process_file keys) s (files_summary keys s).
Proof.
  induction keys as [|key keys IH]; intros s.
  { eapply runs_intro; [reflexivity|]. unfold files_summary.
    split_and!; try done.
    - intros k o []%elem_of_nil.
    - auto.
    - intros _. split; [by intros k []%elem_of_nil|by left]. }
  simpl. destruct (decide (filename key ∈ globals s)) as [Hin|Hin].
  - eapply runs_bind; [by apply process_file_skip|].
    eapply runs_wand; [apply (IH s)|].
    intros r s' evs (Hr & Hsrc & Hbk & Hg & Hget & Hper & Hatt & Herr).
    unfold files_summary. split_and!; try done.
    + intros k o Hk. right. by apply (Hget k o).
    + intros Hnd. apply NoDup_cons in Hnd as [_ Hnd].
      rewrite filter_cons_False by (by intros ?). by apply Hatt.
    + intros He. destruct (Herr He) as [Hall Hled]. split; [|done].
      intros k [->|Hk]%elem_of_cons; [by apply Hg|by apply Hall].
  - destruct (try_block_run key s) as (r1 & s1 & evs1 & Hrun & Hsum).
    pose proof (try_frame _ _ _ _ _ Hsum) as (Hb1 & Hg1 & Hp1 & Hok1).
    destruct Hsum as (Ha1 & Hsrc1 & Hget1 & _).
    eapply runs_bind; [by apply (process_file_try _ _ _ _ _ Hin Hrun)|].
    cbv beta iota.
    eapply runs_wand; [apply (IH s1)|].
    intros r s' evs (Hr & Hsrc & Hbk & Hg & Hget & Hper & Hatt & Herr).
    assert (globals s ⊆ globals s1) as Hmono.
    { destruct Hg1 as [->| ->]; [done|apply union_subseteq_r]. }
    unfold files_summary. split_and!; try done.
    + congruence.
    + by etrans.
    + by etrans.
    + intros k o. rewrite calls_app. intros [Hk|Hk]%elem_of_app.
      * assert (k = key) as ->; [|left]. apply (Hget1 k o).
        destruct r1; [|done].
        rewrite calls_app in Hk. apply elem_of_app in Hk as [|[]%elem_of_nil].
        done.
      * right. by apply (Hget k o).
    + intros id Hid. destruct (Hper id Hid) as [Hid'|]; [|by right].
      destruct (Hp1 id Hid') as [|]; [by left|right; by apply Hg].
    + intros Hnd. apply NoDup_cons in Hnd as [Hfresh Hnd].
      rewrite filter_cons_True by done. rewrite attempted_app, (Hatt Hnd).
      assert (attempted (match r1 with
                         | inl e => evs1 ++ [Print (error_line key e)]
                         | inr _ => evs1
                         end) = [processing_line key]) as ->.
      { destruct r1; [|done]. by rewrite attempted_app, Ha1. }
      simpl. do 2 f_equal. apply filter_ext_in. intros k Hk.
      destruct Hg1 as [->| ->]; [done|].
      split.
      * intros Hk1 ?. apply Hk1. by apply elem_of_union_r.
      * intros Hk1 [Heq%elem_of_singleton|?]%elem_of_union; [|done].
        apply Hfresh. rewrite <- Heq. by apply list_elem_of_fmap_2.
    + rewrite errors_app. intros [He1 He]%app_eq_nil.
      destruct r1 as [e|u].
      { rewrite errors_app in He1. by apply app_eq_nil in He1 as [_ [=]]. }
      destruct (Hok1 u eq_refl) as [Hgs1 Hl1].
      destruct (Herr He) as [Hall Hled]. split.
      * intros k [->|Hk]%elem_of_cons; [|by apply Hall].
        apply Hg. rewrite Hgs1. apply elem_of_union_l. by apply elem_of_singleton.
      * right. destruct Hled as [[-> ->]|]; done.
Qed.
End NoaaLoop.

(** ** The two scripts as a whole *)

Section Mains.

Lemma copernicus_main_run {G0} start end_ (s0 : state G0) cs stop r0 s evs0 :
  generate_chunks start end_ = (cs, stop) →
  ledger_file s0 ≠ Garbled →
  for_each Copernicus.process_chunk cs
    (set_globals (persisted (ledger_file s0)) s0) = (r0, s, evs0) →
  Copernicus.main start end_ s0
  = ((main_end stop r0 evs0).1, s, (main_end stop r0 evs0).2).
Proof.
  intros Hgen Hlf Hloop. unfold Copernicus.main.
  assert (Copernicus.load_log (ledger_file s0)
          = inr (persisted (ledger_file s0))) as ->.
  { by destruct (ledger_file s0). }
  rewrite Hgen. unfold bind. rewrite Hloop.
  destruct r0 as [e|[]]; [done|].
  destruct stop; simpl; by rewrite ?app_nil_r.
Qed.

Lemma copernicus_main_garbled {G0} start end_ (s0 : state G0) :
  ledger_file s0 = Garbled →
  ∃ e, Copernicus.main start end_ s0
       = (Uncaught e, set_globals [] s0, [Traceback e]).
Proof. intros H. unfold Copernicus.main. rewrite H. simpl. eauto. Qed.

Lemma noaa_main_run {G0} (s0 : state G0) :
  ledger_file s0 ≠ Garbled →
  let g0 : gset string := list_to_set (persisted (ledger_file s0)) in
  ∃ o sc,
    let s1 := set_script sc (set_globals g0 s0) in
    match o with
    | Failure e p =>
        Noaa.main s0
        = (Uncaught e, s1,
           [Call (ListObjectsV2 Noaa.source_prefix) o; Traceback e])
    | Success =>
        ∃ s evs,
          for_each Noaa.process_file (noaa_keys s0) s1 = (inr (), s, evs)
          ∧ files_summary (noaa_keys s0) s1 (inr ()) s evs
          ∧ Noaa.main s0
            = (Finished, s,
               [Call (ListObjectsV2 Noaa.source_prefix) Success;
                Print (Noaa.found_line (length (noaa_keys s0)))] ++ evs)
    end.
Proof.
  intros Hlf g0. unfold Noaa.main.
  assert (Noaa.load_checkpoint (ledger_file s0) = inr g0) as ->.
  { unfold g0. by destruct (ledger_file s0). }
  destruct (external_run (ListObjectsV2 Noaa.source_prefix) (λ _ s, s)
              (set_globals g0 s0)) as (o & sc & Hlist).
  exists o, sc. cbv zeta.
  unfold bind, Noaa.plan, bind, Noaa.list_objects_v2. rewrite Hlist.
  destruct o as [|e p]; [|done].
  destruct (files_run (noaa_keys s0) (set_script sc (set_globals g0 s0)))
    as (r & s & evs & Hrun & Hsum).
  pose proof Hsum as (-> & _).
  exists s, evs. split; [done|]. split; [done|].
  unfold ret, print, emit. simpl. unfold noaa_keys in Hrun. simpl in Hrun.
  fold (noaa_keys s0) in Hrun |- *.
  by rewrite Hrun.
Qed.
End Mains.

(** ** Resuming from a ledger *)

Section Resume.

Lemma filter_length_split {A} (P : A → Prop) `{∀ x, Decision (P x)}
    (l : list A) :
  (length (filter (λ x, ¬ P x) l) + length (filter P l) = length l)%nat.
Proof.
  induction l as [|x l IH]; [done|].
  rewrite !filter_cons. destruct (decide (P x)), (decide (¬ P x)); simpl;
    try done; lia.
Qed.

Lemma copernicus_all_skipped cs (s : Copernicus.St) :
  (∀ c, c ∈ cs → Copernicus.chunk_name c ∈ globals s) →
  for_each Copernicus.process_chunk cs s
  = (inr (), s, Print ∘ Copernicus.skipping_line <$> cs).
Proof.
  induction cs as [|c cs IH]; intros Hall; [done|].
  simpl. unfold bind.
  rewrite process_chunk_skip by (apply Hall; left).
  rewrite IH by (intros c' ?; apply Hall; by right). done.
Qed.

Lemma noaa_all_skipped keys (s : Noaa.St) :
  (∀ k, k ∈ keys → Noaa.filename k ∈ globals s) →
  for_each Noaa.process_file keys s
  = (inr (), s, Print ∘ Noaa.skipping_line <$> keys).
Proof.
  induction keys as [|k keys IH]; intros Hall; [done|].
  simpl. unfold bind.
  rewrite process_file_skip by (apply Hall; left).
  rewrite IH by (intros c' ?; apply Hall; by right). done.
Qed.

(** A Copernicus run that starts from a readable ledger: its loop. *)
Lemma copernicus_run_loop {G0} start end_ (s0 : state G0) r s evs :
  valid start = true → valid end_ = true →
  ledger_file s0 ≠ Garbled →
  Copernicus.main start end_ s0 = (r, s, evs) →
  ∃ cs stop r0 evs0,
    generate_chunks start end_ = (cs, stop)
    ∧ for_each Copernicus.process_chunk cs
        (set_globals (persisted (ledger_file s0)) s0) = (r0, s, evs0)
    ∧ loop_summary cs (set_globals (persisted (ledger_file s0)) s0) r0 s evs0
    ∧ r = (main_end stop r0 evs0).1 ∧ evs = (main_end stop r0 evs0).2.
Proof.
  intros Hvs Hve Hg Hmain.
  destruct (generate_chunks start end_) as [cs stop] eqn:Hgen.
  pose proof (generate_chunks_names _ _ _ _ Hvs Hve Hgen) as Hnd.
  destruct (loop_run cs (set_globals (persisted (ledger_file s0)) s0) Hnd)
    as (r0 & s1 & evs0 & Hloop & Hsum).
  rewrite (copernicus_main_run _ _ _ _ _ _ _ _ Hgen Hg Hloop) in Hmain.
  simplify_eq. by exists cs, stop, r0, evs0.
Qed.

Lemma main_end_finished stop r0 evs0 :
  (main_end stop r0 evs0).1 = Finished → stop = GenDone ∧ r0 = inr ().
Proof. destruct r0 as [e|[]], stop; by simpl. Qed.

(** After a run that finishes, every chunk of the plan is in the ledger
    file. *)
Lemma copernicus_finished_recorded {G0} start end_ (s0 : state G0) s evs :
  valid start = true → valid end_ = true →
  Copernicus.main start end_ s0 = (Finished, s, evs) →
  ledger_file s ≠ Garbled
  ∧ ∀ c, c ∈ (generate_chunks start end_).1 →
         Copernicus.chunk_name c ∈ persisted (ledger_file s).
Proof.
  intros Hvs Hve Hmain.
  destruct (decide (ledger_file s0 = Garbled)) as [Hg|Hg].
  { destruct (copernicus_main_garbled start end_ s0 Hg) as (e & Heq).
    rewrite Heq in Hmain. simplify_eq. }
  destruct (copernicus_run_loop _ _ _ _ _ _ Hvs Hve Hg Hmain)
    as (cs & stop & r0 & evs0 & Hgen & _ & Hsum & Hr & _).
  symmetry in Hr. apply main_end_finished in Hr as [-> ->].
  destruct Hsum as (done_ & failed & rest & Htodo & (-> & -> & Hglob) & _ & _
                    & _ & Hl).
  rewrite Hgen. simpl in *. rewrite !app_nil_r in Htodo.
  destruct Hl as [Hl|[[e [=]] _]]. rewrite Hl. split.
  { by destruct done_. }
  intros c Hc.
  destruct (decide (Copernicus.chunk_name c ∈ persisted (ledger_file s0)))
    as [Hin|Hin].
  - destruct done_; simpl; [done|]. apply elem_of_app. by left.
  - assert (c ∈ done_) as Hcd.
    { rewrite <- Htodo. by apply list_elem_of_filter. }
    destruct done_ as [|c0 done_]; [by apply elem_of_nil in Hcd|].
    simpl. apply elem_of_app. right.
    by apply (list_elem_of_fmap_2 Copernicus.chunk_name) in Hcd.
Qed.
End Resume.
Section NoaaRun.

Lemma noaa_main_garbled {G0} (s0 : state G0) :
  ledger_file s0 = Garbled →
  ∃ e, Noaa.main s0 = (Uncaught e, set_globals ∅ s0, [Traceback e]).
Proof. intros H. unfold Noaa.main. rewrite H. simpl. eauto. Qed.

(** A NOAA run that reaches its last line: its listing succeeded and its
    loop went through all the keys. *)
Lemma noaa_finished {G0} (s0 : state G0) s evs :
  Noaa.main s0 = (Finished, s, evs) →
  ledger_file s0 ≠ Garbled
  ∧ ∃ sc evs',
      let s1 := set_script sc
                  (set_globals (list_to_set (persisted (ledger_file s0))
                                : gset string) s0) in
      for_each Noaa.process_file (noaa_keys s0) s1 = (inr (), s, evs')
      ∧ files_summary (noaa_keys s0) s1 (inr ()) s evs'
      ∧ evs = [Call (ListObjectsV2 Noaa.source_prefix) Success;
               Print (Noaa.found_line (length (noaa_keys s0)))] ++ evs'.
Proof.
  intros Hmain.
  destruct (decide (ledger_file s0 = Garbled)) as [Hg|Hg].
  { destruct (noaa_main_garbled s0 Hg) as (e & Heq).
    rewrite Heq in Hmain. simplify_eq. }
  split; [done|].
  destruct (noaa_main_run s0 Hg) as (o & sc & Hrun).
  destruct o as [|e p]; [|rewrite Hrun in Hmain; simplify_eq].
  destruct Hrun as (s' & evs' & Hloop & Hsum & Heq).
  rewrite Heq in Hmain. simplify_eq. by exists sc, evs'.
Qed.

Lemma noaa_keys_source {G G'} (s : state G) (s' : state G') :
  source_bucket s = source_bucket s' → noaa_keys s = noaa_keys s'.
Proof. unfold noaa_keys. by intros ->. Qed.
End NoaaRun.


(** ** When a chunk fails *)

Section Failures.

Lemma last_in_dumps evs c o :
  last (calls evs) = Some (c, o) → is_json_dump c = true → dumps evs ≠ [].
Proof.
  intros Hl Hc Hd. apply last_elem_of in Hl.
  assert ((c, o) ∈ dumps evs) as Hin by (by apply list_elem_of_filter).
  rewrite Hd in Hin. by apply elem_of_nil in Hin.
Qed.

(** A failed transfer ends the Copernicus loop. *)
Lemma copernicus_loop_aborts c rest (s : Copernicus.St) e s1 evs1 :
  Copernicus.chunk_name c ∉ globals s →
  Copernicus.transfer c s = (inl e, s1, evs1) →
  for_each Copernicus.process_chunk (c :: rest) s = (inl e, s1, evs1).
Proof.
  intros Hin Hrun. simpl. unfold bind.
  by rewrite process_chunk_transfer, Hrun.
Qed.

(** A failed [try] block is reported and the NOAA loop goes on. *)
Lemma noaa_loop_continues key rest (s : Noaa.St) e s1 evs1 :
  Noaa.filename key ∉ globals s →
  Noaa.try_block key s = (inl e, s1, evs1) →
  ∃ s' evs',
    for_each Noaa.process_file rest s1 = (inr (), s', evs')
    ∧ for_each Noaa.process_file (key :: rest) s
      = (inr (), s', evs1 ++ [Print (Noaa.error_line key e)] ++ evs').
Proof.
  intros Hin Hrun.
  destruct (files_run rest s1) as (r & s' & evs' & Hrest & -> & _).
  exists s', evs'. split; [done|]. simpl. unfold bind.
  rewrite (process_file_try _ _ _ _ _ Hin Hrun), Hrest.
  by rewrite <- app_assoc.
Qed.

Lemma copernicus_uncaught {G0} start end_ (s0 : state G0) cs stop e s evs0 :
  generate_chunks start end_ = (cs, stop) →
  ledger_file s0 ≠ Garbled →
  for_each Copernicus.process_chunk cs
    (set_globals (persisted (ledger_file s0)) s0) = (inl e, s, evs0) →
  Copernicus.main start end_ s0 = (Uncaught e, s, evs0 ++ [Traceback e]).
Proof.
  intros Hgen Hg Hloop.
  by rewrite (copernicus_main_run _ _ _ _ _ _ _ _ Hgen Hg Hloop).
Qed.
End Failures.


(** ** The NOAA listing *)

Section Listing.

Lemma noaa_plan_run (s : Noaa.St) :
  ∃ o sc, Noaa.plan s
    = (match o with Success => inr (noaa_keys s) | Failure e _ => inl e end,
       set_script sc s, [Call (ListObjectsV2 Noaa.source_prefix) o]).
Proof.
  destruct (external_run (ListObjectsV2 Noaa.source_prefix) (λ _ s, s) s)
    as (o & sc & Hlist).
  exists o, sc. unfold Noaa.plan, bind, Noaa.list_objects_v2. rewrite Hlist.
  by destruct o.
Qed.

(** The keys a NOAA run fetches are keys of its plan. *)
Lemma noaa_fetches_planned {G0} (s0 : state G0) r s evs k o :
  Noaa.main s0 = (r, s, evs) →
  (GetObject k, o) ∈ calls evs → k ∈ noaa_keys s0.
Proof.
  intros Hmain Hk.
  destruct (decide (ledger_file s0 = Garbled)) as [Hg|Hg].
  { destruct (noaa_main_garbled s0 Hg) as (e & Heq).
    rewrite Heq in Hmain. simplify_eq. by apply elem_of_nil in Hk. }
  destruct (noaa_main_run s0 Hg) as (o' & sc & Hrun).
  destruct o' as [|e p].
  - destruct Hrun as (s' & evs' & _ & Hsum & Heq).
    rewrite Heq in Hmain. simplify_eq.
    destruct Hsum as (_ & _ & _ & _ & Hget & _).
    apply (Hget k o). rewrite calls_app in Hk.
    apply elem_of_app in Hk as [Hk|Hk]; [|done].
    simpl in Hk. apply elem_of_cons in Hk as [[=]|Hk].
    by apply elem_of_nil in Hk.
  - rewrite Hrun in Hmain. simplify_eq. simpl in Hk.
    apply elem_of_cons in Hk as [[=]|Hk]. by apply elem_of_nil in Hk.
Qed.
Lemma string_app_length (s t : string) :
  String.length (s +:+ t) = (String.length s + String.length t)%nat.
Proof. induction s as [|a s IH]; simpl; [done|]. by rewrite IH. Qed.

Lemma string_app_inj_r (s1 s2 t : string) : s1 +:+ t = s2 +:+ t → s1 = s2.
Proof.
  intros H.
  assert (String.length s1 = String.length s2) as Hlen.
  { apply (f_equal String.length) in H. rewrite !string_app_length in H. lia. }
  revert s2 H Hlen. induction s1 as [|a s1 IH]; intros [|b s2]; simpl; try done.
  intros [= -> H] [= Hlen]. f_equal. by apply IH.
Qed.
End Listing.


(** * The claims *)

Section Claims.
Import DateTime.

(** C3 (amended): for every domain with [domain_start < domain_end] that
  ends no later than 9999-12-01 00:00, the intervals the planner yields
  partition [[domain_start, domain_end)] exactly: they tile it edge to
  edge in the order yielded, every instant of the domain lies in one
  interval and in one only, each interval ends no later than one planner
  step (the same hour of the same day, capped at 28, of the following
  month) after its start, and the last interval ends at [domain_end]. *)
Theorem generate_chunks_partition (start end_ : datetime) :
valid start = true → valid end_ = true →
lt start end_ → le end_ last_end →
∃ cs, generate_chunks start end_ = (cs, GenDone)
  ∧ tiles start cs end_
  ∧ (∀ t, (le start t ∧ lt t end_) ↔ ∃ c, c ∈ cs ∧ inside t c)
  ∧ (∀ t i j c c', cs !! i = Some c → cs !! j = Some c' →
       inside t c → inside t c' → i = j)
  ∧ Forall (λ c, ∃ n, next_month c.1 = inr n ∧ le c.2 n
               ∧ month_index n = month_index c.1 + 1
               ∧ day n = Z.min (day c.1) 28 ∧ hour n = hour c.1) cs
  ∧ ∃ c, last cs = Some c ∧ c.2 = end_.
Proof.
intros Hvs Hve Hlt Hlast.
destruct (generate_chunks_spec start end_) as (cs & Heq & Hne & Ht & Hall & _);
  try done.
exists cs. split_and!; try done.
- intros t. by apply tiles_cover.
- intros t i j c c'. by apply tiles_disjoint with (start := start) (end_ := end_).
- eapply Forall_impl; [exact Hall|]. intros c (_ & _ & Hstep).
  by apply month_step_le with (end_ := end_).
- destruct (last cs) as [c|] eqn:Hl.
  + exists c. split; [done|]. by eapply tiles_last.
  + by apply last_None in Hl.
Qed.

Lemma generate_chunks_partition_witness :
∃ cs, generate_chunks Copernicus.start_date Copernicus.end_date = (cs, GenDone)
  ∧ tiles Copernicus.start_date cs Copernicus.end_date
  ∧ (∀ t, (le Copernicus.start_date t ∧ lt t Copernicus.end_date)
          ↔ ∃ c, c ∈ cs ∧ inside t c)
  ∧ (∀ t i j c c', cs !! i = Some c → cs !! j = Some c' →
       inside t c → inside t c' → i = j)
  ∧ Forall (λ c, ∃ n, next_month c.1 = inr n ∧ le c.2 n
               ∧ month_index n = month_index c.1 + 1
               ∧ day n = Z.min (day c.1) 28 ∧ hour n = hour c.1) cs
  ∧ ∃ c, last cs = Some c ∧ c.2 = Copernicus.end_date.
Proof.
apply (generate_chunks_partition Copernicus.start_date Copernicus.end_date);
  reflexivity.
Defined.

(** C3, as stated, fails on a domain that reaches December 9999: the
  planner yields one interval and then raises [ValueError] instead of
  covering the rest of the domain. *)
Lemma generate_chunks_partition_counterexample :
let start := mk 9999 11 15 0 0 0 0 in
let end_ := mk 9999 12 20 0 0 0 0 in
valid start = true ∧ valid end_ = true ∧ lt start end_
∧ generate_chunks start end_
  = ([(start, mk 9999 12 15 0 0 0 0)],
     GenRaise (Exn "ValueError" "datetime field out of range"))
∧ ¬ tiles start (generate_chunks start end_).1 end_.
Proof.
split_and!; try reflexivity.
vm_compute. intros (_ & _ & [=]).
Qed.

(** C9 (amended): for every pair of datetimes [start < end_] with [end_]
  no later than 9999-12-01 00:00, the generator terminates by itself
  and yields a finite, non-empty sequence in which every interval is
  non-empty and ends where the next one starts (so it is strictly
  increasing); an interval that starts in December ends in January of
  the next year, or at [end_] if that comes first.  For [start >= end_]
  it yields the empty sequence. *)
Theorem generate_chunks_terminates (start end_ : datetime) :
valid start = true → valid end_ = true →
(lt start end_ → le end_ last_end →
 ∃ cs, generate_chunks start end_ = (cs, GenDone)
   ∧ cs ≠ []
   ∧ tiles start cs end_
   ∧ Forall (λ c, lt c.1 c.2) cs
   ∧ (∀ i c c', cs !! i = Some c → cs !! S i = Some c' → c.2 = c'.1)
   ∧ Forall (λ c, month c.1 = 12 →
        let january :=
          mk (year c.1 + 1) 1 (Z.min (day c.1) 28) (hour c.1) 0 0 0 in
        c.2 = january ∨ (c.2 = end_ ∧ lt end_ january)) cs)
∧ (¬ lt start end_ → generate_chunks start end_ = ([], GenDone)).
Proof.
intros Hvs Hve. split; [|apply generate_chunks_empty].
intros Hlt Hlast.
destruct (generate_chunks_spec start end_) as (cs & Heq & Hne & Ht & Hall & _);
  try done.
exists cs. split_and!; try done.
- clear -Ht. revert start Ht.
  induction cs as [|c cs IH]; simpl; intros start; [constructor|].
  intros (_ & Hlt & Hrest). constructor; eauto.
- clear -Ht. revert start Ht.
  induction cs as [|c cs IH]; simpl; intros start Ht i c1 c2; [done|].
  destruct Ht as (_ & _ & Hrest). destruct i as [|i]; simpl.
  + intros [= <-]. destruct cs as [|c3 cs]; simpl; [done|].
    intros [= <-]. by destruct Hrest as (-> & _).
  + by apply IH with (start := c.2).
- eapply Forall_impl; [exact Hall|].
  intros c (_ & _ & n & Hn & Hc) Hm january.
  assert (n = january) as <-; [|done].
  destruct (next_month_inr _ _ Hn) as [-> _]. unfold january.
  by rewrite Hm.
Qed.

Lemma generate_chunks_terminates_witness :
let start := mk 2019 12 31 6 30 0 0 in
let end_ := mk 2020 2 10 0 0 0 0 in
(∃ cs, generate_chunks start end_ = (cs, GenDone)
   ∧ cs ≠ []
   ∧ tiles start cs end_
   ∧ Forall (λ c, lt c.1 c.2) cs
   ∧ (∀ i c c', cs !! i = Some c → cs !! S i = Some c' → c.2 = c'.1)
   ∧ Forall (λ c, month c.1 = 12 →
        let january :=
          mk (year c.1 + 1) 1 (Z.min (day c.1) 28) (hour c.1) 0 0 0 in
        c.2 = january ∨ (c.2 = end_ ∧ lt end_ january)) cs)
∧ generate_chunks end_ start = ([], GenDone).
Proof.
split.
- apply (proj1 (generate_chunks_terminates (mk 2019 12 31 6 30 0 0)
                  (mk 2020 2 10 0 0 0 0) eq_refl eq_refl)); reflexivity.
- apply (proj2 (generate_chunks_terminates (mk 2020 2 10 0 0 0 0)
                  (mk 2019 12 31 6 30 0 0) eq_refl eq_refl)).
  unfold lt. vm_compute. discriminate.
Defined.

(** C9, as stated, fails for a start in December 9999: the first step
  asks for a date in year 10000 and the generator raises instead of
  yielding. *)
Lemma generate_chunks_terminates_counterexample :
let start := mk 9999 12 1 0 0 0 0 in
let end_ := mk 9999 12 31 0 0 0 0 in
valid start = true ∧ valid end_ = true ∧ lt start end_
∧ generate_chunks start end_
  = ([], GenRaise (Exn "ValueError" "datetime field out of range"))
∧ ¬ ∃ cs, generate_chunks start end_ = (cs, GenDone).
Proof.
split_and!; try reflexivity.
intros (cs & [=]).
Qed.

(** C4 (amended): for every operation and every retry policy with
  [max_attempts >= 1] and a delay that [time.sleep] accepts (not
  negative and at most [sure_sleep] seconds): when the operation fails
  [k < max_attempts] times and then succeeds, [retry] returns the
  success value after those [k + 1] invocations, having logged one
  failure line per failed attempt ([k] in all) and slept the delay once
  after each of them; when the operation fails [max_attempts] times in
  a row, [retry] invokes it exactly that many times, logs each failure,
  sleeps the delay only between consecutive attempts (not after the
  last) and raises the last failure itself. *)
Theorem retry_contract {G A} (func : M G A) (max_attempts delay : Z) :
1 ≤ max_attempts → 0 ≤ delay → delay ≤ sure_sleep →
(∀ s fs s1 a s2 evs,
   fails func s fs s1 →
   Z.of_nat (length fs) < max_attempts →
   func s1 = (inr a, s2, evs) →
   retry func max_attempts delay s
   = (inr (Some a), s2, failed_attempts_events delay 1 fs ++ evs))
∧ (∀ s fs s1 e s2 evs,
   fails func s fs s1 →
   Z.of_nat (length fs) = max_attempts - 1 →
   func s1 = (inl e, s2, evs) →
   retry func max_attempts delay s
   = (inl e, s2,
      failed_attempts_events delay 1 fs
        ++ evs ++ [Print (failure_line max_attempts e)])).
Proof.
intros Hmax Hdelay Hsure. split.
- intros s fs s1 a s2 evs Hf Hk Hok. unfold retry.
  apply (retry_for_success func max_attempts delay Hdelay Hsure max_attempts
           fs 1 s s1 a s2 evs Hf); [lia|lia|done].
- intros s fs s1 e s2 evs Hf Hk Hlast. unfold retry.
  replace max_attempts with (Z.of_nat (length fs) + 1) at 2 by lia.
  apply (retry_for_exhausted func max_attempts delay Hdelay Hsure
           fs 1 s s1 e s2 evs Hf); [lia|done].
Qed.

Lemma retry_contract_witness :
let boom := Exn "ConnectionError" "timed out" in
let put := upload_file (G := unit) "a.nc" "2020/a.nc" in
let s := State () [Failure boom false; Failure boom false; Success;
                   Failure boom false] ∅ ∅ [] Missing in
retry put 3 10 s
= (inr (Some ()),
   State () [Failure boom false] ∅ {[ "2020/a.nc" ]} [] Missing,
   [Call (UploadFile "a.nc" "2020/a.nc") (Failure boom false);
    Print "Attempt 1 failed: timed out"; Print "Retrying in 10 seconds...";
    Sleep 10;
    Call (UploadFile "a.nc" "2020/a.nc") (Failure boom false);
    Print "Attempt 2 failed: timed out"; Print "Retrying in 10 seconds...";
    Sleep 10;
    Call (UploadFile "a.nc" "2020/a.nc") Success])
∧ retry put 2 10 s
= (inl boom,
   State () [Success; Failure boom false] ∅ ∅ [] Missing,
   [Call (UploadFile "a.nc" "2020/a.nc") (Failure boom false);
    Print "Attempt 1 failed: timed out"; Print "Retrying in 10 seconds...";
    Sleep 10;
    Call (UploadFile "a.nc" "2020/a.nc") (Failure boom false);
    Print "Attempt 2 failed: timed out"]).
Proof.
intros boom put s.
pose (ev := [Call (UploadFile "a.nc" "2020/a.nc") (Failure boom false)]).
pose (s' := State () [Failure boom false; Success; Failure boom false]
              ∅ ∅ [] Missing).
pose (s'' := State () [Success; Failure boom false] ∅ ∅ [] Missing).
split.
- refine (proj1 (retry_contract put 3 10 ltac:(lia) ltac:(lia)
                   ltac:(unfold sure_sleep; lia))
            s [(boom, ev); (boom, ev)] s'' () _ _ _ _ _).
  + apply fails_cons with (s1 := s'); [reflexivity|].
    apply fails_cons with (s1 := s''); [reflexivity|]. apply fails_nil.
  + simpl. lia.
  + reflexivity.
- refine (proj2 (retry_contract put 2 10 ltac:(lia) ltac:(lia)
                   ltac:(unfold sure_sleep; lia))
            s [(boom, ev)] s' boom s'' ev _ _ _).
  + apply fails_cons with (s1 := s'); [reflexivity|]. apply fails_nil.
  + simpl. lia.
  + reflexivity.
Defined.

(** C4, as stated for every policy with [max_attempts >= 1] and a delay
  that is not negative, fails for a delay [time.sleep] refuses: with a
  delay of 10^10 seconds an operation that fails once and would then
  succeed is not invoked a second time; [retry] ends with the
  [OverflowError] of [time.sleep] instead of the success value. *)
Lemma retry_contract_counterexample :
let boom := Exn "ConnectionError" "timed out" in
let put := upload_file (G := unit) "a.nc" "2020/a.nc" in
let s := State () [Failure boom false; Success] ∅ ∅ [] Missing in
let s1 := State () [Success] ∅ ∅ [] Missing in
let s2 := State () [] ∅ {[ "2020/a.nc" ]} [] Missing in
let ev := [Call (UploadFile "a.nc" "2020/a.nc") (Failure boom false)] in
let ok := [Call (UploadFile "a.nc" "2020/a.nc") Success] in
1 ≤ 3 ∧ 0 ≤ 10000000000
∧ fails put s [(boom, ev)] s1
∧ Z.of_nat (length [(boom, ev)]) < 3
∧ put s1 = (inr (), s2, ok)
∧ retry put 3 10000000000 s
  = (inl (Exn "OverflowError"
            "timestamp too large to convert to C _PyTime_t"), s1,
     ev ++ [Print "Attempt 1 failed: timed out";
            Print "Retrying in 10000000000 seconds..."])
∧ retry put 3 10000000000 s
  ≠ (inr (Some ()), s2,
     failed_attempts_events 10000000000 1 [(boom, ev)] ++ ok).
Proof.
intros boom put s s1 s2 ev ok.
assert (retry put 3 10000000000 s
        = (inl (Exn "OverflowError"
                  "timestamp too large to convert to C _PyTime_t"), s1,
           ev ++ [Print "Attempt 1 failed: timed out";
                  Print "Retrying in 10000000000 seconds..."])) as Hrun
  by (vm_compute; reflexivity).
split; [lia|]. split; [lia|]. split.
{ apply fails_cons with (s1 := s1); [reflexivity|]. apply fails_nil. }
split; [simpl; lia|]. split; [reflexivity|]. split; [exact Hrun|].
rewrite Hrun. intros [=].
Qed.

(** C8: on the domain 2020-01-01 to 2020-03-01 the planner yields exactly
  [2020-01-01, 2020-02-01) and [2020-02-01, 2020-03-01); running the
  script on that domain from an empty machine, with every external call
  succeeding, finishes with the ledger (in memory and on disk) equal to
  ["20200101_20200201"; "20200201_20200301"] and no staging file left. *)
Theorem two_month_run :
let start := mk 2020 1 1 0 0 0 0 in
let end_ := mk 2020 3 1 0 0 0 0 in
let feb := mk 2020 2 1 0 0 0 0 in
generate_chunks start end_ = ([(start, feb); (feb, end_)], GenDone)
∧ ∃ s evs,
    Copernicus.main start end_ fresh = (Finished, s, evs)
    ∧ globals s = ["20200101_20200201"; "20200201_20200301"]
    ∧ ledger_file s = Json ["20200101_20200201"; "20200201_20200301"]
    ∧ disk s = ∅
    ∧ dest_bucket s
      = {[ "2020/20200101_20200201.nc"; "2020/20200201_20200301.nc" ]}.
Proof.
split; [reflexivity|].
destruct (Copernicus.main (mk 2020 1 1 0 0 0 0) (mk 2020 3 1 0 0 0 0) fresh)
  as [[r s] evs] eqn:Hrun.
exists s, evs.
assert (r = Finished ∧ globals s = ["20200101_20200201"; "20200201_20200301"]
    ∧ ledger_file s = Json ["20200101_20200201"; "20200201_20200301"]
    ∧ disk s = ∅
    ∧ dest_bucket s
      = {[ "2020/20200101_20200201.nc"; "2020/20200201_20200301.nc" ]})
  as (-> & ? & ? & ? & ?); [|done].
revert Hrun. vm_compute. intros [= <- <- _]. repeat split.
Qed.

(** C1 (amended): for every chunk of the plan, its id appears in the
  persisted ledger after a run of the Copernicus script only if it was
  there when the run started or the chunk was fully transferred during
  the run: its dataset was opened, re-chunked and written to the staging
  file, uploaded (the object is in the bucket) and the staging file
  removed, all before the id was appended.  The bucket never loses an
  object, so this holds across restarts.  When the run finishes, every
  chunk of the plan is in the persisted ledger.  (A chunk that was
  uploaded is not in the ledger when the cleanup or the ledger write
  failed after the upload.) *)
Theorem ledger_only_after_upload {G0} (start end_ : datetime)
  (s0 : state G0) r s evs :
valid start = true → valid end_ = true →
Copernicus.main start end_ s0 = (r, s, evs) →
let plan := (generate_chunks start end_).1 in
(∀ id, id ∈ persisted (ledger_file s) →
   id ∈ persisted (ledger_file s0)
   ∨ ∃ c, c ∈ plan ∧ Copernicus.chunk_name c = id
          ∧ Copernicus.s3_key c ∈ dest_bucket s
          ∧ transfer_calls c ⊆ calls evs)
∧ dest_bucket s0 ⊆ dest_bucket s
∧ (r = Finished →
   ∀ c, c ∈ plan → Copernicus.chunk_name c ∈ persisted (ledger_file s)).
Proof.
intros Hvs Hve Hmain plan.
destruct (decide (ledger_file s0 = Garbled)) as [Hg|Hg].
{ destruct (copernicus_main_garbled start end_ s0 Hg) as (e & Heq).
  rewrite Heq in Hmain. simplify_eq. simpl. rewrite Hg. simpl.
  split_and!; [by intros id []%elem_of_nil|done|done]. }
destruct (generate_chunks start end_) as [cs stop] eqn:Hgen.
pose proof (generate_chunks_names _ _ _ _ Hvs Hve Hgen) as Hnd.
destruct (loop_run cs (set_globals (persisted (ledger_file s0)) s0) Hnd)
  as (r0 & s1 & evs0 & Hloop & done_ & failed & rest & Htodo & Hr & _ & Hd
      & Hb & Hl).
rewrite (copernicus_main_run _ _ _ _ _ _ _ _ Hgen Hg Hloop) in Hmain.
simplify_eq. simpl in Htodo, Hb, Hl. subst plan. simpl.
assert (∀ c, c ∈ done_ → c ∈ cs) as Hsub.
{ intros c Hc. eapply (proj1 (list_elem_of_filter _ _ _)).
  rewrite Htodo. apply elem_of_app. by left. }
assert (calls evs0 ⊆ calls (main_end stop r0 evs0).2) as Hcalls.
{ intros x Hx. unfold main_end.
  destruct r0 as [e|[]]; [|destruct stop]; simpl; rewrite ?calls_app;
    try apply elem_of_app; auto. }
split_and!; [|done|].
- intros id Hid.
  assert (id ∈ persisted (ledger_file s0) ++ (Copernicus.chunk_name <$> done_))
    as [?|(c & -> & Hc)%list_elem_of_fmap]%elem_of_app; [|by left|].
  { destruct Hl as [Hl|[_ Hl]]; rewrite Hl in Hid; simpl in Hid;
      [|by apply elem_of_nil in Hid].
    destruct done_; simpl in *; [|done].
    rewrite app_nil_r. done. }
  right. rewrite Forall_forall in Hd. destruct (Hd c Hc) as [Hkey Htc].
  exists c. split_and!; auto. by etrans.
- intros Hfin c Hc. unfold main_end in Hfin.
  destruct r0 as [e|[]]; [done|]. destruct stop; try done.
  destruct Hr as (-> & -> & Hglob). rewrite !app_nil_r in Htodo.
  destruct Hl as [Hl|[[e [=]] _]]. rewrite Hl.
  destruct (decide (Copernicus.chunk_name c ∈ persisted (ledger_file s0)))
    as [Hin|Hin].
  + destruct done_; simpl; [done|]. apply elem_of_app. by left.
  + assert (c ∈ done_) as Hcd.
    { rewrite <- Htodo. by apply list_elem_of_filter. }
    destruct done_ as [|c0 done_]; [by apply elem_of_nil in Hcd|].
    simpl. apply elem_of_app. right.
    by apply (list_elem_of_fmap_2 Copernicus.chunk_name) in Hcd.
Qed.

Lemma ledger_only_after_upload_witness :
let boom := Exn "EndpointConnectionError" "could not connect" in
let start := mk 2020 1 1 0 0 0 0 in
let end_ := mk 2020 3 1 0 0 0 0 in
let s0 := State () [Success; Success; Success; Success; Success; Success;
                    Success; Success; Success;
                    Failure boom false; Failure boom false;
                    Failure boom false] ∅ ∅ [] Missing in
let res := Copernicus.main start end_ s0 in
let plan := (generate_chunks start end_).1 in
res.1.1 = Uncaught boom
∧ ledger_file res.1.2 = Json ["20200101_20200201"]
∧ (∀ id, id ∈ persisted (ledger_file res.1.2) →
     id ∈ persisted (ledger_file s0)
     ∨ ∃ c, c ∈ plan ∧ Copernicus.chunk_name c = id
            ∧ Copernicus.s3_key c ∈ dest_bucket res.1.2
            ∧ transfer_calls c ⊆ calls res.2)
∧ dest_bucket s0 ⊆ dest_bucket res.1.2
∧ (res.1.1 = Finished →
   ∀ c, c ∈ plan → Copernicus.chunk_name c ∈ persisted (ledger_file res.1.2)).
Proof.
intros boom start end_ s0 res plan.
split; [vm_compute; reflexivity|]. split; [vm_compute; reflexivity|].
apply (ledger_only_after_upload start end_ s0 res.1.1 res.1.2 res.2).
- reflexivity.
- reflexivity.
- vm_compute. reflexivity.
Defined.

(** C1, as stated, fails when the ledger write fails: the chunk is fully
  transferred and uploaded, and its staging file removed, yet its id is
  not in the persisted ledger. *)
Lemma ledger_only_after_upload_counterexample :
let full := Exn "OSError" "No space left on device" in
let start := mk 2020 1 1 0 0 0 0 in
let end_ := mk 2020 2 1 0 0 0 0 in
let s0 := State () [Success; Success; Success; Success; Success;
                    Failure full false] ∅ ∅ [] Missing in
let res := Copernicus.main start end_ s0 in
let c := (start, end_) in
(generate_chunks start end_).1 = [c]
∧ res.1.1 = Uncaught full
∧ calls res.2
  = [(OpenDataset start end_, Success); (DsChunk, Success);
     (ToNetcdf (Copernicus.temp_file c), Success);
     (UploadFile (Copernicus.temp_file c) (Copernicus.s3_key c), Success);
     (OsRemove (Copernicus.temp_file c), Success);
     (JsonDump [Copernicus.chunk_name c], Failure full false)]
∧ dest_bucket res.1.2 = {[ Copernicus.s3_key c ]}
∧ disk res.1.2 = ∅
∧ ledger_file res.1.2 = Missing
∧ ¬ (Copernicus.chunk_name c ∈ persisted (ledger_file res.1.2)
     ↔ Copernicus.s3_key c ∈ dest_bucket res.1.2).
Proof.
intros full start end_ s0 res c.
split_and!; try (vm_compute; reflexivity).
assert (ledger_file res.1.2 = Missing) as -> by (vm_compute; reflexivity).
assert (dest_bucket res.1.2 = {[ Copernicus.s3_key c ]}) as ->
  by (vm_compute; reflexivity).
simpl. intros [_ H]. apply (elem_of_nil (Copernicus.chunk_name c)), H.
by apply elem_of_singleton.
Qed.

(** C2 (amended): a run of either script that starts from the ledger of
  an earlier run that finished (for the NOAA script: finished without an
  error line) makes no fetch or upload call: every chunk is skipped with
  its log line.  When the ledger holds N of the M chunk ids of the plan,
  the chunks a fresh run attempts are, in the planner's order, chunks
  whose id is not in the ledger: all M-N of them when the run finishes;
  the Copernicus script stops at the first chunk that fails, so in
  general it attempts a first part of them.  For the NOAA script this
  needs the file names of the listed keys to be pairwise different. *)
Theorem resume_attempts_remaining :
(∀ G0 (start end_ : datetime) (s0 : state G0) r s evs,
   valid start = true → valid end_ = true →
   Copernicus.main start end_ s0 = (r, s, evs) →
   let plan := (generate_chunks start end_).1 in
   let ledger := persisted (ledger_file s0) in
   let todo := filter (λ c, Copernicus.chunk_name c ∉ ledger) plan in
   (length todo
    + length (filter (λ c, Copernicus.chunk_name c ∈ ledger) plan)
    = length plan)%nat
   ∧ (∃ k, attempted evs = Copernicus.processing_line <$> take k todo)
   ∧ (r = Finished →
      attempted evs = (Copernicus.processing_line <$> todo)
      ∧ ∀ G1 (s2 : state G1),
          ledger_file s2 = ledger_file s →
          Copernicus.main start end_ s2
          = (Finished, set_globals (persisted (ledger_file s)) s2,
             (Print ∘ Copernicus.skipping_line <$> plan)
             ++ [Print Copernicus.banner])))
∧ (∀ G0 (s0 : state G0) s evs,
   Noaa.main s0 = (Finished, s, evs) →
   let keys := noaa_keys s0 in
   let ledger := persisted (ledger_file s0) in
   let todo := filter (λ k, Noaa.filename k ∉ ledger) keys in
   NoDup (Noaa.filename <$> keys) →
   (length todo
    + length (filter (λ k, Noaa.filename k ∈ ledger) keys)
    = length keys)%nat
   ∧ attempted evs = (Noaa.processing_line <$> todo)
   ∧ (errors evs = [] →
      ∀ G1 (s2 : state G1) s2' evs2,
        ledger_file s2 = ledger_file s →
        source_bucket s2 = source_bucket s0 →
        Noaa.main s2 = (Finished, s2', evs2) →
        evs2 = [Call (ListObjectsV2 Noaa.source_prefix) Success;
                Print (Noaa.found_line (length keys))]
               ++ (Print ∘ Noaa.skipping_line <$> keys))).
Proof.
split.
- intros G0 start end_ s0 r s evs Hvs Hve Hmain plan ledger todo.
  split; [apply (filter_length_split (λ c, Copernicus.chunk_name c ∈ ledger))|].
  destruct (decide (ledger_file s0 = Garbled)) as [Hg|Hg].
  { destruct (copernicus_main_garbled start end_ s0 Hg) as (e & Heq).
    rewrite Heq in Hmain. simplify_eq. split; [by exists 0%nat|done]. }
  destruct (copernicus_run_loop _ _ _ _ _ _ Hvs Hve Hg Hmain)
    as (cs & stop & r0 & evs0 & Hgen & Hloop & Hsum & Hr & Hevs).
  destruct Hsum as (done_ & failed & rest & Htodo & Hcase & Ha & _).
  assert (attempted evs = attempted evs0) as ->.
  { rewrite Hevs. unfold main_end.
    destruct r0 as [e|[]]; [|destruct stop]; simpl;
      rewrite ?attempted_app; simpl; by rewrite ?app_nil_r. }
  assert (todo = done_ ++ failed ++ rest) as Htodo'.
  { unfold todo, plan. by rewrite Hgen. }
  rewrite Ha. split.
  + exists (length (done_ ++ failed)).
    by rewrite Htodo', app_assoc, take_app_length.
  + intros ->. symmetry in Hr. apply main_end_finished in Hr as [-> ->].
    destruct Hcase as (-> & -> & _). rewrite Htodo'. split; [done|].
    intros G1 s2 Hs2.
    destruct (copernicus_finished_recorded _ _ _ _ _ Hvs Hve Hmain)
      as [Hng Hall].
    assert (ledger_file s2 ≠ Garbled) as Hng2 by (by rewrite Hs2).
    rewrite Hgen in Hall. simpl in Hall. unfold plan. rewrite Hgen. simpl.
    rewrite <- Hs2.
    assert (for_each Copernicus.process_chunk cs
              (set_globals (persisted (ledger_file s2)) s2)
            = (inr (), set_globals (persisted (ledger_file s2)) s2,
               Print ∘ Copernicus.skipping_line <$> cs)) as Hskip.
    { apply copernicus_all_skipped. simpl. by rewrite Hs2. }
    by rewrite (copernicus_main_run _ _ _ _ _ _ _ _ Hgen Hng2 Hskip).
- intros G0 s0 s evs Hmain keys ledger todo Hnd.
  split; [apply (filter_length_split (λ k, Noaa.filename k ∈ ledger))|].
  destruct (noaa_finished _ _ _ Hmain) as (Hg & sc & evs' & Hloop & Hsum & ->).
  destruct Hsum as (_ & _ & _ & _ & _ & _ & Hatt & Herr).
  split.
  + rewrite attempted_app, (Hatt Hnd). simpl. f_equal.
    apply filter_ext_in. intros k _. simpl. by rewrite elem_of_list_to_set.
  + rewrite errors_app. simpl. intros He.
    destruct (Herr He) as [Hall Hled].
    intros G1 s2 s2' evs2 Hs2 Hsrc Hmain2.
    destruct (noaa_finished _ _ _ Hmain2)
      as (Hg2 & sc2 & evs2' & Hloop2 & _ & ->).
    rewrite (noaa_keys_source s2 s0 Hsrc) in Hloop2 |- *.
    fold keys in Hloop2 |- *. f_equal.
    rewrite noaa_all_skipped in Hloop2; [by simplify_eq|].
    intros k Hk. simpl. rewrite Hs2.
    destruct Hled as [[Hl Hgs]|Hl]; rewrite Hl; simpl.
    * specialize (Hall k Hk). by rewrite Hgs in Hall.
    * rewrite list_to_set_elements_L. by apply Hall.
Qed.

Lemma resume_attempts_remaining_witness :
let start := mk 2020 1 1 0 0 0 0 in
let feb := mk 2020 2 1 0 0 0 0 in
let end_ := mk 2020 3 1 0 0 0 0 in
let s0 := State () [] ∅ ∅ [] (Json ["20200101_20200201"]) in
let res := Copernicus.main start end_ s0 in
let n0 := State () [] ∅ ∅
            ["GEFSv12/reforecast/2019/a/b/c/hs_1.grib2";
             "GEFSv12/reforecast/2019/a/b/c/hs_2.grib2"]
            (Json ["hs_1.grib2"]) in
let nres := Noaa.main n0 in
(attempted res.2 = [Copernicus.processing_line (feb, end_)]
 ∧ ∀ G1 (s2 : state G1),
     ledger_file s2 = ledger_file res.1.2 →
     Copernicus.main start end_ s2
     = (Finished, set_globals (persisted (ledger_file res.1.2)) s2,
        (Print ∘ Copernicus.skipping_line <$> [(start, feb); (feb, end_)])
        ++ [Print Copernicus.banner]))
∧ attempted nres.2
  = [Noaa.processing_line "GEFSv12/reforecast/2019/a/b/c/hs_2.grib2"].
Proof.
intros start feb end_ s0 res n0 nres.
destruct resume_attempts_remaining as [Hcop Hnoaa].
split.
- destruct (Hcop unit start end_ s0 res.1.1 res.1.2 res.2)
    as (_ & _ & Hfin); [reflexivity|reflexivity|vm_compute; reflexivity|].
  destruct Hfin as [Hatt Hskip]; [vm_compute; reflexivity|].
  split; [exact Hatt|exact Hskip].
- destruct (Hnoaa unit n0 nres.1.2 nres.2) as (_ & Hatt & _);
    [vm_compute; reflexivity| |exact Hatt].
  apply (bool_decide_unpack _). vm_compute. reflexivity.
Defined.

(** C2, as stated, fails on the Copernicus script when a chunk fails: with
  an empty ledger and a plan of two chunks, a run whose first fetch
  fails three times attempts one chunk, not the two that remain. *)
Lemma resume_attempts_remaining_counterexample :
let boom := Exn "ConnectionError" "timed out" in
let start := mk 2020 1 1 0 0 0 0 in
let feb := mk 2020 2 1 0 0 0 0 in
let end_ := mk 2020 3 1 0 0 0 0 in
let s0 := State () [Failure boom false; Failure boom false;
                    Failure boom false] ∅ ∅ [] Missing in
let res := Copernicus.main start end_ s0 in
let plan := (generate_chunks start end_).1 in
let todo :=
  filter (λ c, Copernicus.chunk_name c ∉ persisted (ledger_file s0)) plan in
todo = [(start, feb); (feb, end_)]
∧ res.1.1 = Uncaught boom
∧ attempted res.2 = [Copernicus.processing_line (start, feb)]
∧ attempted res.2 ≠ (Copernicus.processing_line <$> todo).
Proof.
intros boom start feb end_ s0 res plan todo.
assert (todo = [(start, feb); (feb, end_)]) as Htodo
  by (vm_compute; reflexivity).
assert (attempted res.2 = [Copernicus.processing_line (start, feb)]) as Hatt
  by (vm_compute; reflexivity).
split; [exact Htodo|]. split; [vm_compute; reflexivity|].
split; [exact Hatt|]. rewrite Hatt, Htodo. discriminate.
Qed.

(** C5 (amended): when a step of a chunk fails for good (retries used
    up, or an error outside a retried call) before the ledger write, no
    ledger commit is made for that chunk in either script.  The NOAA script
    prints the error with the file name and goes on with the next key.
    The Copernicus script has printed the chunk's start and end, prints
    each failed attempt, and then stops: the exception leaves the loop, no
    later chunk is attempted and the run ends with the traceback. *)
Theorem chunk_failure_policy :
  (∀ key rest (s : Noaa.St) e s1 evs1,
     Noaa.filename key ∉ globals s →
     Noaa.try_block key s = (inl e, s1, evs1) →
     dumps evs1 = [] →
     globals s1 = globals s ∧ ledger_file s1 = ledger_file s
     ∧ ∃ s' evs',
         for_each Noaa.process_file rest s1 = (inr (), s', evs')
         ∧ for_each Noaa.process_file (key :: rest) s
           = (inr (), s', evs1 ++ [Print (Noaa.error_line key e)] ++ evs'))
  ∧ (∀ c rest (s : Copernicus.St) e s1 evs1,
     Copernicus.chunk_name c ∉ globals s →
     Copernicus.transfer c s = (inl e, s1, evs1) →
     for_each Copernicus.process_chunk (c :: rest) s = (inl e, s1, evs1)
     ∧ attempted evs1 = [Copernicus.processing_line c]
     ∧ (dumps evs1 = [] →
        globals s1 = globals s ∧ ledger_file s1 = ledger_file s))
  ∧ (∀ G0 start end_ (s0 : state G0) cs stop e s evs0,
     generate_chunks start end_ = (cs, stop) →
     ledger_file s0 ≠ Garbled →
     for_each Copernicus.process_chunk cs
       (set_globals (persisted (ledger_file s0)) s0) = (inl e, s, evs0) →
     Copernicus.main start end_ s0 = (Uncaught e, s, evs0 ++ [Traceback e])).
Proof.
  split_and!.
  - intros key rest s e s1 evs1 Hin Hrun Hd.
    pose proof (runs_det _ _ _ _ _ _ (try_block_run key s) Hrun)
      as (_ & _ & _ & Hcase).
    assert (globals s1 = globals s ∧ ledger_file s1 = ledger_file s) as Hsame.
    { destruct Hcase as [(_ & _ & ? & ? & _)|(c' & p & Hl & Hc')]; [done|].
      destruct c'; try done; try (by destruct Hc' as (? & ? & _)).
      by destruct (last_in_dumps _ _ _ Hl eq_refl). }
    split; [apply Hsame|]. split; [apply Hsame|].
    by apply noaa_loop_continues.
  - intros c rest s e s1 evs1 Hin Hrun.
    pose proof (runs_det _ _ _ _ _ _ (transfer_run c s) Hrun)
      as (Ha & _ & c' & p & Hl & Hc').
    split; [by apply copernicus_loop_aborts|]. split; [done|].
    intros Hd. destruct c'; try done; try (by destruct Hc' as (? & ? & _)).
    by destruct (last_in_dumps _ _ _ Hl eq_refl).
  - intros. by eapply copernicus_uncaught.
Qed.

Lemma chunk_failure_policy_witness :
  let boom := Exn "ValueError" "no variable named time" in
  let key := "GEFSv12/reforecast/2019/a/b/c/hs_1.grib2" in
  let key2 := "GEFSv12/reforecast/2019/a/b/c/hs_2.grib2" in
  let n := State (∅ : gset string) [Success; Failure boom false] ∅ ∅ [] Missing in
  let tried := Noaa.try_block key n in
  let start := mk 2020 1 1 0 0 0 0 in
  let feb := mk 2020 2 1 0 0 0 0 in
  let end_ := mk 2020 3 1 0 0 0 0 in
  let s := State ([] : list string) [Success; Failure boom false] ∅ ∅ [] Missing in
  let moved := Copernicus.transfer (start, feb) s in
  let s0 := State () [Success; Failure boom false] ∅ ∅ [] Missing in
  (globals tried.1.2 = globals n ∧ ledger_file tried.1.2 = ledger_file n
   ∧ ∃ s' evs',
       for_each Noaa.process_file [key2] tried.1.2 = (inr (), s', evs')
       ∧ for_each Noaa.process_file [key; key2] n
         = (inr (), s', tried.2 ++ [Print (Noaa.error_line key boom)] ++ evs'))
  ∧ (for_each Copernicus.process_chunk [(start, feb); (feb, end_)] s
     = (inl boom, moved.1.2, moved.2)
     ∧ attempted moved.2 = [Copernicus.processing_line (start, feb)]
     ∧ (dumps moved.2 = [] →
        globals moved.1.2 = globals s ∧ ledger_file moved.1.2 = ledger_file s))
  ∧ Copernicus.main start end_ s0
    = (Uncaught boom, set_globals [] (set_script [] s0),
       moved.2 ++ [Traceback boom]).
Proof.
  intros boom key key2 n tried start feb end_ s moved s0.
  destruct chunk_failure_policy as (Hnoaa & Hcop & Hmain).
  split; [|split].
  - apply (Hnoaa key [key2] n boom tried.1.2 tried.2).
    + apply not_elem_of_empty.
    + vm_compute. reflexivity.
    + vm_compute. reflexivity.
  - apply (Hcop (start, feb) [(feb, end_)] s boom moved.1.2 moved.2).
    + apply not_elem_of_nil.
    + vm_compute. reflexivity.
  - apply (Hmain unit start end_ s0 [(start, feb); (feb, end_)] GenDone).
    + vm_compute. reflexivity.
    + discriminate.
    + vm_compute. reflexivity.
Defined.

(** C5, as stated, fails on the Copernicus script: when re-chunking the
    first chunk's dataset raises, the run ends there with the exception;
    the second chunk of the plan is never attempted. *)
Lemma chunk_failure_policy_counterexample :
  let boom := Exn "ValueError" "no variable named time" in
  let start := mk 2020 1 1 0 0 0 0 in
  let feb := mk 2020 2 1 0 0 0 0 in
  let end_ := mk 2020 3 1 0 0 0 0 in
  let s0 := State () [Success; Failure boom false] ∅ ∅ [] Missing in
  let res := Copernicus.main start end_ s0 in
  (generate_chunks start end_).1 = [(start, feb); (feb, end_)]
  ∧ res.1.1 = Uncaught boom
  ∧ calls res.2 = [(OpenDataset start feb, Success); (DsChunk, Failure boom false)]
  ∧ attempted res.2 = [Copernicus.processing_line (start, feb)]
  ∧ ¬ (∃ o, (OpenDataset feb end_, o) ∈ calls res.2).
Proof.
  intros boom start feb end_ s0 res.
  assert (calls res.2 = [(OpenDataset start feb, Success);
                         (DsChunk, Failure boom false)]) as Hcalls
    by (vm_compute; reflexivity).
  split; [vm_compute; reflexivity|]. split; [vm_compute; reflexivity|].
  split; [exact Hcalls|]. split; [vm_compute; reflexivity|].
  rewrite Hcalls. intros [o Ho].
  apply elem_of_cons in Ho as [[=]|Ho].
  apply elem_of_cons in Ho as [[=]|Ho]. by apply elem_of_nil in Ho.
Qed.

(** C6 (amended): when the upload of a chunk fails for good (in the
    Copernicus script after its three attempts, in the NOAA script at its
    one attempt), the staging file that was written for the chunk is still
    on the local disk afterwards, since both scripts delete it only after
    a successful upload; the ledger, in memory and on disk, is as it was,
    so it does not contain the chunk's id. *)
Theorem staging_file_after_failed_upload :
  (∀ c (s : Copernicus.St) e s1 evs1 p,
     Copernicus.transfer c s = (inl e, s1, evs1) →
     last (calls evs1)
     = Some (UploadFile (Copernicus.temp_file c) (Copernicus.s3_key c),
             Failure e p) →
     Copernicus.temp_file c ∈ disk s1
     ∧ length (filter (λ co, co.1 = UploadFile (Copernicus.temp_file c)
                                      (Copernicus.s3_key c)) (calls evs1))
       = 3%nat
     ∧ globals s1 = globals s ∧ ledger_file s1 = ledger_file s
     ∧ (Copernicus.chunk_name c ∉ globals s →
        Copernicus.chunk_name c ∉ globals s1))
  ∧ (∀ key (s : Noaa.St) e s1 evs1 k p,
     Noaa.try_block key s = (inl e, s1, evs1) →
     last (calls evs1)
     = Some (UploadFile (Noaa.local_nc_path key) k, Failure e p) →
     Noaa.local_nc_path key ∈ disk s1
     ∧ globals s1 = globals s ∧ ledger_file s1 = ledger_file s
     ∧ (Noaa.filename key ∉ globals s → Noaa.filename key ∉ globals s1)).
Proof.
  split.
  - intros c s e s1 evs1 p Hrun Hlast.
    pose proof (runs_det _ _ _ _ _ _ (transfer_run c s) Hrun)
      as (_ & _ & c' & p' & Hl & Hc').
    rewrite Hlast in Hl. injection Hl as <- <-.
    destruct Hc' as (Hg & Hlf & _ & Hd & Hn).
    split_and!; try done.
    + rewrite Hd. apply elem_of_union_l. by apply elem_of_singleton.
    + by rewrite Hg.
  - intros key s e s1 evs1 k p Hrun Hlast.
    pose proof (runs_det _ _ _ _ _ _ (try_block_run key s) Hrun)
      as (_ & _ & _ & [(_ & Hl & _)|(c' & p' & Hl & Hc')]).
    { rewrite Hlast in Hl. discriminate. }
    rewrite Hlast in Hl. injection Hl as <- <-.
    destruct Hc' as (Hg & Hlf & _ & Hd).
    split_and!; try done.
    + rewrite Hd. apply elem_of_union_l. by apply elem_of_singleton.
    + by rewrite Hg.
Qed.

Lemma staging_file_after_failed_upload_witness :
  let boom := Exn "S3UploadFailedError" "SlowDown" in
  let start := mk 2020 1 1 0 0 0 0 in
  let feb := mk 2020 2 1 0 0 0 0 in
  let s := State ([] : list string)
             [Success; Success; Success; Failure boom false;
              Failure boom false; Failure boom false] ∅ ∅ [] Missing in
  let moved := Copernicus.transfer (start, feb) s in
  let key := "GEFSv12/reforecast/2019/a/b/c/hs_1.grib2" in
  let n := State (∅ : gset string)
             [Success; Success; Success; Success; Success;
              Failure boom false] ∅ ∅ [] Missing in
  let tried := Noaa.try_block key n in
  ("./temp_downloads/20200101_20200201.nc" ∈ disk moved.1.2
   ∧ globals moved.1.2 = [] ∧ ledger_file moved.1.2 = Missing)
  ∧ ("/tmp/hs_1.nc" ∈ disk tried.1.2
     ∧ globals tried.1.2 = ∅ ∧ ledger_file tried.1.2 = Missing).
Proof.
  intros boom start feb s moved key n tried.
  destruct staging_file_after_failed_upload as [Hcop Hnoaa].
  split.
  - destruct (Hcop (start, feb) s boom moved.1.2 moved.2 false)
      as (Hd & _ & Hg & Hl & _);
      [vm_compute; reflexivity|vm_compute; reflexivity|].
    split; [exact Hd|]. split; [exact Hg|exact Hl].
  - destruct (Hnoaa key n boom tried.1.2 tried.2 "noaa-data/2019/b/hs_1.nc"
                false) as (Hd & Hg & Hl & _);
      [vm_compute; reflexivity|vm_compute; reflexivity|].
    split; [exact Hd|]. split; [exact Hg|exact Hl].
Defined.

(** C6, as stated, fails on both scripts: after an upload that failed at
    every attempt, the staging file of the chunk is still on disk. *)
Lemma staging_file_after_failed_upload_counterexample :
  let boom := Exn "S3UploadFailedError" "SlowDown" in
  let start := mk 2020 1 1 0 0 0 0 in
  let end_ := mk 2020 2 1 0 0 0 0 in
  let s0 := State () [Success; Success; Success; Failure boom false;
                      Failure boom false; Failure boom false] ∅ ∅ [] Missing in
  let res := Copernicus.main start end_ s0 in
  res.1.1 = Uncaught boom
  ∧ calls res.2
    = [(OpenDataset start end_, Success); (DsChunk, Success);
       (ToNetcdf "./temp_downloads/20200101_20200201.nc", Success);
       (UploadFile "./temp_downloads/20200101_20200201.nc"
          "2020/20200101_20200201.nc", Failure boom false);
       (UploadFile "./temp_downloads/20200101_20200201.nc"
          "2020/20200101_20200201.nc", Failure boom false);
       (UploadFile "./temp_downloads/20200101_20200201.nc"
          "2020/20200101_20200201.nc", Failure boom false)]
  ∧ disk res.1.2 = {[ "./temp_downloads/20200101_20200201.nc" ]}
  ∧ disk res.1.2 ≠ ∅.
Proof.
  intros boom start end_ s0 res.
  assert (disk res.1.2 = {[ "./temp_downloads/20200101_20200201.nc" ]}) as Hd
    by (vm_compute; reflexivity).
  split; [vm_compute; reflexivity|]. split; [vm_compute; reflexivity|].
  split; [exact Hd|]. rewrite Hd. intros Heq.
  apply (not_elem_of_empty (C := gset string)
           "./temp_downloads/20200101_20200201.nc").
  rewrite <- Heq. by apply elem_of_singleton.
Qed.

(** C7 (amended): a failure while the ledger is written is never retried
    (the chunk's events hold one write) and leaves the ledger file as it
    was, or truncated, without the chunk's id.  In the Copernicus script
    it is fatal for the run: the exception leaves the loop and the run
    ends with the traceback.  In the NOAA script the write is inside the
    [try] block: the error is printed, the run goes on with the next key,
    and the file name stays in the in-memory set. *)
Theorem ledger_write_failure :
  (∀ c rest (s : Copernicus.St) e s1 evs1 ids p,
     Copernicus.chunk_name c ∉ globals s →
     Copernicus.transfer c s = (inl e, s1, evs1) →
     last (calls evs1) = Some (JsonDump ids, Failure e p) →
     for_each Copernicus.process_chunk (c :: rest) s = (inl e, s1, evs1)
     ∧ (ledger_file s1 = ledger_file s ∨ ledger_file s1 = Garbled)
     ∧ (Copernicus.chunk_name c ∉ persisted (ledger_file s) →
        Copernicus.chunk_name c ∉ persisted (ledger_file s1))
     ∧ length (dumps evs1) = 1%nat)
  ∧ (∀ G0 start end_ (s0 : state G0) cs stop e s evs0,
     generate_chunks start end_ = (cs, stop) →
     ledger_file s0 ≠ Garbled →
     for_each Copernicus.process_chunk cs
       (set_globals (persisted (ledger_file s0)) s0) = (inl e, s, evs0) →
     Copernicus.main start end_ s0 = (Uncaught e, s, evs0 ++ [Traceback e]))
  ∧ (∀ key rest (s : Noaa.St) e s1 evs1 ids p,
     Noaa.filename key ∉ globals s →
     Noaa.try_block key s = (inl e, s1, evs1) →
     last (calls evs1) = Some (JsonDump ids, Failure e p) →
     Noaa.filename key ∈ globals s1
     ∧ (ledger_file s1 = ledger_file s ∨ ledger_file s1 = Garbled)
     ∧ length (dumps evs1) = 1%nat
     ∧ ∃ s' evs',
         for_each Noaa.process_file rest s1 = (inr (), s', evs')
         ∧ for_each Noaa.process_file (key :: rest) s
           = (inr (), s', evs1 ++ [Print (Noaa.error_line key e)] ++ evs')).
Proof.
  split_and!.
  - intros c rest s e s1 evs1 ids p Hin Hrun Hlast.
    pose proof (runs_det _ _ _ _ _ _ (transfer_run c s) Hrun)
      as (_ & _ & c' & p' & Hl & Hc').
    rewrite Hlast in Hl. injection Hl as <- <-.
    destruct Hc' as (_ & Hlf & _ & _ & Hn).
    split; [by apply copernicus_loop_aborts|]. split; [done|]. split; [|done].
    destruct Hlf as [->| ->]; [done|]. intros _. apply not_elem_of_nil.
  - intros. by eapply copernicus_uncaught.
  - intros key rest s e s1 evs1 ids p Hin Hrun Hlast.
    pose proof (runs_det _ _ _ _ _ _ (try_block_run key s) Hrun)
      as (_ & _ & _ & [(_ & Hl & _)|(c' & p' & Hl & Hc')]).
    { rewrite Hlast in Hl. discriminate. }
    rewrite Hlast in Hl. injection Hl as <- <-.
    destruct Hc' as (Hg & Hlf & _ & _ & Hn).
    split_and!; try done.
    + rewrite Hg. apply elem_of_union_l. by apply elem_of_singleton.
    + by apply noaa_loop_continues.
Qed.

Lemma ledger_write_failure_witness :
  let full := Exn "OSError" "No space left on device" in
  let start := mk 2020 1 1 0 0 0 0 in
  let feb := mk 2020 2 1 0 0 0 0 in
  let end_ := mk 2020 3 1 0 0 0 0 in
  let s := State ([] : list string)
             [Success; Success; Success; Success; Success;
              Failure full true] ∅ ∅ [] (Json []) in
  let moved := Copernicus.transfer (start, feb) s in
  let s0 := State () [Success; Success; Success; Success; Success;
                      Failure full true] ∅ ∅ [] (Json []) in
  let key := "GEFSv12/reforecast/2019/a/b/c/hs_1.grib2" in
  let key2 := "GEFSv12/reforecast/2019/a/b/c/hs_2.grib2" in
  let n := State (∅ : gset string)
             [Success; Success; Success; Success; Success; Success; Success;
              Failure full false] ∅ ∅ [] Missing in
  let tried := Noaa.try_block key n in
  (for_each Copernicus.process_chunk [(start, feb); (feb, end_)] s
   = (inl full, moved.1.2, moved.2)
   ∧ ledger_file moved.1.2 = Garbled
   ∧ length (dumps moved.2) = 1%nat)
  ∧ Copernicus.main start end_ s0
    = (Uncaught full,
       set_globals ["20200101_20200201"] moved.1.2,
       moved.2 ++ [Traceback full])
  ∧ ("hs_1.grib2" ∈ globals tried.1.2
     ∧ ledger_file tried.1.2 = Missing
     ∧ ∃ s' evs',
         for_each Noaa.process_file [key2] tried.1.2 = (inr (), s', evs')
         ∧ for_each Noaa.process_file [key; key2] n
           = (inr (), s', tried.2 ++ [Print (Noaa.error_line key full)]
                          ++ evs')).
Proof.
  intros full start feb end_ s moved s0 key key2 n tried.
  destruct ledger_write_failure as (Hcop & Hmain & Hnoaa).
  split; [|split].
  - destruct (Hcop (start, feb) [(feb, end_)] s full moved.1.2 moved.2
                ["20200101_20200201"] true) as (Hloop & _ & _ & Hn).
    + apply not_elem_of_nil.
    + vm_compute. reflexivity.
    + vm_compute. reflexivity.
    + split; [exact Hloop|]. split; [vm_compute; reflexivity|exact Hn].
  - apply (Hmain unit start end_ s0 [(start, feb); (feb, end_)] GenDone).
    + vm_compute. reflexivity.
    + discriminate.
    + vm_compute. reflexivity.
  - destruct (Hnoaa key [key2] n full tried.1.2 tried.2 ["hs_1.grib2"] false)
      as (Hin & _ & _ & Hgo).
    + apply not_elem_of_empty.
    + vm_compute. reflexivity.
    + vm_compute. reflexivity.
    + split; [exact Hin|]. split; [vm_compute; reflexivity|exact Hgo].
Defined.

(** C7, as stated, fails on the NOAA script: the checkpoint write of the
    first file fails, the run prints the error and goes on to fetch and
    commit the second file, and ends normally with no traceback; the
    later write also records the first file. *)
Lemma ledger_write_failure_counterexample :
  let full := Exn "OSError" "No space left on device" in
  let key := "GEFSv12/reforecast/2019/a/b/c/hs_1.grib2" in
  let key2 := "GEFSv12/reforecast/2019/a/b/c/hs_2.grib2" in
  let s0 := State () [Success; Success; Success; Success; Success; Success;
                      Success; Success; Failure full false] ∅ ∅
              [key; key2] Missing in
  let res := Noaa.main s0 in
  res.1.1 = Finished
  ∧ errors res.2 = ["Error processing hs_1.grib2: No space left on device"]
  ∧ (GetObject key2, Success) ∈ calls res.2
  ∧ ¬ (Traceback full ∈ res.2)
  ∧ length (dumps res.2) = 2%nat
  ∧ globals res.1.2 = {[ "hs_1.grib2"; "hs_2.grib2" ]}.
Proof.
  intros full key key2 s0 res.
  split; [vm_compute; reflexivity|]. split; [vm_compute; reflexivity|].
  split; [apply (bool_decide_unpack _); vm_compute; reflexivity|].
  split; [apply (bool_decide_unpack _); vm_compute; reflexivity|].
  split; vm_compute; reflexivity.
Qed.

(** C10: the NOAA script lists the source prefix with one
    [list_objects_v2] call and reads one page of the answer, so its plan
    is made of keys among the first 1000 that match the prefix; every key
    a run fetches is one of those (and ends in [.grib2]), and a matching
    key that the listing would return after the first 1000 is never
    fetched in the run. *)
Theorem listing_first_page_only :
  (∀ s : Noaa.St, ∃ o sc,
     Noaa.plan s
     = (match o with Success => inr (noaa_keys s) | Failure e _ => inl e end,
        set_script sc s, [Call (ListObjectsV2 Noaa.source_prefix) o]))
  ∧ (∀ G (s : state G),
       (length (Noaa.first_page Noaa.source_prefix (source_bucket s)) ≤ 1000)%nat
       ∧ (length (noaa_keys s) ≤ 1000)%nat)
  ∧ (∀ G0 (s0 : state G0) r s evs,
       Noaa.main s0 = (r, s, evs) →
       let matching :=
         filter (λ k, Py.startswith k Noaa.source_prefix = true)
           (source_bucket s0) in
       (∀ k o, (GetObject k, o) ∈ calls evs →
               k ∈ take 1000 matching ∧ Py.endswith k ".grib2" = true)
       ∧ (NoDup (source_bucket s0) →
          ∀ i k, matching !! i = Some k → (1000 ≤ i)%nat →
                 ∀ o, (GetObject k, o) ∉ calls evs)).
Proof.
  split; [apply noaa_plan_run|]. split.
  - intros G s. unfold noaa_keys, Noaa.grib_files, Noaa.first_page, Noaa.page_size.
    assert (length (take 1000
              (filter (λ k, Py.startswith k Noaa.source_prefix = true)
                 (source_bucket s))) ≤ 1000)%nat as Hpage
      by (rewrite length_take; lia).
    split; [done|]. etrans; [apply length_filter|done].
  - intros G0 s0 r s evs Hmain matching.
    assert (∀ k o, (GetObject k, o) ∈ calls evs →
              k ∈ take 1000 matching ∧ Py.endswith k ".grib2" = true) as Hget.
    { intros k o Hk. pose proof (noaa_fetches_planned _ _ _ _ _ _ Hmain Hk) as Hin.
      unfold noaa_keys, Noaa.grib_files in Hin.
      apply list_elem_of_filter in Hin as [? ?]. done. }
    split; [done|].
    intros Hnd i k Hi Hge o Hk.
    destruct (Hget k o Hk) as [Hin _].
    apply list_elem_of_lookup in Hin as [j Hj].
    assert (j < 1000)%nat as Hlt.
    { apply lookup_lt_Some in Hj. rewrite length_take in Hj. lia. }
    rewrite lookup_take_lt in Hj by done.
    assert (NoDup matching) as Hndm by (by apply NoDup_filter).
    pose proof (NoDup_lookup _ _ _ _ Hndm Hi Hj). lia.
Qed.

Lemma listing_first_page_only_witness :
  let key (i : nat) : string :=
    "GEFSv12/reforecast/2019/hs_" +:+ pretty i +:+ ".grib2" in
  let s0 := State () [] ∅ ∅ (key <$> seq 0 1001) Missing in
  let res := Noaa.main s0 in
  length (source_bucket s0) = 1001%nat
  ∧ length (noaa_keys s0) = 1000%nat
  ∧ res.1.1 = Finished
  ∧ ∀ o, (GetObject (key 1000%nat), o) ∉ calls res.2.
Proof.
  intros key s0 res.
  split; [vm_compute; reflexivity|]. split; [vm_compute; reflexivity|].
  split; [vm_compute; reflexivity|].
  destruct listing_first_page_only as (_ & _ & Hmain).
  destruct (Hmain unit s0 res.1.1 res.1.2 res.2) as [_ Hbeyond].
  { vm_compute. reflexivity. }
  assert (NoDup (source_bucket s0)) as Hnd.
  { apply NoDup_fmap_2; [|apply NoDup_seq].
    intros i j H. unfold key in H. simpl in H. simplify_eq.
    by apply string_app_inj_r, (inj pretty) in H. }
  apply (Hbeyond Hnd 1000%nat (key 1000%nat)).
  - vm_compute. reflexivity.
  - lia.
Defined.

End Claims.

(** * Further properties of the two scripts *)

(** ** The planner: shape of a plan *)

Section PlanShape.
Import DateTime.

(** Every chunk but the first starts where a planner step ended. *)
Lemma generate_chunks_loop_clamped fuel : ∀ cur end_ cs stop i c,
  generate_chunks_loop fuel cur end_ = (cs, stop) →
  cs !! S i = Some c →
  day c.1 = Z.min (day cur) 28 ∧ hour c.1 = hour cur
  ∧ minute c.1 = 0 ∧ second c.1 = 0 ∧ microsecond c.1 = 0.
Proof.
induction fuel as [|fuel IH]; intros cur end_ cs stop i c; simpl.
{ by intros [= <- <-]. }
destruct (ltb cur end_) eqn:Hlt; [|by intros [= <- <-]].
destruct (next_month cur) as [e|n] eqn:Hn; [by intros [= <- <-]|].
destruct (next_month_inr _ _ Hn) as [Hform _].
destruct (ltb end_ n) eqn:Hcut.
- assert (∃ stop', generate_chunks_loop fuel end_ end_ = ([], stop'))
    as [stop' ->].
  { destruct fuel; simpl; [by eexists|]. rewrite ltb_irrefl. by eexists. }
  by intros [= <- <-].
- destruct (generate_chunks_loop fuel n end_) as [rest stop'] eqn:Hrest.
  intros [= <- <-] Hc. simpl in Hc.
  destruct i as [|i].
  + destruct fuel as [|fuel]; simpl in Hrest; [by simplify_eq|].
    destruct (ltb n end_); [|by simplify_eq].
    destruct (next_month n) as [e|n']; [by simplify_eq|].
    destruct (generate_chunks_loop fuel _ end_) as [rest' stop''].
    simplify_eq. simpl in Hc. by simplify_eq.
  + destruct (IH _ _ _ _ _ _ Hrest Hc) as (Hd & Hh & Hrest').
    rewrite Hd, Hh, Hform. simpl. split_and!; try apply Hrest'; lia.
Qed.

(** The number of chunks of a range, by induction on the planner's loop. *)
Lemma generate_chunks_loop_count fuel : ∀ cur end_,
  valid cur = true → valid end_ = true → leb end_ last_end = true →
  leb cur end_ = true →
  (Z.to_nat (month_index end_ - month_index cur + 1) < fuel)%nat →
  ∃ cs stop, generate_chunks_loop fuel cur end_ = (cs, stop)
    ∧ (cur = end_ → cs = [])
    ∧ (ltb cur end_ = true →
       month_index end_ - month_index cur ≤ Z.of_nat (length cs)
       ≤ month_index end_ - month_index cur + 1
       ∧ 1 ≤ Z.of_nat (length cs)).
Proof.
induction fuel as [|fuel IH]; intros cur end_ Hvc Hve Hlast Hle Hfuel; [lia|].
simpl. destruct (ltb cur end_) eqn:Hlt.
- pose proof (before_last_end _ _ Hvc Hlast Hlt) as Hmi.
  destruct (next_month_ok _ Hvc Hmi) as (n & Hn & Hnform & Hvn & Hmin & Hcn).
  pose proof (ltb_month_index _ _ Hvc Hve Hlt) as Hmono.
  rewrite Hn. destruct (ltb end_ n) eqn:Hcut.
  + pose proof (ltb_month_index _ _ Hve Hvn Hcut) as Hen.
    destruct fuel as [|fuel]; [lia|]. simpl. rewrite ltb_irrefl.
    eexists _, _. split; [done|]. split.
    * intros ->. by rewrite ltb_irrefl in Hlt.
    * intros _. simpl. lia.
  + pose proof (ltb_false_leb _ _ Hcut) as Hnle.
    assert (month_index n ≤ month_index end_) as Hnmi.
    { apply leb_cases in Hnle as [->|?]; [lia|]. by apply ltb_month_index. }
    destruct (IH n end_) as (cs & stop & -> & Hnil & Hlen); try done; [lia|].
    eexists _, _. split; [done|]. split.
    * intros ->. by rewrite ltb_irrefl in Hlt.
    * intros _. simpl.
      apply leb_cases in Hnle as [->|Hnlt].
      -- rewrite (Hnil eq_refl). simpl. lia.
      -- destruct (Hlen Hnlt). lia.
- eexists _, _. split; [done|]. split; [done|]. intros [=].
Qed.

End PlanShape.

Section PlanNames.
Import DateTime Copernicus.

Lemma zfill_length w : ∀ n, String.length (zfill w n) = w.
Proof.
induction w as [|w IH]; intros n; [done|].
simpl. rewrite string_app_length, IH. simpl. lia.
Qed.

Lemma chunk_name_length c : String.length (chunk_name c) = 17%nat.
Proof.
unfold chunk_name, strftime_Ymd.
by rewrite !string_app_length, !zfill_length.
Qed.

(** Two concatenations with equally long tails agree part by part. *)
Lemma string_app_inj_len s1 : ∀ s2 t1 t2,
  s1 +:+ t1 = s2 +:+ t2 → String.length t1 = String.length t2 →
  s1 = s2 ∧ t1 = t2.
Proof.
induction s1 as [|a s1 IH]; intros [|b s2] t1 t2 Heq Hlen.
- done.
- change (t1 = String b (s2 +:+ t2)) in Heq. subst t1.
  change (S (String.length (s2 +:+ t2)) = String.length t2) in Hlen.
  rewrite string_app_length in Hlen. lia.
- change (String a (s1 +:+ t1) = t2) in Heq. subst t2.
  change (String.length t1 = S (String.length (s1 +:+ t1))) in Hlen.
  rewrite string_app_length in Hlen. lia.
- injection Heq as -> Heq. by destruct (IH _ _ _ Heq Hlen) as [-> ->].
Qed.

Lemma s3_key_name c c' : s3_key c = s3_key c' → chunk_name c = chunk_name c'.
Proof.
unfold s3_key. intros Heq.
apply string_app_inj_len in Heq as [_ Heq].
- apply string_app_inj_len in Heq as [_ Heq];
    [|by rewrite !string_app_length, !chunk_name_length].
  by apply string_app_inj_r in Heq.
- by rewrite !string_app_length, !chunk_name_length.
Qed.

Lemma temp_file_name c c' :
  temp_file c = temp_file c' → chunk_name c = chunk_name c'.
Proof.
unfold temp_file. intros Heq.
apply string_app_inj_len in Heq as [_ Heq].
- apply string_app_inj_len in Heq as [_ Heq];
    [|by rewrite !string_app_length, !chunk_name_length].
  by apply string_app_inj_r in Heq.
- by rewrite !string_app_length, !chunk_name_length.
Qed.

Lemma NoDup_fmap_through {A B C} (f : A → B) (g : A → C) (l : list A) :
  (∀ x y, g x = g y → f x = f y) → NoDup (f <$> l) → NoDup (g <$> l).
Proof.
intros Hfg. induction l as [|x l IH]; simpl; [constructor|].
rewrite !NoDup_cons. intros [Hx Hl]. split; [|by apply IH].
rewrite list_elem_of_fmap. intros (y & Heq & Hy).
apply Hx. rewrite list_elem_of_fmap. exists y. split; [|done].
by apply Hfg.
Qed.

End PlanNames.

Section PlanTheorems.
Import DateTime Copernicus.

(** X1 [generate_chunks]: from the second chunk on, every chunk starts
    on the day of the range's start capped at 28, at the hour of the
    range's start and at minute, second and microsecond 0: the cap is
    never undone in later months and the minutes of the start are not
    carried over. *)
Theorem chunk_starts_clamped (start end_ : datetime) (i : nat) (c : chunk) :
  (generate_chunks start end_).1 !! S i = Some c →
  day c.1 = Z.min (day start) 28 ∧ hour c.1 = hour start
  ∧ minute c.1 = 0 ∧ second c.1 = 0 ∧ microsecond c.1 = 0.
Proof.
unfold generate_chunks.
destruct (generate_chunks_loop _ start end_) as [cs stop] eqn:Hgen.
by apply generate_chunks_loop_clamped with (end_ := end_) (stop := stop)
                                          (fuel := chunk_fuel start end_).
Qed.

Lemma chunk_starts_clamped_witness :
  let c := (mk 2020 2 28 6 0 0 0, mk 2020 3 10 0 0 0 0) in
  day c.1 = Z.min 31 28 ∧ hour c.1 = 6
  ∧ minute c.1 = 0 ∧ second c.1 = 0 ∧ microsecond c.1 = 0.
Proof.
exact (chunk_starts_clamped (mk 2019 12 31 6 30 15 0) (mk 2020 3 10 0 0 0 0)
         1 (mk 2020 2 28 6 0 0 0, mk 2020 3 10 0 0 0 0) eq_refl).
Defined.

(** X2 [generate_chunks]: a valid range that ends by [last_end] is cut
    into as many chunks as there are calendar months from its start to
    its end, or one more; never into none. *)
Theorem chunk_count (start end_ : datetime) :
  valid start = true → valid end_ = true →
  lt start end_ → le end_ last_end →
  let cs := (generate_chunks start end_).1 in
  month_index end_ - month_index start ≤ Z.of_nat (length cs)
  ≤ month_index end_ - month_index start + 1
  ∧ 1 ≤ Z.of_nat (length cs).
Proof.
intros Hvs Hve Hlt Hlast. unfold generate_chunks, chunk_fuel.
destruct (generate_chunks_loop_count
            (S (Z.to_nat (month_index end_ - month_index start + 1)))
            start end_) as (cs & stop & -> & _ & Hlen);
  try done; [by apply ltb_leb|lia|].
by apply Hlen.
Qed.

Lemma chunk_count_witness :
  let cs := (generate_chunks start_date end_date).1 in
  519 ≤ Z.of_nat (length cs) ≤ 520 ∧ 1 ≤ Z.of_nat (length cs).
Proof.
apply (chunk_count start_date end_date); reflexivity.
Defined.

(** X3 the loop's chunk ids: within the plan of a valid range no two
    chunks have the same ledger name, the same staging file or the same
    object key, so no chunk of a run is skipped for, or overwrites, another
    chunk of that run. *)
Theorem plan_names_distinct (start end_ : datetime) :
  valid start = true → valid end_ = true →
  let plan := (generate_chunks start end_).1 in
  NoDup (chunk_name <$> plan)
  ∧ NoDup (temp_file <$> plan)
  ∧ NoDup (s3_key <$> plan).
Proof.
intros Hvs Hve plan.
assert (NoDup (chunk_name <$> plan)) as Hnames.
{ subst plan. destruct (generate_chunks start end_) as [cs stop] eqn:Hgen.
  by apply (generate_chunks_names start end_ cs stop). }
split_and!; [done|..].
- eapply NoDup_fmap_through; [|exact Hnames].
  intros x y Heq. by apply temp_file_name.
- eapply NoDup_fmap_through; [|exact Hnames].
  intros x y Heq. by apply s3_key_name.
Qed.

Lemma plan_names_distinct_witness :
  let plan := (generate_chunks start_date end_date).1 in
  NoDup (chunk_name <$> plan)
  ∧ NoDup (temp_file <$> plan)
  ∧ NoDup (s3_key <$> plan).
Proof.
apply (plan_names_distinct start_date end_date); reflexivity.
Defined.

(** X4 [chunk_name]: the name under which a chunk is logged holds the
    calendar dates of its two ends and nothing of their time of day: two
    chunks of valid ends have the same name exactly when their starts
    fall on the same date and their ends fall on the same date. *)
Theorem chunk_name_ignores_time (c c' : chunk) :
  valid c.1 = true → valid c.2 = true →
  valid c'.1 = true → valid c'.2 = true →
  chunk_name c = chunk_name c'
  ↔ (year c.1, month c.1, day c.1) = (year c'.1, month c'.1, day c'.1)
    ∧ (year c.2, month c.2, day c.2) = (year c'.2, month c'.2, day c'.2).
Proof.
intros H1 H2 H1' H2'. unfold chunk_name. split.
- intros Heq.
  apply strftime_Ymd_split in Heq as (Hy & Hm & Hd & Heq); [|done..].
  apply (f_equal (λ s, match s with String _ r => r +:+ "" | _ => "" end))
    in Heq.
  change (strftime_Ymd c.2 +:+ "" = strftime_Ymd c'.2 +:+ "") in Heq.
  apply strftime_Ymd_split in Heq as (Hy2 & Hm2 & Hd2 & _); [|done..].
  by rewrite Hy, Hm, Hd, Hy2, Hm2, Hd2.
- intros [[= Hy Hm Hd] [= Hy2 Hm2 Hd2]].
  unfold strftime_Ymd. by rewrite Hy, Hm, Hd, Hy2, Hm2, Hd2.
Qed.

Lemma chunk_name_ignores_time_witness :
  chunk_name (mk 2023 4 1 21 0 0 0, mk 2023 4 30 21 0 0 0)
  = chunk_name (mk 2023 4 1 0 0 0 0, mk 2023 4 30 23 30 0 0).
Proof.
apply (chunk_name_ignores_time
         (mk 2023 4 1 21 0 0 0, mk 2023 4 30 21 0 0 0)
         (mk 2023 4 1 0 0 0 0, mk 2023 4 30 23 30 0 0));
  reflexivity || (split; reflexivity).
Defined.

End PlanTheorems.

(** ** [retry] at the edges of its parameters *)

Section RetryEdges.
Context {G A : Type}.
Variable func : M G A.
Variables max_attempts delay : Z.
Hypothesis delay_nonneg : 0 ≤ delay.
Hypothesis delay_sure : delay ≤ sure_sleep.

(** With [k] attempts left after the current one, [retry_for] ends in one
    of two ways. *)
Lemma retry_for_outcomes (k : nat) : ∀ attempt s,
  attempt + Z.of_nat k = max_attempts →
  ∃ fs s1,
    fails func s fs s1 ∧ (length fs ≤ k)%nat
    ∧ ((∃ a s2 evs,
          func s1 = (inr a, s2, evs)
          ∧ retry_for func max_attempts delay
              (seqZ attempt (Z.of_nat k + 1)) s
            = (inr (Some a), s2,
               failed_attempts_events delay attempt fs ++ evs))
       ∨ (∃ e s2 evs,
          length fs = k ∧ func s1 = (inl e, s2, evs)
          ∧ retry_for func max_attempts delay
              (seqZ attempt (Z.of_nat k + 1)) s
            = (inl e, s2,
               failed_attempts_events delay attempt fs
                 ++ evs ++ [Print (failure_line max_attempts e)]))).
Proof.
induction k as [|k IH]; intros attempt s Hmax.
- exists [], s. split; [constructor|]. split; [done|].
  destruct (func s) as [[[e|a] s2] evs] eqn:Hf.
  + right. exists e, s2, evs. split_and!; try done.
    apply (retry_for_exhausted func max_attempts delay delay_nonneg delay_sure
             [] attempt s s e s2 evs); [constructor|simpl; lia|done].
  + left. exists a, s2, evs. split; [done|].
    apply (retry_for_success func max_attempts delay delay_nonneg delay_sure
             (0 + 1) [] attempt s s a s2 evs); [constructor|simpl; lia..|done].
- destruct (func s) as [[[e|a] s2] evs] eqn:Hf.
  + destruct (IH (attempt + 1) s2) as (fs & s1 & Hfs & Hlen & Hend); [lia|].
    exists ((e, evs) :: fs), s1.
    split; [by econstructor|]. split; [simpl; lia|].
    destruct Hend as [(a & s3 & evs3 & Hok & _)|(e3 & s3 & evs3 & Hk & Hlast & _)].
    * left. exists a, s3, evs3. split; [done|].
      apply (retry_for_success func max_attempts delay delay_nonneg delay_sure
               (Z.of_nat (S k) + 1) ((e, evs) :: fs) attempt s s1 a s3 evs3);
        [by econstructor|simpl; lia..|done].
    * right. exists e3, s3, evs3. split; [simpl; lia|]. split; [done|].
      replace (Z.of_nat (S k) + 1)
        with (Z.of_nat (length ((e, evs) :: fs)) + 1) by (simpl; lia).
      apply (retry_for_exhausted func max_attempts delay delay_nonneg delay_sure
               ((e, evs) :: fs) attempt s s1 e3 s3 evs3);
        [by econstructor|simpl; lia|done].
  + exists [], s. split; [constructor|]. split; [simpl; lia|].
    left. exists a, s2, evs. split; [done|].
    apply (retry_for_success func max_attempts delay delay_nonneg delay_sure
             (Z.of_nat (S k) + 1) [] attempt s s a s2 evs);
      [constructor|simpl; lia..|done].
Qed.

End RetryEdges.

Section RetryTheorems.
Context {G A : Type}.

(** X5 [retry]: asked for no attempt at all ([max_attempts] at most 0),
    it never invokes the operation, prints nothing, does not sleep and
    returns [None] as if the operation had succeeded. *)
Theorem retry_no_attempts (func : M G A) (max_attempts delay : Z)
    (s : state G) :
  max_attempts ≤ 0 →
  retry func max_attempts delay s = (inr None, s, []).
Proof.
intros Hmax. unfold retry, seqZ.
replace (Z.to_nat max_attempts) with 0%nat by lia. done.
Qed.

(** X6 [retry] with more than one attempt and a delay that [time.sleep]
    refuses: the first failure of the operation is followed by the two
    lines of a retry and then by the error of [time.sleep], which leaves
    [retry] in place of the operation's error; the operation is not
    invoked a second time.  The error is [ValueError] for a negative
    delay of at most [sleep_max] seconds, and [OverflowError] for a delay
    of more than [sleep_max] seconds, negative or not. *)
Theorem retry_refused_delay (func : M G A) (max_attempts delay : Z)
    (s s1 : state G) (e : exn) (evs : list event) :
  1 < max_attempts →
  func s = (inl e, s1, evs) →
  (- sleep_max ≤ delay < 0 →
   retry func max_attempts delay s
   = (inl (Exn "ValueError" "sleep length must be non-negative"), s1,
      evs ++ [Print (failure_line 1 e); Print (retrying_line delay)]))
  ∧ (delay < - sleep_max ∨ sleep_max < delay →
     retry func max_attempts delay s
     = (inl (Exn "OverflowError"
               "timestamp too large to convert to C _PyTime_t"), s1,
        evs ++ [Print (failure_line 1 e); Print (retrying_line delay)])).
Proof.
intros Hmax Hf. unfold retry. rewrite seqZ_cons by lia. simpl. rewrite Hf.
unfold bind, print, emit.
destruct (1 <? max_attempts) eqn:Hcmp; [|lia].
unfold sleep. split.
- intros [Hlo Hhi].
  rewrite (proj2 (Z.ltb_ge delay (- sleep_max))) by done.
  rewrite (proj2 (Z.ltb_ge sleep_max delay)) by (unfold sleep_max in *; lia).
  by rewrite (proj2 (Z.ltb_lt delay 0)).
- intros [Hout|Hout].
  + by rewrite (proj2 (Z.ltb_lt delay (- sleep_max))).
  + by rewrite (proj2 (Z.ltb_lt sleep_max delay)), orb_true_r.
Qed.

(** X7 [retry] with at least one attempt and a delay that [time.sleep]
    accepts (not negative and at most [sure_sleep] seconds): every run
    ends in one of two ways.  Either the operation
    fails fewer than [max_attempts] times in a row and then succeeds, and
    [retry] returns that value; or it fails [max_attempts] times in a row
    and [retry] raises the last error.  So the operation is invoked at
    most [max_attempts] times and [None] is never returned. *)
Theorem retry_outcomes (func : M G A) (max_attempts delay : Z) (s : state G) :
  1 ≤ max_attempts → 0 ≤ delay → delay ≤ sure_sleep →
  ∃ fs s1,
    fails func s fs s1 ∧ Z.of_nat (length fs) < max_attempts
    ∧ ((∃ a s2 evs,
          func s1 = (inr a, s2, evs)
          ∧ retry func max_attempts delay s
            = (inr (Some a), s2, failed_attempts_events delay 1 fs ++ evs))
       ∨ (∃ e s2 evs,
          Z.of_nat (length fs) = max_attempts - 1
          ∧ func s1 = (inl e, s2, evs)
          ∧ retry func max_attempts delay s
            = (inl e, s2,
               failed_attempts_events delay 1 fs
                 ++ evs ++ [Print (failure_line max_attempts e)]))).
Proof.
intros Hmax Hdelay Hsure. unfold retry.
destruct (retry_for_outcomes func max_attempts delay Hdelay Hsure
            (Z.to_nat (max_attempts - 1)) 1 s)
  as (fs & s1 & Hfs & Hlen & Hend); [lia|].
replace (Z.of_nat (Z.to_nat (max_attempts - 1)) + 1) with max_attempts
  in Hend by lia.
exists fs, s1. split; [done|]. split; [lia|].
destruct Hend as [(a & s2 & evs & Hok & Heq)|(e & s2 & evs & Hk & Hlast & Heq)].
- left. by exists a, s2, evs.
- right. exists e, s2, evs. split; [lia|done].
Qed.

End RetryTheorems.

Lemma retry_no_attempts_witness :
  retry (to_netcdf "a.nc") 0 10 fresh = (inr None, fresh, []).
Proof.
apply (retry_no_attempts (to_netcdf "a.nc") 0 10 fresh). lia.
Defined.

Lemma retry_refused_delay_witness :
  let e := Exn "OSError" "disk full" in
  let s := set_script [Failure e false] fresh in
  let ev := [Call (ToNetcdf "a.nc") (Failure e false)] in
  retry (to_netcdf "a.nc") 3 (-1) s
  = (inl (Exn "ValueError" "sleep length must be non-negative"), fresh,
     ev ++ [Print (failure_line 1 e); Print (retrying_line (-1))])
  ∧ retry (to_netcdf "a.nc") 3 10000000000 s
    = (inl (Exn "OverflowError"
              "timestamp too large to convert to C _PyTime_t"), fresh,
       ev ++ [Print (failure_line 1 e);
              Print (retrying_line 10000000000)]).
Proof.
intros e s ev. split.
- apply (proj1 (retry_refused_delay (to_netcdf "a.nc") 3 (-1) s fresh e ev
                 ltac:(lia) eq_refl)).
  unfold sleep_max. lia.
- apply (proj2 (retry_refused_delay (to_netcdf "a.nc") 3 10000000000
                 s fresh e ev ltac:(lia) eq_refl)).
  unfold sleep_max. lia.
Defined.

Lemma retry_outcomes_witness :
  let s := set_script [Failure (Exn "OSError" "disk full") false] fresh in
  ∃ fs s1,
    fails (to_netcdf "a.nc") s fs s1 ∧ Z.of_nat (length fs) < 3
    ∧ ((∃ a s2 evs,
          to_netcdf "a.nc" s1 = (inr a, s2, evs)
          ∧ retry (to_netcdf "a.nc") 3 10 s
            = (inr (Some a), s2, failed_attempts_events 10 1 fs ++ evs))
       ∨ (∃ e s2 evs,
          Z.of_nat (length fs) = 3 - 1
          ∧ to_netcdf "a.nc" s1 = (inl e, s2, evs)
          ∧ retry (to_netcdf "a.nc") 3 10 s
            = (inl e, s2,
               failed_attempts_events 10 1 fs
                 ++ evs ++ [Print (failure_line 3 e)]))).
Proof.
intros s.
apply (retry_outcomes (to_netcdf "a.nc") 3 10 s); unfold sure_sleep; lia.
Defined.

(** ** What a run of the Copernicus script leaves on the disk and in the
       bucket *)

Section CopernicusFrame.
Import Copernicus.

Lemma transfer_frame c (s : St) r s' evs :
  transfer_summary c s r s' evs →
  (∀ p, p ∈ disk s' → p = temp_file c ∨ p ∈ disk s)
  ∧ (∀ k, k ∈ dest_bucket s' → k = s3_key c ∨ k ∈ dest_bucket s)
  ∧ (∀ u, r = inr u →
       globals s' = globals s ++ [chunk_name c]
       ∧ (temp_file c ∉ disk s')
       ∧ ∀ p, p ∈ disk s' → p ∈ disk s).
Proof.
intros (_ & _ & Hcase). destruct r as [e|u].
- destruct Hcase as (c' & p' & _ & Hc'). split_and!; [| |done].
  + intros p. destruct c'; try done.
    all: try (destruct Hc' as (_ & _ & _ & -> & _); auto; fail).
    all: try (destruct Hc' as (_ & _ & _ & ->); auto; fail).
    * destruct Hc' as (_ & _ & _ & [->| ->]); [auto|].
      rewrite elem_of_union, elem_of_singleton. tauto.
    * destruct Hc' as (_ & _ & _ & -> & _).
      rewrite elem_of_union, elem_of_singleton. tauto.
    * destruct Hc' as (_ & _ & _ & ->).
      rewrite elem_of_union, elem_of_singleton. tauto.
    * destruct Hc' as (_ & _ & _ & -> & _).
      rewrite elem_of_difference, elem_of_union, elem_of_singleton. tauto.
  + intros k. destruct c'; try done.
    all: try (destruct Hc' as (_ & _ & -> & _); auto; fail).
    all: destruct Hc' as (_ & _ & -> & _);
      rewrite elem_of_union, elem_of_singleton; tauto.
- destruct Hcase as (Hg & _ & Hbk & Hdk & _). split_and!.
  + intros p. rewrite Hdk, elem_of_difference, elem_of_union, elem_of_singleton.
    tauto.
  + intros k. rewrite Hbk, elem_of_union, elem_of_singleton. tauto.
  + intros ? _. split_and!; [done| |].
    * rewrite Hdk, elem_of_difference, elem_of_singleton. tauto.
    * intros p.
      rewrite Hdk, elem_of_difference, elem_of_union, elem_of_singleton.
      tauto.
Qed.

Lemma loop_frame cs : ∀ s,
  runs (for_each process_chunk cs) s (loop_frame_post cs s).
Proof.
induction cs as [|c cs IH]; intros s.
{ eapply runs_intro; [reflexivity|]. split; [auto|]. split; [done|].
  by intros c []%elem_of_nil. }
simpl. destruct (decide (chunk_name c ∈ globals s)) as [Hin|Hin].
- eapply runs_bind; [by apply process_chunk_skip|].
  eapply runs_wand; [apply (IH s)|].
  intros r s' evs [Hbk Hdk]. split.
  + intros k Hk. destruct (Hbk k Hk) as [|(c' & ? & ? & ?)]; [by left|].
    right. exists c'. split_and!; try done. by right.
  + destruct r as [e|u].
    * destruct Hdk as (c' & ? & ? & ?). exists c'. split_and!; try done.
      by right.
    * destruct Hdk as [Hsub Hgone]. split; [done|].
      intros c' [->|Hc']%elem_of_cons Hfresh; [done|]. by apply Hgone.
- destruct (transfer_run c s) as (r1 & s1 & evs1 & Hrun & Hsum).
  destruct (transfer_frame _ _ _ _ _ Hsum) as (Hd1 & Hb1 & Hok1).
  eapply runs_bind; [by rewrite process_chunk_transfer|].
  destruct r1 as [e|u].
  + split.
    * intros k Hk. destruct (Hb1 k Hk) as [->|]; [|by left].
      right. exists c. split_and!; try done. by left.
    * exists c. split_and!; try done. by left.
  + destruct (Hok1 u eq_refl) as (Hg1 & Hgone1 & Hsub1).
    eapply runs_wand; [apply (IH s1)|].
    intros r s' evs [Hbk Hdk].
    assert (∀ c', chunk_name c' ∉ globals s1 → chunk_name c' ∉ globals s)
      as Hmono.
    { intros c' Hc' ?. apply Hc'. rewrite Hg1. apply elem_of_app. by left. }
    split.
    * intros k Hk. destruct (Hbk k Hk) as [Hk1|(c' & ? & ? & ?)].
      -- destruct (Hb1 k Hk1) as [->|]; [|by left].
         right. exists c. split_and!; try done. by left.
      -- right. exists c'. split_and!; auto. by right.
    * destruct r as [e|u'].
      -- destruct Hdk as (c' & ? & ? & Hp). exists c'. split_and!; auto.
         { by right. }
         intros p Hpin. destruct (Hp p Hpin); auto.
      -- destruct Hdk as [Hsub Hgone]. split; [by auto|].
         intros c' Hc' Hfresh.
         destruct (decide (chunk_name c' = chunk_name c)) as [Heq|Hne].
         ++ assert (temp_file c' = temp_file c) as ->.
            { unfold temp_file. by rewrite Heq. }
            intros ?. apply Hgone1. by apply Hsub.
         ++ apply elem_of_cons in Hc' as [->|Hc']; [done|].
            apply Hgone; [done|]. rewrite Hg1, elem_of_app, list_elem_of_singleton.
            tauto.
Qed.

(** The loop of a run, without any assumption on the range. *)
Lemma copernicus_main_loop {G0} start end_ (s0 : state G0) r s evs :
  Copernicus.main start end_ s0 = (r, s, evs) →
  ledger_file s0 ≠ Garbled →
  ∃ r0 evs0,
    for_each process_chunk (generate_chunks start end_).1
      (set_globals (persisted (ledger_file s0)) s0) = (r0, s, evs0)
    ∧ r = (main_end (generate_chunks start end_).2 r0 evs0).1
    ∧ evs = (main_end (generate_chunks start end_).2 r0 evs0).2.
Proof.
intros Hmain Hled.
destruct (generate_chunks start end_) as [cs stop] eqn:Hgen.
destruct (for_each process_chunk cs
            (set_globals (persisted (ledger_file s0)) s0))
  as [[r0 s1] evs0] eqn:Hloop.
rewrite (copernicus_main_run start end_ s0 cs stop r0 s1 evs0 Hgen Hled Hloop)
  in Hmain.
simplify_eq. by exists r0, evs0.
Qed.

End CopernicusFrame.

Section CopernicusLedger.
Import Copernicus.

(** The ledger file after a run: unreadable, or the ledger before the run
    followed by the names of the first chunks that were still to do. *)
Lemma copernicus_ledger_shape {G0} start end_ (s0 : state G0) r s evs :
  valid start = true → valid end_ = true →
  Copernicus.main start end_ s0 = (r, s, evs) →
  let old := persisted (ledger_file s0) in
  let todo := filter (λ c, chunk_name c ∉ old) (generate_chunks start end_).1 in
  ledger_file s = Garbled
  ∨ ∃ k, persisted (ledger_file s) = old ++ (chunk_name <$> take k todo)
         ∧ (r = Finished → take k todo = todo).
Proof.
intros Hvs Hve Hmain old todo.
destruct (decide (ledger_file s0 = Garbled)) as [Hg|Hg].
{ destruct (copernicus_main_garbled start end_ s0 Hg) as [e He].
  rewrite He in Hmain. simplify_eq. by left. }
destruct (copernicus_run_loop start end_ s0 r s evs Hvs Hve Hg Hmain)
  as (cs & stop & r0 & evs0 & Hgen & Hloop & Hsum & Hr & Hevs).
destruct Hsum as (done_ & failed & rest & Htodo & Hcase & _ & _ & _ & Hl).
simpl in Htodo, Hl. subst old todo. rewrite Hgen. simpl.
rewrite Htodo.
destruct Hl as [Hl|[_ Hl]]; [|by left]. right.
exists (length done_). rewrite take_app_length. split.
- rewrite Hl. destruct done_; simpl; [|done].
  by rewrite app_nil_r.
- intros ->. destruct r0 as [e|u]; [done|].
  destruct Hcase as (-> & -> & _). by rewrite !app_nil_r.
Qed.

(** X8 the Copernicus ledger is append-only and in plan order: whatever
    way a run over a valid range ends, the ledger file it leaves is either
    the unreadable remains of a failed write, or the ledger it started
    from followed by the names of the first [k] chunks of the plan that
    were not in it, in the planner's order; after a run that finished, by
    the names of all of them. *)
Theorem ledger_append_only {G0} (start end_ : datetime) (s0 : state G0)
    r s evs :
  valid start = true → valid end_ = true →
  Copernicus.main start end_ s0 = (r, s, evs) →
  let old := persisted (ledger_file s0) in
  let todo := filter (λ c, chunk_name c ∉ old) (generate_chunks start end_).1 in
  ledger_file s = Garbled
  ∨ ∃ k, persisted (ledger_file s) = old ++ (chunk_name <$> take k todo)
         ∧ (r = Finished →
            persisted (ledger_file s) = old ++ (chunk_name <$> todo)).
Proof.
intros Hvs Hve Hmain old todo.
destruct (copernicus_ledger_shape start end_ s0 r s evs Hvs Hve Hmain)
  as [Hg|(k & Hk & Hfin)]; [by left|right].
exists k. split; [done|]. intros Hr. fold old todo in Hk, Hfin.
by rewrite Hk, (Hfin Hr).
Qed.

(** X9 no id is logged twice: a run of the Copernicus script over a valid
    range that starts from a ledger without repeated ids leaves a ledger
    without repeated ids, however the run ends. *)
Theorem ledger_no_duplicates {G0} (start end_ : datetime) (s0 : state G0)
    r s evs :
  valid start = true → valid end_ = true →
  Copernicus.main start end_ s0 = (r, s, evs) →
  NoDup (persisted (ledger_file s0)) →
  NoDup (persisted (ledger_file s)).
Proof.
intros Hvs Hve Hmain Hnd.
destruct (copernicus_ledger_shape start end_ s0 r s evs Hvs Hve Hmain)
  as [->|(k & -> & _)]; [constructor|].
apply NoDup_app. split_and!; [done| |].
- intros id Hid (c & -> & Hc)%list_elem_of_fmap.
  pose proof (elem_of_sublist _ _ _ Hc (sublist_take _ _)) as Hc'.
  apply list_elem_of_filter in Hc' as [Hfresh _]. done.
- destruct (generate_chunks start end_) as [cs stop] eqn:Hgen.
  eapply sublist_NoDup;
    [exact (generate_chunks_names start end_ cs stop Hvs Hve Hgen)|].
  apply fmap_sublist. etrans; [apply sublist_take|apply sublist_filter].
Qed.

(** X10 staging files of the Copernicus script: a run adds at most one
    file to the disk, the staging file of the chunk it stopped at; a run
    that finished adds none, and leaves no staging file of any chunk of
    the plan that was not in the ledger when it started, also not one
    that an earlier run had left behind. *)
Theorem staging_files_of_a_run {G0} (start end_ : datetime) (s0 : state G0)
    r s evs :
  Copernicus.main start end_ s0 = (r, s, evs) →
  let plan := (generate_chunks start end_).1 in
  let old := persisted (ledger_file s0) in
  ((∀ p, p ∈ disk s → p ∈ disk s0)
   ∨ ∃ c, c ∈ plan ∧ (chunk_name c ∉ old)
          ∧ ∀ p, p ∈ disk s → p = temp_file c ∨ p ∈ disk s0)
  ∧ (r = Finished →
     (∀ p, p ∈ disk s → p ∈ disk s0)
     ∧ ∀ c, c ∈ plan → chunk_name c ∉ old → temp_file c ∉ disk s).
Proof.
intros Hmain plan old.
destruct (decide (ledger_file s0 = Garbled)) as [Hg|Hg].
{ destruct (copernicus_main_garbled start end_ s0 Hg) as [e He].
  rewrite He in Hmain. simplify_eq. split; [by left|done]. }
destruct (copernicus_main_loop start end_ s0 r s evs Hmain Hg)
  as (r0 & evs0 & Hloop & Hr & _).
pose proof (runs_det _ _ _ _ _ _ (loop_frame _ _) Hloop) as [_ Hdisk].
simpl in Hdisk. fold plan old in Hdisk.
destruct r0 as [e|u].
- split; [by right|]. by rewrite Hr.
- split; [left; apply Hdisk|]. intros _. done.
Qed.

(** X11 uploads of the Copernicus script: whatever way a run ends, every
    object in the bucket after it was there before, or is the object of a
    chunk of the plan whose name was not in the ledger when the run
    started: a chunk that is skipped is never uploaded, and nothing but
    chunk objects is written. *)
Theorem uploads_only_plan_chunks {G0} (start end_ : datetime)
    (s0 : state G0) r s evs :
  Copernicus.main start end_ s0 = (r, s, evs) →
  ∀ k, k ∈ dest_bucket s →
    k ∈ dest_bucket s0
    ∨ ∃ c, c ∈ (generate_chunks start end_).1
           ∧ (chunk_name c ∉ persisted (ledger_file s0))
           ∧ k = s3_key c.
Proof.
intros Hmain k Hk.
destruct (decide (ledger_file s0 = Garbled)) as [Hg|Hg].
{ destruct (copernicus_main_garbled start end_ s0 Hg) as [e He].
  rewrite He in Hmain. simplify_eq. by left. }
destruct (copernicus_main_loop start end_ s0 r s evs Hmain Hg)
  as (r0 & evs0 & Hloop & _ & _).
pose proof (runs_det _ _ _ _ _ _ (loop_frame _ _) Hloop) as [Hbk _].
by apply Hbk.
Qed.

End CopernicusLedger.

Lemma ledger_append_only_witness :
  let start := mk 2020 1 1 0 0 0 0 in
  let end_ := mk 2020 3 1 0 0 0 0 in
  let s0 := State () [] ∅ ∅ [] (Json ["20200101_20200201"]) in
  let res := Copernicus.main start end_ s0 in
  let old := persisted (ledger_file s0) in
  let todo := filter (λ c, Copernicus.chunk_name c ∉ old)
                (generate_chunks start end_).1 in
  ledger_file res.1.2 = Garbled
  ∨ ∃ k, persisted (ledger_file res.1.2)
         = old ++ (Copernicus.chunk_name <$> take k todo)
         ∧ (res.1.1 = Finished →
            persisted (ledger_file res.1.2)
            = old ++ (Copernicus.chunk_name <$> todo)).
Proof.
intros start end_ s0 res.
apply (ledger_append_only start end_ s0 res.1.1 res.1.2 res.2);
  [reflexivity|reflexivity|vm_compute; reflexivity].
Defined.

Lemma ledger_no_duplicates_witness :
  let start := mk 2020 1 1 0 0 0 0 in
  let end_ := mk 2020 3 1 0 0 0 0 in
  let s0 := State () [] ∅ ∅ [] (Json ["20200101_20200201"]) in
  NoDup (persisted (ledger_file (Copernicus.main start end_ s0).1.2)).
Proof.
intros start end_ s0.
apply (ledger_no_duplicates start end_ s0
         (Copernicus.main start end_ s0).1.1
         (Copernicus.main start end_ s0).1.2
         (Copernicus.main start end_ s0).2);
  [reflexivity|reflexivity|vm_compute; reflexivity|].
simpl. apply NoDup_singleton.
Defined.

Lemma staging_files_of_a_run_witness :
  let start := mk 2020 1 1 0 0 0 0 in
  let end_ := mk 2020 3 1 0 0 0 0 in
  let left_behind := "./temp_downloads/20200101_20200201.nc" in
  let s0 := State () [] {[left_behind]} ∅ [] Missing in
  let res := Copernicus.main start end_ s0 in
  let plan := (generate_chunks start end_).1 in
  let old := persisted (ledger_file s0) in
  ((∀ p, p ∈ disk res.1.2 → p ∈ disk s0)
   ∨ ∃ c, c ∈ plan ∧ (Copernicus.chunk_name c ∉ old)
          ∧ ∀ p, p ∈ disk res.1.2 → p = Copernicus.temp_file c ∨ p ∈ disk s0)
  ∧ (res.1.1 = Finished →
     (∀ p, p ∈ disk res.1.2 → p ∈ disk s0)
     ∧ ∀ c, c ∈ plan → Copernicus.chunk_name c ∉ old →
            Copernicus.temp_file c ∉ disk res.1.2).
Proof.
intros start end_ left_behind s0 res.
apply (staging_files_of_a_run start end_ s0 res.1.1 res.1.2 res.2).
vm_compute; reflexivity.
Defined.

Lemma uploads_only_plan_chunks_witness :
  let start := mk 2020 1 1 0 0 0 0 in
  let end_ := mk 2020 3 1 0 0 0 0 in
  let s0 := State () [] ∅ ∅ [] (Json ["20200101_20200201"]) in
  let k := "2020/20200201_20200301.nc" in
  k ∈ dest_bucket s0
  ∨ ∃ c, c ∈ (generate_chunks start end_).1
         ∧ (Copernicus.chunk_name c ∉ persisted (ledger_file s0))
         ∧ k = Copernicus.s3_key c.
Proof.
intros start end_ s0 k.
apply (uploads_only_plan_chunks start end_ s0
         (Copernicus.main start end_ s0).1.1
         (Copernicus.main start end_ s0).1.2
         (Copernicus.main start end_ s0).2 eq_refl k).
apply (bool_decide_unpack _). vm_compute. exact I.
Defined.

(** ** Paths of the NOAA script *)

Section PyStrings.

Lemma list_ascii_app (a b : string) :
  String.list_ascii_of_string (a +:+ b)
  = String.list_ascii_of_string a ++ String.list_ascii_of_string b.
Proof. induction a as [|c a IH]; [done|]. simpl. by rewrite <- IH. Qed.

Lemma split_nonempty sep s : Py.split sep s ≠ [].
Proof.
destruct s as [|c s]; simpl; [done|].
destruct (Ascii.eqb c sep); [done|]. by destruct (Py.split sep s).
Qed.

(** A string without the separator is its own single segment. *)
Lemma split_single sep s :
  sep ∉ String.list_ascii_of_string s → Py.split sep s = [s].
Proof.
induction s as [|c s IH]; simpl; [done|].
rewrite not_elem_of_cons. intros [Hne Hs].
destruct (Ascii.eqb_spec c sep) as [->|_]; [done|].
by rewrite IH.
Qed.

Lemma split_app sep a b :
  Py.split sep (a +:+ String sep b) = Py.split sep a ++ Py.split sep b.
Proof.
induction a as [|c a IH].
- change (Py.split sep (String sep b) = [""] ++ Py.split sep b).
  simpl. by rewrite Ascii.eqb_refl.
- change (Py.split sep (String c (a +:+ String sep b))
          = Py.split sep (String c a) ++ Py.split sep b).
  simpl. rewrite IH. destruct (Ascii.eqb c sep); [done|].
  pose proof (split_nonempty sep a).
  by destruct (Py.split sep a).
Qed.

(** No segment of a split holds the separator. *)
Lemma split_segments sep s :
  Forall (λ seg, sep ∉ String.list_ascii_of_string seg) (Py.split sep s).
Proof.
induction s as [|c s IH]; simpl.
- repeat constructor. by intros ?%elem_of_nil.
- destruct (Ascii.eqb_spec c sep) as [->|Hne].
  + constructor; [by intros ?%elem_of_nil|done].
  + destruct (Py.split sep s) as [|seg rest]; simpl.
    * repeat constructor. simpl. rewrite not_elem_of_cons. split; [done|].
      by intros ?%elem_of_nil.
    * apply Forall_cons in IH as [Hseg Hrest]. constructor; [|done].
      simpl. rewrite not_elem_of_cons. by split.
Qed.

Lemma last_segment_elem (xs : list string) :
  xs ≠ [] → Py.last_segment xs ∈ xs.
Proof.
unfold Py.last_segment. induction xs as [|x xs IH]; [done|]. intros _.
destruct xs as [|y xs]; [left|]. right. by apply IH.
Qed.

Lemma last_segment_app (xs ys : list string) :
  ys ≠ [] → Py.last_segment (xs ++ ys) = Py.last_segment ys.
Proof.
unfold Py.last_segment. intros Hys. induction xs as [|x xs IH]; [done|].
simpl. destruct (xs ++ ys) eqn:Heq; [|done].
by apply app_eq_nil in Heq as [_ ?].
Qed.

Lemma replace_go_keeps_out c old new s : ∀ skip,
  c ∉ String.list_ascii_of_string new → c ∉ String.list_ascii_of_string s →
  c ∉ String.list_ascii_of_string (Py.replace_go old new skip s).
Proof.
induction s as [|a s IH]; intros skip Hnew; simpl; [done|].
rewrite not_elem_of_cons. intros [Hne Hs].
destruct skip as [|k]; [|by apply IH].
match goal with |- context [if ?b then _ else _] => destruct b end.
- rewrite list_ascii_app, not_elem_of_app. split; [done|by apply IH].
- simpl. rewrite not_elem_of_cons. split; [done|by apply IH].
Qed.

End PyStrings.

Section NoaaPaths.
Import Noaa.

Lemma filename_no_slash key :
  "/"%char ∉ String.list_ascii_of_string (filename key).
Proof.
unfold filename.
pose proof (split_segments "/" key) as Hall.
rewrite Forall_forall in Hall. apply Hall, last_segment_elem, split_nonempty.
Qed.

Lemma netcdf_name_no_slash key :
  "/"%char ∉ String.list_ascii_of_string (netcdf_name key).
Proof.
unfold netcdf_name, Py.replace. apply replace_go_keeps_out.
- simpl. rewrite !not_elem_of_cons. split_and!; try done.
  by intros ?%elem_of_nil.
- apply filename_no_slash.
Qed.

(** X12 staging files of the NOAA script: whatever the key, the staging
    file is the file [netcdf_name] directly in [/tmp]: the name holds no
    slash, so [os.path.join] never drops the directory and no key can make
    the script write anywhere else on the disk. *)
Theorem staging_path_in_tmp (key : string) :
  local_nc_path key = "/tmp/" +:+ netcdf_name key
  ∧ Py.split "/" (netcdf_name key) = [netcdf_name key]
  ∧ Py.split "/" (filename key) = [filename key].
Proof.
pose proof (netcdf_name_no_slash key) as Hn.
split_and!.
- unfold local_nc_path, Py.path_join, Py.startswith.
  destruct (netcdf_name key) as [|a n]; [done|].
  simpl in Hn. apply not_elem_of_cons in Hn as [Hne _].
  assert (String.prefix "/" (String a n) = false) as ->; [|done].
  unfold String.prefix. by destruct (Ascii.ascii_dec "/" a).
- by apply split_single.
- apply split_single, filename_no_slash.
Qed.

Lemma split_source_prefix (rest : string) :
  Py.split "/" (source_prefix +:+ rest)
  = ["GEFSv12"; "reforecast"; "2019"] ++ Py.split "/" rest.
Proof.
change (source_prefix +:+ rest)
  with ("GEFSv12" +:+ String "/" ("reforecast" +:+ String "/"
          ("2019" +:+ String "/" rest))).
by rewrite !split_app.
Qed.

(** X13 [date_folder] on the keys of the listing: below the prefix
    [GEFSv12/reforecast/2019/] the script takes the second path segment
    for the date folder and ignores the first.  An object directly under
    the prefix has no such segment ([IndexError]); an object one folder
    below it is filed under a folder named after the file itself, not
    after the folder it came from. *)
Theorem date_folder_of_listed_key (folder name rest : string) :
  "/"%char ∉ String.list_ascii_of_string folder →
  "/"%char ∉ String.list_ascii_of_string name →
  date_folder (source_prefix +:+ name)
  = inl (Exn "IndexError" "list index out of range")
  ∧ date_folder (source_prefix +:+ folder +:+ "/" +:+ name) = inr name
  ∧ filename (source_prefix +:+ folder +:+ "/" +:+ name) = name
  ∧ dest_key (source_prefix +:+ folder +:+ "/" +:+ name) name
    = "noaa-data/2019/" +:+ name +:+ "/" +:+ Py.replace ".grib2" ".nc" name
  ∧ date_folder (source_prefix +:+ folder +:+ "/" +:+ name +:+ "/" +:+ rest)
    = inr name.
Proof.
intros Hfolder Hname.
assert (∀ tail, Py.split "/" (source_prefix +:+ folder +:+ "/" +:+ tail)
                = ["GEFSv12"; "reforecast"; "2019"; folder]
                  ++ Py.split "/" tail) as Htwo.
{ intros tail. rewrite split_source_prefix.
  change (folder +:+ "/" +:+ tail) with (folder +:+ String "/" tail).
  by rewrite split_app, (split_single _ folder). }
assert (filename (source_prefix +:+ folder +:+ "/" +:+ name) = name) as Hfile.
{ unfold filename. rewrite Htwo, (split_single _ name) by done. done. }
split_and!.
- unfold date_folder. by rewrite split_source_prefix, (split_single _ name).
- unfold date_folder. by rewrite Htwo, (split_single _ name).
- done.
- unfold dest_key, netcdf_name. by rewrite Hfile.
- unfold date_folder.
  change (name +:+ "/" +:+ rest) with (name +:+ String "/" rest).
  by rewrite Htwo, split_app, (split_single _ name).
Qed.

Lemma date_folder_of_listed_key_witness :
  date_folder "GEFSv12/reforecast/2019/hs.grib2"
  = inl (Exn "IndexError" "list index out of range")
  ∧ date_folder "GEFSv12/reforecast/2019/20190101/hs.grib2" = inr "hs.grib2"
  ∧ filename "GEFSv12/reforecast/2019/20190101/hs.grib2" = "hs.grib2"
  ∧ dest_key "GEFSv12/reforecast/2019/20190101/hs.grib2" "hs.grib2"
    = "noaa-data/2019/hs.grib2/hs.nc"
  ∧ date_folder "GEFSv12/reforecast/2019/20190101/hs.grib2/x" = inr "hs.grib2".
Proof.
apply (date_folder_of_listed_key "20190101" "hs.grib2" "x"); vm_compute;
  intros H; repeat (apply elem_of_cons in H as [H|H]; [done|]);
  by apply elem_of_nil in H.
Defined.

End NoaaPaths.

(** ** Keys the NOAA loop can never transfer *)

Section NoaaShortKeys.
Import Noaa.

Lemma date_folder_short key :
  (length (Py.split "/" key) ≤ 4)%nat →
  date_folder key = inl (Exn "IndexError" "list index out of range").
Proof.
intros Hlen. unfold date_folder.
destruct (Py.split "/" key !! 4%nat) as [seg|] eqn:Hseg; [|done].
apply lookup_lt_Some in Hseg. lia.
Qed.

Ltac short_failed :=
  split_and!; try done; eauto;
  rewrite ?calls_app; simpl;
  try (repeat constructor; elems; tauto);
  try (intros Hall; exfalso;
       repeat (apply Forall_cons in Hall as [? Hall]); done).

Lemma try_block_short key (s : St) e0 :
  date_folder key = inl e0 →
  runs (try_block key) s (λ r s' evs,
    (∃ e, r = inl e)
    ∧ globals s' = globals s ∧ ledger_file s' = ledger_file s
    ∧ dest_bucket s' = dest_bucket s ∧ disk s' = disk s
    ∧ Forall (λ co, co.1 ∈ [GetObject key; BodyRead; XrOpenDataset; DsSel])
        (calls evs)
    ∧ (Forall (λ co, co.2 = Success) (calls evs) →
       r = inl e0
       ∧ evs = [Print (processing_line key); Call (GetObject key) Success;
                Call BodyRead Success; Call XrOpenDataset Success;
                Call DsSel Success])).
Proof.
intros Hfolder.
unfold try_block, get_object, body_read, xr_open_dataset, ds_sel.
eapply runs_bind; [reflexivity|]. cbv beta iota.
ext_step o1 sc1 H1. destruct o1 as [|e1 p1]; [|short_failed].
ext_step o2 sc2 H2. destruct o2 as [|e2 p2]; [|short_failed].
ext_step o3 sc3 H3. destruct o3 as [|e3 p3]; [|short_failed].
ext_step o4 sc4 H4. destruct o4 as [|e4 p4]; [|short_failed].
eapply runs_bind; [reflexivity|]. rewrite Hfolder.
short_failed.
Qed.

(** X14 a listed key with fewer than five segments is never transferred:
    whatever the outcomes of the calls, the NOAA loop fetches it, writes
    no file, uploads nothing and commits nothing, prints an error line and
    goes on; when every call succeeds the error is the [IndexError] of
    [key.split('/')[4]].  The checkpoint never holds the file, so every
    run fetches it again. *)
Theorem short_key_never_transferred (key : string) (s : St) :
  (length (Py.split "/" key) ≤ 4)%nat →
  filename key ∉ globals s →
  ∃ s' evs e,
    process_file key s = (inr (), s', evs ++ [Print (error_line key e)])
    ∧ globals s' = globals s ∧ ledger_file s' = ledger_file s
    ∧ dest_bucket s' = dest_bucket s ∧ disk s' = disk s
    ∧ Forall (λ co, co.1 ∈ [GetObject key; BodyRead; XrOpenDataset; DsSel])
        (calls evs)
    ∧ (Forall (λ co, co.2 = Success) (calls evs) →
       e = Exn "IndexError" "list index out of range"
       ∧ calls evs = [(GetObject key, Success); (BodyRead, Success);
                      (XrOpenDataset, Success); (DsSel, Success)]).
Proof.
intros Hlen Hfresh.
destruct (try_block_short key s _ (date_folder_short key Hlen))
  as (r & s' & evs & Hrun & [e ->] & Hg & Hl & Hb & Hd & Hcalls & Hok).
exists s', evs, e.
rewrite (process_file_try key s (inl e) s' evs Hfresh Hrun).
split_and!; try done.
intros Hall. destruct (Hok Hall) as [[= ->] ->]. done.
Qed.

Lemma short_key_never_transferred_witness :
  let key := "GEFSv12/reforecast/2019/hs.grib2" in
  let s : St := State ∅ [] ∅ ∅ [key] Missing in
  ∃ s' evs e,
    process_file key s = (inr (), s', evs ++ [Print (error_line key e)])
    ∧ globals s' = globals s ∧ ledger_file s' = ledger_file s
    ∧ dest_bucket s' = dest_bucket s ∧ disk s' = disk s
    ∧ Forall (λ co, co.1 ∈ [GetObject key; BodyRead; XrOpenDataset; DsSel])
        (calls evs)
    ∧ (Forall (λ co, co.2 = Success) (calls evs) →
       e = Exn "IndexError" "list index out of range"
       ∧ calls evs = [(GetObject key, Success); (BodyRead, Success);
                      (XrOpenDataset, Success); (DsSel, Success)]).
Proof.
intros key s.
apply (short_key_never_transferred key s); [vm_compute; lia|].
simpl. apply not_elem_of_empty.
Defined.

End NoaaShortKeys.

(** ** What a run of the NOAA script leaves on the disk and in the bucket *)

Section NoaaFrame.
Import Noaa.

Lemma try_disk_bucket key (s : St) r s' evs :
  try_summary key s r s' evs →
  (∀ p, p ∈ disk s' → p = local_nc_path key ∨ p ∈ disk s)
  ∧ (∀ k, k ∈ dest_bucket s' →
       k ∈ dest_bucket s
       ∨ ∃ folder, date_folder key = inr folder ∧ k = dest_key key folder)
  ∧ (∀ u, r = inr u →
       (local_nc_path key ∉ disk s')
       ∧ ∀ p, p ∈ disk s' → p ∈ disk s).
Proof.
intros (_ & _ & _ & Hcase). destruct r as [e|u].
- destruct Hcase as [(_ & _ & _ & _ & Hb & Hd)|(c' & p' & _ & Hc')].
  { rewrite Hb, Hd. split_and!; auto. by intros u [=]. }
  split_and!; [| |by intros u [=]].
  + intros p. destruct c'; try done.
    all: try (destruct Hc' as (_ & _ & _ & -> & _); auto; fail).
    all: try (destruct Hc' as (_ & _ & _ & ->); auto; fail).
    * destruct Hc' as (_ & _ & _ & [->| ->]); [auto|].
      rewrite elem_of_union, elem_of_singleton. tauto.
    * destruct Hc' as (_ & _ & _ & ->).
      rewrite elem_of_union, elem_of_singleton. tauto.
    * destruct Hc' as (_ & _ & _ & ->).
      rewrite elem_of_union, elem_of_singleton. tauto.
    * destruct Hc' as (_ & _ & _ & -> & _).
      rewrite elem_of_difference, elem_of_union, elem_of_singleton. tauto.
  + intros k. destruct c'; try done.
    all: try (destruct Hc' as (_ & _ & -> & _); auto; fail).
    all: destruct Hc' as (_ & _ & (folder & Hf & ->) & _);
      rewrite elem_of_union, elem_of_singleton;
      intros [->|?]; [right; by exists folder|by left].
- destruct Hcase as (folder & Hf & _ & _ & Hb & Hd & _). split_and!.
  + intros p. rewrite Hd, elem_of_difference, elem_of_union, elem_of_singleton.
    tauto.
  + intros k. rewrite Hb, elem_of_union, elem_of_singleton.
    intros [->|?]; [right; by exists folder|by left].
  + intros ? _. split.
    * rewrite Hd, elem_of_difference, elem_of_singleton. tauto.
    * intros p.
      rewrite Hd, elem_of_difference, elem_of_union, elem_of_singleton.
      tauto.
Qed.

Lemma files_frame keys : ∀ s,
  runs (for_each process_file keys) s (files_frame_post keys s).
Proof.
induction keys as [|key keys IH]; intros s.
{ eapply runs_intro; [reflexivity|]. split_and!; auto.
  intros _. split; [done|]. by intros key []%elem_of_nil. }
simpl. destruct (decide (filename key ∈ globals s)) as [Hin|Hin].
- eapply runs_bind; [by apply process_file_skip|].
  eapply runs_wand; [apply (IH s)|].
  intros r s' evs (Hbk & Hdk & Hclean). split_and!.
  + intros k Hk. destruct (Hbk k Hk) as [|(key' & f & ? & ? & ? & ?)];
      [by left|].
    right. exists key', f. split_and!; try done. by right.
  + intros p Hp. destruct (Hdk p Hp) as [|(key' & ? & ? & ?)]; [by left|].
    right. exists key'. split_and!; try done. by right.
  + intros He. destruct (Hclean He) as [Hsub Hgone]. split; [done|].
    intros key' [->|Hk]%elem_of_cons Hfresh; [done|]. by apply Hgone.
- destruct (try_block_run key s) as (r1 & s1 & evs1 & Hrun & Hsum).
  destruct (try_disk_bucket _ _ _ _ _ Hsum) as (Hd1 & Hb1 & Hok1).
  pose proof (try_frame _ _ _ _ _ Hsum) as (_ & Hg1 & _ & Hcommit).
  eapply runs_bind; [by apply (process_file_try _ _ _ _ _ Hin Hrun)|].
  cbv beta iota.
  eapply runs_wand; [apply (IH s1)|].
  intros r s' evs (Hbk & Hdk & Hclean).
  assert (∀ key', filename key' ∉ globals s1 → filename key' ∉ globals s)
    as Hmono.
  { intros key' Hk ?. apply Hk.
    destruct Hg1 as [->| ->]; [done|by apply elem_of_union_r]. }
  split_and!.
  + intros k Hk. destruct (Hbk k Hk) as [Hk1|(key' & f & ? & ? & ? & ?)].
    * destruct (Hb1 k Hk1) as [|(f & ? & ?)]; [by left|].
      right. exists key, f. split_and!; try done. by left.
    * right. exists key', f. split_and!; auto. by right.
  + intros p Hp. destruct (Hdk p Hp) as [Hp1|(key' & ? & ? & ?)].
    * destruct (Hd1 p Hp1) as [->|]; [|by left].
      right. exists key. split_and!; try done. by left.
    * right. exists key'. split_and!; auto. by right.
  + rewrite errors_app. intros [He1 He]%app_eq_nil.
    destruct r1 as [e|u].
    { rewrite errors_app in He1. by apply app_eq_nil in He1 as [_ [=]]. }
    destruct (Hok1 u eq_refl) as [Hgone1 Hsub1].
    destruct (Hcommit u eq_refl) as [Hgs1 _].
    destruct (Hclean He) as [Hsub Hgone]. split; [by auto|].
    intros key' Hk Hfresh.
    destruct (decide (filename key' = filename key)) as [Heq|Hne].
    * assert (local_nc_path key' = local_nc_path key) as ->.
      { unfold local_nc_path, netcdf_name. by rewrite Heq. }
      intros ?. apply Hgone1. by apply Hsub.
    * apply elem_of_cons in Hk as [->|Hk]; [done|].
      apply Hgone; [done|].
      rewrite Hgs1, elem_of_union, elem_of_singleton. tauto.
Qed.

(** X15 the checkpoint of the NOAA script is keyed by the bare file name:
    once a key has been processed without an error line, every later key
    of the listing with the same file name, in whatever folder, is skipped
    without a single call. *)
Theorem same_file_name_skipped (key key' : string) (mid : list string)
    (s : St) :
  filename key' = filename key →
  ∃ s1 evs1 s2 evs2,
    process_file key s = (inr (), s1, evs1)
    ∧ for_each process_file mid s1 = (inr (), s2, evs2)
    ∧ (errors evs1 = [] →
       process_file key' s2 = (inr (), s2, [Print (skipping_line key')])).
Proof.
intros Hname.
assert (∃ s1 evs1, process_file key s = (inr (), s1, evs1)
          ∧ (errors evs1 = [] → filename key ∈ globals s1))
  as (s1 & evs1 & Hfirst & Hin1).
{ destruct (decide (filename key ∈ globals s)) as [Hin|Hin].
  - exists s, [Print (skipping_line key)].
    split; [by apply process_file_skip|done].
  - destruct (try_block_run key s) as (r1 & s1 & evs1 & Hrun & Hsum).
    pose proof (try_frame _ _ _ _ _ Hsum) as (_ & _ & _ & Hcommit).
    eexists _, _. split; [by apply (process_file_try _ _ _ _ _ Hin Hrun)|].
    destruct r1 as [e|u].
    + rewrite errors_app. by intros [_ [=]]%app_eq_nil.
    + intros _. destruct (Hcommit u eq_refl) as [-> _].
      apply elem_of_union_l. by apply elem_of_singleton. }
destruct (files_run mid s1)
  as (r2 & s2 & evs2 & Hmid & -> & _ & _ & Hmono & _).
exists s1, evs1, s2, evs2. split_and!; try done.
intros He. apply process_file_skip. rewrite Hname. by apply Hmono, Hin1.
Qed.

Lemma same_file_name_skipped_witness :
  let key := "GEFSv12/reforecast/2019/20190101/c00/hs.grib2" in
  let key' := "GEFSv12/reforecast/2019/20190102/c00/hs.grib2" in
  let s : St := State ∅ [] ∅ ∅ [key; key'] Missing in
  ∃ s1 evs1 s2 evs2,
    process_file key s = (inr (), s1, evs1)
    ∧ for_each process_file [] s1 = (inr (), s2, evs2)
    ∧ (errors evs1 = [] →
       process_file key' s2 = (inr (), s2, [Print (skipping_line key')])).
Proof.
intros key key' s.
apply (same_file_name_skipped key key' [] s). reflexivity.
Defined.

(** X16 how a run of the NOAA script can end: it finishes, or it stops
    with an uncaught exception before it has fetched anything, because the
    checkpoint file could not be parsed or the listing failed; in both
    cases the disk, the bucket and the checkpoint file are as they were.
    No failure of a file stops the run. *)
Theorem noaa_run_ends {G0} (s0 : state G0) r s evs :
  Noaa.main s0 = (r, s, evs) →
  r = Finished
  ∨ ∃ e, r = Uncaught e
         ∧ ((ledger_file s0 = Garbled ∧ evs = [Traceback e])
            ∨ ∃ p, evs = [Call (ListObjectsV2 source_prefix) (Failure e p);
                          Traceback e])
         ∧ disk s = disk s0 ∧ dest_bucket s = dest_bucket s0
         ∧ ledger_file s = ledger_file s0.
Proof.
intros Hmain.
destruct (decide (ledger_file s0 = Garbled)) as [Hg|Hg].
{ destruct (noaa_main_garbled s0 Hg) as [e He].
  rewrite He in Hmain. simplify_eq. right. exists e.
  split_and!; try done. by left. }
destruct (noaa_main_run s0 Hg) as (o & sc & Hrun).
destruct o as [|e p].
- destruct Hrun as (s' & evs' & _ & _ & Hrun).
  rewrite Hrun in Hmain. simplify_eq. by left.
- rewrite Hrun in Hmain. simplify_eq. right. exists e.
  split_and!; try done. right. by exists p.
Qed.

Lemma noaa_run_ends_witness :
  let denied := Exn "ClientError" "AccessDenied" in
  let s0 := State () [Failure denied false] ∅ ∅ ["a.grib2"] Missing in
  let res := Noaa.main s0 in
  res.1.1 = Finished
  ∨ ∃ e, res.1.1 = Uncaught e
         ∧ ((ledger_file s0 = Garbled ∧ res.2 = [Traceback e])
            ∨ ∃ p, res.2 = [Call (ListObjectsV2 source_prefix) (Failure e p);
                            Traceback e])
         ∧ disk res.1.2 = disk s0 ∧ dest_bucket res.1.2 = dest_bucket s0
         ∧ ledger_file res.1.2 = ledger_file s0.
Proof.
intros denied s0 res.
apply (noaa_run_ends s0 res.1.1 res.1.2 res.2). vm_compute; reflexivity.
Defined.

(** X17 writes of the NOAA script: whatever way a run ends, every object
    in the bucket after it was there before or is the object [dest_key] of
    a listed key whose file name was not in the checkpoint, and every file
    on the disk after it was there before or is the staging file of such a
    key.  After a run without an error line nothing is added to the disk
    and no staging file of such a key is left, also not one left behind
    by an earlier run. *)
Theorem noaa_writes_only_listed {G0} (s0 : state G0) r s evs :
  Noaa.main s0 = (r, s, evs) →
  let keys := noaa_keys s0 in
  let old := persisted (ledger_file s0) in
  (∀ k, k ∈ dest_bucket s →
     k ∈ dest_bucket s0
     ∨ ∃ key folder, key ∈ keys ∧ (filename key ∉ old)
                     ∧ date_folder key = inr folder
                     ∧ k = dest_key key folder)
  ∧ (∀ p, p ∈ disk s →
       p ∈ disk s0
       ∨ ∃ key, key ∈ keys ∧ (filename key ∉ old) ∧ p = local_nc_path key)
  ∧ (r = Finished → errors evs = [] →
       (∀ p, p ∈ disk s → p ∈ disk s0)
       ∧ ∀ key, key ∈ keys → filename key ∉ old →
                local_nc_path key ∉ disk s).
Proof.
intros Hmain keys old.
destruct (decide (ledger_file s0 = Garbled)) as [Hg|Hg].
{ destruct (noaa_main_garbled s0 Hg) as [e He].
  rewrite He in Hmain. simplify_eq. split_and!; auto. done. }
destruct (noaa_main_run s0 Hg) as (o & sc & Hrun).
destruct o as [|e p].
2:{ rewrite Hrun in Hmain. simplify_eq. split_and!; auto. done. }
destruct Hrun as (s' & evs' & Hloop & _ & Hrun).
rewrite Hrun in Hmain. simplify_eq.
pose proof (runs_det _ _ _ _ _ _ (files_frame _ _) Hloop)
  as (Hbk & Hdk & Hclean).
simpl in Hbk, Hdk, Hclean. fold keys old in Hbk, Hdk, Hclean.
assert (∀ key, filename key ∉ (list_to_set old : gset string) ↔
               filename key ∉ old) as Hset.
{ intros key. by rewrite elem_of_list_to_set. }
split_and!.
- intros k Hk. destruct (Hbk k Hk) as [|(key & f & ? & ? & ? & ?)];
    [by left|].
  right. exists key, f. split_and!; try done. by apply Hset.
- intros p Hp. destruct (Hdk p Hp) as [|(key & ? & ? & ?)]; [by left|].
  right. exists key. split_and!; try done. by apply Hset.
- intros _ He. destruct Hclean as [Hsub Hgone]; [done|].
  split; [done|]. intros key Hk Hfresh. apply Hgone; [done|].
  by apply Hset.
Qed.

Lemma noaa_writes_only_listed_witness :
  let key := "GEFSv12/reforecast/2019/20190101/c00/hs.grib2" in
  let s0 := State () [] {["/tmp/hs.nc"]} ∅ [key] Missing in
  let res := Noaa.main s0 in
  let keys := noaa_keys s0 in
  let old := persisted (ledger_file s0) in
  (∀ k, k ∈ dest_bucket res.1.2 →
     k ∈ dest_bucket s0
     ∨ ∃ key folder, key ∈ keys ∧ (filename key ∉ old)
                     ∧ date_folder key = inr folder
                     ∧ k = dest_key key folder)
  ∧ (∀ p, p ∈ disk res.1.2 →
       p ∈ disk s0
       ∨ ∃ key, key ∈ keys ∧ (filename key ∉ old) ∧ p = local_nc_path key)
  ∧ (res.1.1 = Finished → errors res.2 = [] →
       (∀ p, p ∈ disk res.1.2 → p ∈ disk s0)
       ∧ ∀ key, key ∈ keys → filename key ∉ old →
                local_nc_path key ∉ disk res.1.2).
Proof.
intros key s0 res.
apply (noaa_writes_only_listed s0 res.1.1 res.1.2 res.2).
vm_compute; reflexivity.
Defined.

End NoaaFrame.

(** ** The NOAA checkpoint file and the set in memory *)

Section NoaaSync.
Import Noaa.

Lemma dumps_app a b : dumps (a ++ b) = dumps a ++ dumps b.
Proof. unfold dumps. by rewrite calls_app, filter_app. Qed.

Lemma dumps_elem_of evs ids o :
  (JsonDump ids, o) ∈ calls evs → (JsonDump ids, o) ∈ dumps evs.
Proof. intros H. unfold dumps. by apply list_elem_of_filter. Qed.

Ltac no_dump := left; rewrite ?dumps_app; split_and!; done.

(** The checkpoint writes of one pass through the [try] block: none, and
    the set and the file are untouched; or one, of the set with the file
    name added. *)
Lemma try_block_dumps key (s : St) :
  runs (try_block key) s (λ r s' evs,
    (dumps evs = [] ∧ globals s' = globals s
     ∧ ledger_file s' = ledger_file s)
    ∨ ∃ o, dumps evs = [(JsonDump (elements (globals s')), o)]
           ∧ globals s' = {[filename key]} ∪ globals s
           ∧ (o = Success →
              ledger_file s' = Json (elements (globals s')))).
Proof.
unfold try_block, get_object, body_read, xr_open_dataset, ds_sel,
  to_netcdf, upload_file, os_remove.
eapply runs_bind; [reflexivity|]. cbv beta iota.
ext_step o1 sc1 H1. destruct o1 as [|e1 p1]; [|no_dump].
ext_step o2 sc2 H2. destruct o2 as [|e2 p2]; [|no_dump].
ext_step o3 sc3 H3. destruct o3 as [|e3 p3]; [|no_dump].
ext_step o4 sc4 H4. destruct o4 as [|e4 p4]; [|no_dump].
eapply runs_bind; [reflexivity|].
destruct (date_folder key) as [e|folder] eqn:Hfolder; [no_dump|].
ext_step o5 sc5 H5. destruct o5 as [|e5 [|]]; [|no_dump..].
ext_step o6 sc6 H6. destruct o6 as [|e6 p6]; [|no_dump].
ext_step o7 sc7 H7. destruct o7 as [|e7 p7]; [|no_dump].
eapply runs_bind; [reflexivity|]. cbv beta iota.
match goal with |- runs _ ?st _ =>
  destruct (dump_globals_run (λ g : gset string, elements g) st)
    as (o8 & sc8 & H8) end.
eapply runs_bind; [exact H8|].
destruct o8 as [|e8 [|]].
- eapply runs_intro; [reflexivity|]. right. exists Success.
  split_and!; done.
- right. eexists. split_and!; done.
- right. eexists. split_and!; done.
Qed.

Lemma process_file_dumps key (s : St) :
  runs (process_file key) s (λ r s' evs,
    r = inr ()
    ∧ ((dumps evs = [] ∧ globals s' = globals s
        ∧ ledger_file s' = ledger_file s)
       ∨ ∃ o, dumps evs = [(JsonDump (elements (globals s')), o)]
              ∧ (o = Success →
                 ledger_file s' = Json (elements (globals s'))))).
Proof.
destruct (decide (filename key ∈ globals s)) as [Hin|Hin].
- eapply runs_intro; [by apply process_file_skip|]. split; [done|by left].
- destruct (try_block_dumps key s) as (r1 & s1 & evs1 & Hrun & Hcase).
  eapply runs_intro; [by apply (process_file_try _ _ _ _ _ Hin Hrun)|].
  split; [done|].
  assert (dumps (match r1 with
                 | inl e => evs1 ++ [Print (error_line key e)]
                 | inr _ => evs1
                 end) = dumps evs1) as ->.
  { destruct r1; [|done]. by rewrite dumps_app, app_nil_r. }
  destruct Hcase as [?|(o & ? & _ & ?)]; [by left|right; by exists o].
Qed.

Lemma files_sync keys : ∀ s,
  runs (for_each process_file keys) s (files_sync_post s).
Proof.
induction keys as [|key keys IH]; intros s.
{ eapply runs_intro; [reflexivity|]. split_and!; try done.
  by intros ids o []%elem_of_nil. }
simpl.
destruct (process_file_dumps key s) as (r1 & s1 & evs1 & Hrun & -> & Hcase).
eapply runs_bind; [exact Hrun|]. cbv beta iota.
destruct (files_run keys s1) as (r & s' & evs & Hloop & Hsum).
destruct (runs_det _ _ _ _ _ _ (IH s1) Hloop) as (Hnone & Hok & Hids).
destruct Hsum as (_ & _ & _ & Hmono & _).
eapply runs_intro; [exact Hloop|]. split_and!.
- rewrite dumps_app. intros [H1 H2]%app_eq_nil.
  destruct (Hnone H2) as [-> ->].
  destruct Hcase as [(_ & ? & ?)|(o & Ho & _)]; [done|].
  by rewrite Ho in H1.
- intros c. rewrite dumps_app, last_app.
  destruct (last (dumps evs)) as [co|] eqn:Hlast.
  + intros [= ->]. by apply (Hok c).
  + apply last_None in Hlast. destruct (Hnone Hlast) as [-> ->].
    destruct Hcase as [(H1 & _)|(o & Ho & Hsync)]; [by rewrite H1|].
    rewrite Ho. intros [= _ ->]. by apply Hsync.
- intros ids o. rewrite calls_app. intros [Hin|Hin]%elem_of_app.
  + apply dumps_elem_of in Hin.
    destruct Hcase as [(H1 & _)|(o' & Ho & _)].
    { rewrite H1 in Hin. by apply elem_of_nil in Hin. }
    rewrite Ho in Hin. apply list_elem_of_singleton in Hin as [= -> _].
    intros id Hid%elem_of_elements. by apply Hmono.
  + by apply (Hids ids o).
Qed.

(** X19 the NOAA checkpoint repairs itself: when the last checkpoint
    write of a run succeeded, the file holds exactly the set in memory at
    the end of the run.  That set holds every name the file held before
    the run and every name that any checkpoint write of the run tried to
    record, so the names whose own write had failed are in the file
    again. *)
Theorem checkpoint_repaired_by_later_write {G0} (s0 : state G0) r s evs c :
  Noaa.main s0 = (r, s, evs) →
  last (dumps evs) = Some (c, Success) →
  ledger_file s = Json (elements (globals s))
  ∧ (∀ id, id ∈ persisted (ledger_file s0) →
           id ∈ persisted (ledger_file s))
  ∧ (∀ ids o, (JsonDump ids, o) ∈ calls evs →
       ∀ id, id ∈ ids → id ∈ persisted (ledger_file s)).
Proof.
intros Hmain Hlast.
destruct (decide (ledger_file s0 = Garbled)) as [Hg|Hg].
{ destruct (noaa_main_garbled s0 Hg) as [e He].
  rewrite He in Hmain. by simplify_eq. }
destruct (noaa_main_run s0 Hg) as (o & sc & Hrun).
destruct o as [|e p].
2:{ rewrite Hrun in Hmain. by simplify_eq. }
destruct Hrun as (s' & evs' & Hloop & Hsum & Hrun).
rewrite Hrun in Hmain. simplify_eq.
rewrite dumps_app in Hlast. simpl in Hlast.
destruct (runs_det _ _ _ _ _ _ (files_sync _ _) Hloop) as (_ & Hok & Hids).
destruct Hsum as (_ & _ & _ & Hmono & _). simpl in Hmono.
rewrite (Hok c Hlast). simpl. split_and!; [done|..].
- intros id Hid. apply elem_of_elements, Hmono.
  by apply elem_of_list_to_set.
- intros ids o [[=]|Hin]%elem_of_cons.
  intros id Hid. apply elem_of_elements. by apply (Hids ids o).
Qed.

Lemma checkpoint_repaired_by_later_write_witness :
  let full := Exn "OSError" "No space left on device" in
  let k1 := "GEFSv12/reforecast/2019/20190101/c00/a.grib2" in
  let k2 := "GEFSv12/reforecast/2019/20190101/c00/b.grib2" in
  let s0 := State () [Success; Success; Success; Success; Success; Success;
                      Success; Success; Failure full true] ∅ ∅ [k1; k2]
                  Missing in
  let res := Noaa.main s0 in
  res.1.1 = Finished
  ∧ (JsonDump ["a.grib2"], Failure full true) ∈ calls res.2
  ∧ ledger_file res.1.2 = Json (elements (globals res.1.2))
  ∧ (∀ id, id ∈ persisted (ledger_file s0) →
           id ∈ persisted (ledger_file res.1.2))
  ∧ (∀ ids o, (JsonDump ids, o) ∈ calls res.2 →
       ∀ id, id ∈ ids → id ∈ persisted (ledger_file res.1.2)).
Proof.
intros full k1 k2 s0 res.
split; [vm_compute; reflexivity|].
split; [vm_compute; do 8 right; left|].
apply (checkpoint_repaired_by_later_write s0 res.1.1 res.1.2 res.2
         (JsonDump (elements (globals res.1.2)))).
- vm_compute; reflexivity.
- vm_compute; reflexivity.
Defined.

End NoaaSync.

(** ** s3_setup.py: what [create_panthalassa_buckets] does to the buckets *)

Section S3SetupFacts.
Import S3Setup.

Example setup_from_nothing :
  let res := create_panthalassa_buckets (World ∅ []) in
  res.1.1 = None
  ∧ buckets res.1.2 !! "panthalassa-ocean-processed"
    = Some {[ "wave_power_flux/"; "monthly_aggregations/"; "spatial_subsets/" ]}
  ∧ length res.2 = 28%nat.
Proof. vm_compute. split_and!; reflexivity. Qed.

Lemma next_answer_buckets w o w1 :
  next_answer w = (o, w1) → buckets w1 = buckets w.
Proof.
unfold next_answer. destruct (answers w); by intros [= <- <-].
Qed.

Lemma creations_app a b : creations (a ++ b) = creations a ++ creations b.
Proof. apply omap_app. Qed.

Lemma puts_app a b : puts (a ++ b) = puts a ++ puts b.
Proof. apply omap_app. Qed.

Lemma failures_app a b : failures (a ++ b) = failures a ++ failures b.
Proof. apply omap_app. Qed.

(** [put_object] changes the one bucket it is called on, and only when it
    succeeds. *)
Lemma put_object_frame n k w o w1 :
  put_object n k w = (o, w1) →
  (∀ b, b ≠ n → buckets w1 !! b = buckets w !! b)
  ∧ match o with
    | None => ∃ keys, buckets w !! n = Some keys
                      ∧ buckets w1 !! n = Some ({[k]} ∪ keys)
    | Some _ => buckets w1 = buckets w
    end.
Proof.
unfold put_object.
destruct (next_answer w) as [[f|] w0] eqn:Hnext;
  apply next_answer_buckets in Hnext.
{ intros [= <- <-]. by rewrite Hnext. }
destruct (buckets w0 !! n) as [keys|] eqn:Hn.
- intros [= <- <-]. simpl. split.
  + intros b Hb. by rewrite lookup_insert_ne, Hnext.
  + exists keys. rewrite <- Hnext. split; [done|]. by rewrite lookup_insert_eq.
- intros [= <- <-]. by rewrite Hnext.
Qed.

(** The folders loop: it touches no other bucket, calls only [put_object]
    on its own bucket, and leaves in it what was there and the folders of
    a first part of its list; the whole list when nothing failed. *)
Lemma create_folders_frame n fs : ∀ w r w' evs keys,
  create_folders n fs w = (r, w', evs) →
  buckets w !! n = Some keys →
  (∀ b, b ≠ n → buckets w' !! b = buckets w !! b)
  ∧ creations evs = []
  ∧ Forall (λ bk, bk.1 = n) (puts evs)
  ∧ (∃ j, buckets w' !! n = Some (list_to_set (take j fs) ∪ keys)
          ∧ (r = None → take j fs = fs))
  ∧ match r with
    | None => failures evs = []
    | Some f => failures evs = [f]
    end.
Proof.
induction fs as [|folder rest IH]; intros w r w' evs keys Hrun Hn;
  simpl in Hrun.
{ injection Hrun as <- <- <-. split_and!; try done.
  exists 0%nat. split; [|done]. simpl. by rewrite Hn, (left_id_L ∅ (∪)). }
destruct (put_object n folder w) as [[f|] w1] eqn:Hput;
  destruct (put_object_frame _ _ _ _ _ Hput) as [Hother Hown].
- injection Hrun as <- <- <-. split_and!; try done.
  + by repeat constructor.
  + exists 0%nat. split; [|done]. simpl.
    by rewrite Hown, Hn, (left_id_L ∅ (∪)).
- destruct Hown as (keys0 & Hk0 & Hk1). rewrite Hn in Hk0.
  injection Hk0 as <-.
  destruct (create_folders n rest w1) as [[r2 w2] evs2] eqn:Hrest.
  injection Hrun as <- <- <-.
  destruct (IH _ _ _ _ _ Hrest Hk1)
    as (Hother2 & Hcre & Hputs & (j & Hkeys & Hall) & Hfail).
  split_and!; try done.
  + intros b Hb. by rewrite Hother2, Hother.
  + by constructor.
  + exists (S j). simpl. split.
    * rewrite Hkeys. f_equal.
      rewrite (assoc_L (∪)), (comm_L (∪) (list_to_set _)). done.
    * intros Hr. by rewrite (Hall Hr).
Qed.

Lemma location_is_region :
  (if String.eqb region_name "us-east-1" then None else Some region_name)
  = Some region_name.
Proof. reflexivity. Qed.

(** One pass through the [try]: one [create_bucket] call with the region
    as location constraint; a bucket that exists is left as it is and no
    object is put; a bucket that is created gets the folders of a first
    part of the list. *)
Lemma try_body_frame cfg w o w1 evs :
  try_body cfg w = (o, w1, evs) →
  creations evs = [(name cfg, Some region_name)]
  ∧ (∀ b, b ≠ name cfg → buckets w1 !! b = buckets w !! b)
  ∧ Forall (λ bk, bk.1 = name cfg) (puts evs)
  ∧ match o with
    | None => failures evs = []
    | Some f => failures evs = [f]
    end
  ∧ match buckets w !! name cfg with
    | Some keys =>
        buckets w1 !! name cfg = Some keys ∧ puts evs = []
        ∧ ∃ f, o = Some f ∧ (answers w = [] → f = already_owned)
    | None =>
        (buckets w1 !! name cfg = None ∧ ∃ f, o = Some f)
        ∨ ∃ j, buckets w1 !! name cfg
               = Some (list_to_set (take j (folders cfg)))
               ∧ (o = None → take j (folders cfg) = folders cfg)
    end.
Proof.
unfold try_body. rewrite location_is_region. unfold create_bucket.
destruct (next_answer w) as [[f|] w0] eqn:Hnext.
{ pose proof (next_answer_buckets _ _ _ Hnext) as Hb.
  intros [= <- <- <-]. rewrite Hb. split_and!; try done.
  destruct (buckets w !! name cfg) as [keys|] eqn:Hown.
  - split_and!; try done. exists f. split; [done|].
    intros Hnil. unfold next_answer in Hnext. by rewrite Hnil in Hnext.
  - left. split; [done|]. by exists f. }
pose proof (next_answer_buckets _ _ _ Hnext) as Hb.
destruct (decide (name cfg ∈ dom (buckets w0))) as [Hin|Hin].
{ intros [= <- <- <-]. rewrite Hb. split_and!; try done.
  rewrite Hb in Hin. apply elem_of_dom in Hin as [keys Hown].
  rewrite Hown. split_and!; try done. by exists already_owned. }
rewrite Hb in Hin. apply not_elem_of_dom in Hin.
match goal with |- context [create_folders ?n ?fs ?w'] =>
  destruct (create_folders n fs w') as [[r2 w2] evs2] eqn:Hfold end.
intros [= <- <- <-].
destruct (create_folders_frame _ _ _ _ _ _ ∅ Hfold)
  as (Hother & Hcre & Hputs & (j & Hkeys & Hall) & Hfail).
{ simpl. by rewrite lookup_insert_eq. }
simpl. rewrite Hcre. split_and!; try done.
- intros b Hne. rewrite Hother by done. simpl.
  by rewrite lookup_insert_ne, Hb.
- rewrite Hin. right. exists j. split; [|done].
  by rewrite Hkeys, (right_id_L ∅ (∪)).
Qed.

Lemma handler_events cfg f raised evs :
  handler cfg f = (raised, evs) →
  creations evs = [] ∧ puts evs = [] ∧ failures evs = []
  ∧ match f with
    | ClientError _ _ => raised = None
    | OtherError e => raised = Some e
    end.
Proof. destruct f; by intros [= <- <-]. Qed.

(** The loop over the configurations [cfgs]. *)
Lemma create_loop_frame cfgs : ∀ w r w' evs,
  create_loop cfgs w = (r, w', evs) →
  (∀ b keys, buckets w !! b = Some keys →
     buckets w' !! b = Some keys ∧ ∀ k, (b, k) ∉ puts evs)
  ∧ (∀ b keys, buckets w !! b = None → buckets w' !! b = Some keys →
       ∃ cfg j, cfg ∈ cfgs ∧ b = name cfg
                ∧ keys = list_to_set (take j (folders cfg))
                ∧ (failures evs = [] → keys = list_to_set (folders cfg)))
  ∧ (r = None ↔ Forall is_client_error (failures evs))
  ∧ (r = None →
       creations evs = (λ cfg, (name cfg, Some region_name)) <$> cfgs)
  ∧ (∀ e, r = Some e → last (failures evs) = Some (OtherError e))
  ∧ (failures evs = [] → ∀ cfg, cfg ∈ cfgs → name cfg ∈ dom (buckets w')).
Proof.
induction cfgs as [|cfg cfgs IH]; intros w r w' evs Hrun; simpl in Hrun.
{ injection Hrun as <- <- <-. split_and!; try done.
  - intros b keys Hb. split; [done|]. by intros k ?%elem_of_nil.
  - by intros b keys ->.
  - by intros _ cfg ?%elem_of_nil. }
destruct (try_body cfg w) as [[o w1] evs1] eqn:Htry.
destruct (try_body_frame _ _ _ _ _ Htry)
  as (Hcre1 & Hother1 & Hputs1 & Hfail1 & Hown1).
assert (∀ b keys, buckets w !! b = Some keys →
          buckets w1 !! b = Some keys ∧ ∀ k, (b, k) ∉ puts evs1) as Hkeep1.
{ intros b keys Hb. destruct (decide (b = name cfg)) as [->|Hne].
  - rewrite Hb in Hown1. destruct Hown1 as (-> & -> & _).
    split; [done|]. by intros k ?%elem_of_nil.
  - rewrite Hother1 by done. split; [done|]. intros k Hk.
    rewrite Forall_forall in Hputs1. by apply Hputs1 in Hk. }
destruct o as [f|].
- destruct (handler cfg f) as [raised evs2] eqn:Hh.
  destruct (handler_events _ _ _ _ Hh) as (Hcre2 & Hputs2 & Hfail2 & Hraised).
  destruct raised as [e|].
  + injection Hrun as <- <- <-.
    rewrite puts_app, failures_app, Hputs2, Hfail2, Hfail1, !app_nil_r.
    destruct f as [code text|e']; [done|]. injection Hraised as ->.
    split_and!; try done.
    * intros b keys Hnone Hsome.
      destruct (decide (b = name cfg)) as [->|Hne].
      -- rewrite Hnone in Hown1.
         destruct Hown1 as [[Hn _]|(j & Hj & Hall)]; [congruence|].
         exists cfg, j. split_and!; [by left|done|congruence|done].
      -- rewrite Hother1 in Hsome by done. congruence.
    * split; [done|]. intros Hall. by apply Forall_cons in Hall as [[] _].
    * by intros e [= ->].
  + destruct (create_loop cfgs w1) as [[r3 w3] evs3] eqn:Hrest.
    injection Hrun as <- <- <-.
    destruct (IH _ _ _ _ Hrest) as (Hkeep & Hnew & Hret & Hcre & Hexc & Hdom).
    rewrite !puts_app, !failures_app, !creations_app.
    rewrite Hputs2, Hfail2, Hcre2, Hfail1, Hcre1. simpl.
    destruct f as [code text|e']; [|done].
    split_and!.
    * intros b keys Hb. destruct (Hkeep1 b keys Hb) as [Hb1 Hno1].
      destruct (Hkeep b keys Hb1) as [Hb3 Hno3]. split; [done|].
      intros k [?|?]%elem_of_app; [by apply (Hno1 k)|by apply (Hno3 k)].
    * intros b keys Hnone Hsome.
      destruct (buckets w1 !! b) as [keys1|] eqn:Hb1.
      -- destruct (Hkeep b keys1 Hb1) as [Hb3 _].
         assert (keys1 = keys) as -> by congruence.
         destruct (decide (b = name cfg)) as [->|Hne];
           [|rewrite Hother1 in Hb1 by done; congruence].
         rewrite Hnone in Hown1.
         destruct Hown1 as [[Hn _]|(j & Hj & _)]; [congruence|].
         exists cfg, j. split_and!; [by left|done|congruence|done].
      -- destruct (Hnew b keys Hb1 Hsome) as (cfg' & j & ? & ? & ? & _).
         exists cfg', j. split_and!; [by right|done|done|done].
    * rewrite Hret. split; [by constructor|]. by intros [_ ?]%Forall_cons.
    * intros Hr. by rewrite (Hcre Hr).
    * intros e Hr. pose proof (Hexc e Hr) as Hlast.
      by destruct (failures evs3).
    * done.
- destruct (create_loop cfgs w1) as [[r3 w3] evs3] eqn:Hrest.
  injection Hrun as <- <- <-. simpl.
  destruct (IH _ _ _ _ Hrest) as (Hkeep & Hnew & Hret & Hcre & Hexc & Hdom).
  rewrite !puts_app, !failures_app, !creations_app, Hfail1, Hcre1. simpl.
  split_and!; try done.
  + intros b keys Hb. destruct (Hkeep1 b keys Hb) as [Hb1 Hno1].
    destruct (Hkeep b keys Hb1) as [Hb3 Hno3]. split; [done|].
    intros k [?|?]%elem_of_app; [by apply (Hno1 k)|by apply (Hno3 k)].
  + intros b keys Hnone Hsome.
    destruct (buckets w1 !! b) as [keys1|] eqn:Hb1.
    * destruct (Hkeep b keys1 Hb1) as [Hb3 _].
      assert (keys1 = keys) as -> by congruence.
      destruct (decide (b = name cfg)) as [->|Hne];
        [|rewrite Hother1 in Hb1 by done; congruence].
      rewrite Hnone in Hown1.
      destruct Hown1 as [[Hn _]|(j & Hj & Hall)]; [congruence|].
      exists cfg, j. split_and!; [by left|done|congruence|].
      intros _. rewrite <- (Hall eq_refl). congruence.
    * destruct (Hnew b keys Hb1 Hsome) as (cfg' & j & ? & ? & ? & ?).
      exists cfg', j. split_and!; [by right|done|done|done].
  + intros Hr. by rewrite (Hcre Hr).
  + intros Hnil cfg' [Heq|Hc]%elem_of_cons; [subst cfg'|by apply Hdom].
    destruct (buckets w !! name cfg) as [keys|] eqn:Hb.
    * by destruct Hown1 as (_ & _ & f & [=] & _).
    * destruct Hown1 as [[_ [f [=]]]|(j & Hj & _)].
      apply elem_of_dom. destruct (Hkeep _ _ Hj) as [-> _]. by eexists.
Qed.

(** A bucket that exists, asked for again with nothing failing on the
    way: the service refuses, the world stays as it is. *)
Lemma try_body_owned cfg w :
  name cfg ∈ dom (buckets w) → answers w = [] →
  try_body cfg w
  = (Some already_owned, w,
     [Called (CreateBucket (name cfg) (Some region_name))
        (Some already_owned)]).
Proof.
intros Hin Hnil. unfold try_body. rewrite location_is_region.
unfold create_bucket, next_answer. rewrite Hnil.
by rewrite decide_True.
Qed.

Lemma create_loop_owned cfgs : ∀ w,
  (∀ cfg, cfg ∈ cfgs → name cfg ∈ dom (buckets w)) → answers w = [] →
  create_loop cfgs w
  = (None, w,
     cfgs ≫= λ cfg,
       [Called (CreateBucket (name cfg) (Some region_name))
          (Some already_owned);
        Printed ("Bucket " +:+ name cfg +:+ " already exists")]).
Proof.
induction cfgs as [|cfg cfgs IH]; intros w Hall Hnil; [done|].
simpl. rewrite try_body_owned by (done || apply Hall; by left).
simpl. by rewrite IH by (done || intros c Hc; apply Hall; by right).
Qed.

(** X20 a bucket that exists is never touched: whatever the answers of
    the service, [create_panthalassa_buckets] puts no object into a bucket
    the caller owned before the call and leaves its keys as they were.
    So the folders missing from a bucket that exists, also from one that
    an earlier run created and could not fill, are not created by running
    the set-up again. *)
Theorem existing_bucket_untouched (w : world) r w' evs (b : string)
    (keys : gset string) :
  create_panthalassa_buckets w = (r, w', evs) →
  buckets w !! b = Some keys →
  buckets w' !! b = Some keys ∧ ∀ k, (b, k) ∉ puts evs.
Proof.
intros Hrun Hb.
destruct (create_loop_frame _ _ _ _ _ Hrun) as (Hkeep & _).
by apply Hkeep.
Qed.

Lemma existing_bucket_untouched_witness :
  let b := "panthalassa-ocean-raw-data" in
  let w := World {[ b := {[ "copernicus_raw/" ]} ]} [] in
  let res := create_panthalassa_buckets w in
  buckets res.1.2 !! b = Some {[ "copernicus_raw/" ]}
  ∧ ∀ k, (b, k) ∉ puts res.2.
Proof.
intros b w res.
apply (existing_bucket_untouched w res.1.1 res.1.2 res.2 b
         {[ "copernicus_raw/" ]}); vm_compute; reflexivity.
Defined.

(** X21 which failures stop the set-up: [create_panthalassa_buckets]
    returns exactly when every failure of its calls was a [ClientError];
    it has then asked for each of the three buckets once, in the order of
    the list and with the region us-east-2 as location constraint,
    whatever failed in between.  Any other exception goes on to the
    caller, as the last failure of the run. *)
Theorem client_errors_do_not_stop (w : world) r w' evs :
  create_panthalassa_buckets w = (r, w', evs) →
  (r = None ↔ Forall is_client_error (failures evs))
  ∧ (r = None →
     creations evs
     = [("panthalassa-ocean-raw-data", Some "us-east-2");
        ("panthalassa-ocean-processed", Some "us-east-2");
        ("panthalassa-ocean-results", Some "us-east-2")])
  ∧ (∀ e, r = Some e → last (failures evs) = Some (OtherError e)).
Proof.
intros Hrun.
destruct (create_loop_frame _ _ _ _ _ Hrun) as (_ & _ & Hret & Hcre & Hexc & _).
split_and!; done.
Qed.

Lemma client_errors_do_not_stop_witness :
  let denied :=
    ClientError "AccessDenied"
      "An error occurred (AccessDenied) when calling the CreateBucket operation: Access Denied" in
  let res := create_panthalassa_buckets (World ∅ [Some denied]) in
  res.1.1 = None
  ∧ (res.1.1 = None ↔ Forall is_client_error (failures res.2))
  ∧ (res.1.1 = None →
     creations res.2
     = [("panthalassa-ocean-raw-data", Some "us-east-2");
        ("panthalassa-ocean-processed", Some "us-east-2");
        ("panthalassa-ocean-results", Some "us-east-2")])
  ∧ (∀ e, res.1.1 = Some e → last (failures res.2) = Some (OtherError e)).
Proof.
intros denied res. split; [vm_compute; reflexivity|].
apply (client_errors_do_not_stop (World ∅ [Some denied])
         res.1.1 res.1.2 res.2).
vm_compute; reflexivity.
Defined.

(** X22 what a bucket created by the set-up holds: a bucket that did not
    exist before the call and exists after it is one of the configured
    buckets and holds the folders of a first part of its folder list and
    nothing else; the whole list when no call of the run failed. *)
Theorem created_bucket_folders (w : world) r w' evs (b : string)
    (keys : gset string) :
  create_panthalassa_buckets w = (r, w', evs) →
  buckets w !! b = None → buckets w' !! b = Some keys →
  ∃ cfg j, cfg ∈ bucket_configs ∧ b = name cfg
           ∧ keys = list_to_set (take j (folders cfg))
           ∧ (failures evs = [] → keys = list_to_set (folders cfg)).
Proof.
intros Hrun Hnone Hsome.
destruct (create_loop_frame _ _ _ _ _ Hrun) as (_ & Hnew & _).
by apply (Hnew b keys).
Qed.

Lemma created_bucket_folders_witness :
  let slow :=
    ClientError "SlowDown"
      "An error occurred (SlowDown) when calling the PutObject operation: Please reduce your request rate." in
  let w := World ∅ [None; None; None; Some slow] in
  let res := create_panthalassa_buckets w in
  let b := "panthalassa-ocean-raw-data" in
  let keys : gset string := {[ "copernicus_raw/"; "noaa_wave_data/" ]} in
  ∃ cfg j, cfg ∈ bucket_configs ∧ b = name cfg
           ∧ keys = list_to_set (take j (folders cfg))
           ∧ (failures res.2 = [] → keys = list_to_set (folders cfg)).
Proof.
intros slow w res b keys.
apply (created_bucket_folders w res.1.1 res.1.2 res.2 b keys);
  vm_compute; reflexivity.
Defined.

(** X23 the set-up run twice: after a run in which no call failed, a
    second run in which nothing fails on the way to the service creates
    nothing and puts nothing; it is told three times that the bucket is
    owned already, prints the three "already exists" lines and leaves the
    buckets as the first run left them. *)
Theorem setup_twice (w : world) w1 evs1 :
  create_panthalassa_buckets w = (None, w1, evs1) →
  failures evs1 = [] →
  let w2 := World (buckets w1) [] in
  create_panthalassa_buckets w2
  = (None, w2,
     bucket_configs ≫= λ cfg,
       [Called (CreateBucket (name cfg) (Some "us-east-2"))
          (Some already_owned);
        Printed ("Bucket " +:+ name cfg +:+ " already exists")]).
Proof.
intros Hrun Hfail w2.
destruct (create_loop_frame _ _ _ _ _ Hrun) as (_ & _ & _ & _ & _ & Hdom).
apply create_loop_owned; [|done].
intros cfg Hcfg. by apply Hdom.
Qed.

Lemma setup_twice_witness :
  let w1 := (create_panthalassa_buckets (World ∅ [])).1.2 in
  let w2 := World (buckets w1) [] in
  create_panthalassa_buckets w2
  = (None, w2,
     bucket_configs ≫= λ cfg,
       [Called (CreateBucket (name cfg) (Some "us-east-2"))
          (Some already_owned);
        Printed ("Bucket " +:+ name cfg +:+ " already exists")]).
Proof.
intros w1.
apply (setup_twice (World ∅ []) w1
         (create_panthalassa_buckets (World ∅ [])).2);
  vm_compute; reflexivity.
Defined.

End S3SetupFacts.

(** ** The scripts when no call fails *)

Section Happy.
Import Copernicus.

Lemma transfer_happy c (s : St) :
  script s = [] →
  ∃ evs, transfer c s
    = (inr (),
       State (globals s ++ [chunk_name c]) []
         (({[temp_file c]} ∪ disk s) ∖ {[temp_file c]})
         ({[s3_key c]} ∪ dest_bucket s) (source_bucket s)
         (Json (globals s ++ [chunk_name c])), evs)
    ∧ Forall (λ co, co.2 = Success) (calls evs).
Proof.
destruct s as [g sc d bk src lf]. simpl. intros ->.
eexists. split; [reflexivity|]. simpl. repeat constructor.
Qed.

End Happy.

Section HappyNoaa.
Import Noaa.
Lemma try_block_happy key folder (s : St) :
  script s = [] → date_folder key = inr folder →
  ∃ evs, try_block key s
    = (inr (),
       State ({[filename key]} ∪ globals s) []
         (({[local_nc_path key]} ∪ disk s) ∖ {[local_nc_path key]})
         ({[dest_key key folder]} ∪ dest_bucket s) (source_bucket s)
         (Json (elements ({[filename key]} ∪ globals s))), evs)
    ∧ errors evs = [].
Proof.
destruct s as [g sc d bk src lf]. simpl. intros -> Hf.
unfold try_block, bind. simpl. rewrite Hf.
eexists. split; [reflexivity|]. reflexivity.
Qed.
End HappyNoaa.

Section HappyLoops.

Lemma loop_happy cs : ∀ s : Copernicus.St,
  script s = [] →
  ∃ s' evs, for_each Copernicus.process_chunk cs s = (inr (), s', evs)
            ∧ script s' = [].
Proof.
induction cs as [|c cs IH]; intros s Hs; [by eexists _, _|].
simpl. destruct (decide (Copernicus.chunk_name c ∈ globals s)) as [Hin|Hin].
- destruct (IH s Hs) as (s' & evs & Hrun & Hs').
  exists s'. eexists. split; [|done].
  unfold bind. rewrite (process_chunk_skip c s Hin), Hrun. done.
- destruct (transfer_happy c s Hs) as (evs1 & Hrun1 & _).
  match type of Hrun1 with _ = (_, ?st, _) =>
    destruct (IH st eq_refl) as (s' & evs & Hrun & Hs') end.
  exists s'. eexists. split; [|done].
  unfold bind. rewrite (process_chunk_transfer c s Hin), Hrun1, Hrun. done.
Qed.

Lemma plan_happy (s : Noaa.St) :
  script s = [] →
  Noaa.plan s
  = (inr (noaa_keys s), s, [Call (ListObjectsV2 Noaa.source_prefix) Success]).
Proof. destruct s as [g sc d bk src lf]. simpl. by intros ->. Qed.

Lemma noaa_main_happy {G0} (s0 : state G0) g s evs :
  script s0 = [] →
  Noaa.load_checkpoint (ledger_file s0) = inr g →
  for_each Noaa.process_file (noaa_keys s0) (set_globals g s0)
  = (inr (), s, evs) →
  Noaa.main s0
  = (Finished, s,
     [Call (ListObjectsV2 Noaa.source_prefix) Success;
      Print (Noaa.found_line (length (noaa_keys s0)))] ++ evs).
Proof.
intros Hs Hload Hloop. unfold Noaa.main. rewrite Hload.
unfold bind. rewrite plan_happy by done.
change (noaa_keys (set_globals g s0)) with (noaa_keys s0).
unfold print, emit. by rewrite Hloop.
Qed.

Lemma files_happy keys : ∀ s : Noaa.St,
  script s = [] →
  (∀ k, k ∈ keys → ∃ folder, Noaa.date_folder k = inr folder) →
  NoDup (Noaa.filename <$> keys) →
  ∃ s' evs, for_each Noaa.process_file keys s = (inr (), s', evs)
    ∧ script s' = [] ∧ errors evs = []
    ∧ ∀ k folder, k ∈ keys → Noaa.filename k ∉ globals s →
        Noaa.date_folder k = inr folder →
        Noaa.dest_key k folder ∈ dest_bucket s'.
Proof.
induction keys as [|key keys IH]; intros s Hs Hfold Hnd.
{ eexists _, _. split_and!; try done. by intros k f ?%elem_of_nil. }
simpl in Hnd. apply NoDup_cons in Hnd as [Hfresh Hnd].
assert (∀ k, k ∈ keys → ∃ folder, Noaa.date_folder k = inr folder) as Hfold'.
{ intros k Hk. apply Hfold. by right. }
simpl. destruct (decide (Noaa.filename key ∈ globals s)) as [Hin|Hin].
- destruct (IH s Hs Hfold' Hnd) as (s' & evs & Hrun & Hs' & He & Hbk).
  exists s'. eexists. split_and!.
  + unfold bind. rewrite (process_file_skip key s Hin), Hrun. done.
  + done.
  + done.
  + intros k folder [->|Hk]%elem_of_cons Hk' Hf; [done|]. by apply (Hbk k).
- destruct (Hfold key) as [folder Hf]; [by left|].
  destruct (try_block_happy key folder s Hs Hf) as (evs1 & Hrun1 & He1).
  pose proof (process_file_try key s _ _ _ Hin Hrun1) as Hrun1'.
  match type of Hrun1 with _ = (_, ?st, _) =>
    destruct (IH st eq_refl Hfold' Hnd) as (s' & evs & Hrun & Hs' & He & Hbk);
    destruct (files_run keys st) as (r2 & s2 & evs2 & Hrun2 & Hsum)
  end.
  rewrite Hrun in Hrun2. simplify_eq.
  destruct Hsum as (_ & _ & Hmono & _). simpl in Hmono.
  exists s2. eexists. split_and!.
  + unfold bind. rewrite Hrun1', Hrun. done.
  + done.
  + by rewrite errors_app, He1, He.
  + intros k folder' [->|Hk]%elem_of_cons Hk' Hf'.
    * assert (folder' = folder) as -> by congruence.
      apply Hmono, elem_of_union_l. by apply elem_of_singleton.
    * apply (Hbk k); [done| |done]. simpl.
      rewrite elem_of_union, elem_of_singleton. intros [Heq|?]; [|done].
      apply Hfresh. rewrite <- Heq. by apply list_elem_of_fmap_2.
Qed.

End HappyLoops.

Section HappyPaths.

(** X24 the Copernicus script when nothing fails: over a valid range
    that ends by [last_end], started from a readable ledger, the run
    finishes; it attempts exactly the chunks of the plan whose name was
    not in the ledger, in plan order; afterwards the ledger file holds the
    old ids followed by their names, each of them has its object in the
    bucket and no staging file on the disk, and nothing was added to the
    disk. *)
Theorem copernicus_happy_path {G0} (start end_ : datetime) (s0 : state G0) :
  valid start = true → valid end_ = true → le end_ last_end →
  script s0 = [] → ledger_file s0 ≠ Garbled →
  let plan := (generate_chunks start end_).1 in
  let old := persisted (ledger_file s0) in
  let todo := filter (λ c, Copernicus.chunk_name c ∉ old) plan in
  ∃ s evs,
    Copernicus.main start end_ s0 = (Finished, s, evs)
    ∧ persisted (ledger_file s) = old ++ (Copernicus.chunk_name <$> todo)
    ∧ (∀ c, c ∈ todo →
         Copernicus.s3_key c ∈ dest_bucket s
         ∧ Copernicus.temp_file c ∉ disk s)
    ∧ (∀ p, p ∈ disk s → p ∈ disk s0)
    ∧ attempted evs = (Copernicus.processing_line <$> todo).
Proof.
intros Hvs Hve Hlast Hs Hg plan old todo.
assert (∃ cs, generate_chunks start end_ = (cs, GenDone)) as [cs Hgen].
{ destruct (ltb start end_) eqn:Hlt.
  - destruct (generate_chunks_spec start end_ Hvs Hve Hlt Hlast)
      as (cs & Hgen & _). by exists cs.
  - exists []. apply generate_chunks_empty. unfold lt. by rewrite Hlt. }
destruct (loop_happy cs (set_globals old s0) Hs) as (s & evs0 & Hloop & _).
pose proof (copernicus_main_run start end_ s0 cs GenDone _ _ _ Hgen Hg Hloop)
  as Hmain. simpl in Hmain.
exists s, (evs0 ++ [Print Copernicus.banner]). split; [done|].
pose proof (generate_chunks_names start end_ cs GenDone Hvs Hve Hgen) as Hnd.
destruct (runs_det _ _ _ _ _ _ (loop_run cs _ Hnd) Hloop)
  as (done_ & failed & rest & Htodo & (-> & -> & _) & Hatt & Hup & _ & Hl).
destruct (runs_det _ _ _ _ _ _ (loop_frame cs _) Hloop) as [_ [Hsub Hgone]].
simpl in Htodo, Hl, Hgone, Hsub. rewrite !app_nil_r in *.
subst plan todo. rewrite Hgen. simpl. fold old in Htodo, Hl, Hgone.
rewrite Htodo. split_and!.
- destruct Hl as [->|[[e [=]] _]]. destruct done_; simpl; [|done].
  by rewrite app_nil_r.
- intros c Hc. split.
  + rewrite Forall_forall in Hup. by apply Hup.
  + rewrite <- Htodo in Hc. apply list_elem_of_filter in Hc as [Hfresh Hc].
    by apply Hgone.
- done.
- by rewrite attempted_app, Hatt, app_nil_r.
Qed.

Lemma copernicus_happy_path_witness :
  let start := mk 2020 1 1 0 0 0 0 in
  let end_ := mk 2020 3 1 0 0 0 0 in
  let s0 := State () [] ∅ ∅ [] (Json ["20200101_20200201"]) in
  let plan := (generate_chunks start end_).1 in
  let old := persisted (ledger_file s0) in
  let todo := filter (λ c, Copernicus.chunk_name c ∉ old) plan in
  ∃ s evs,
    Copernicus.main start end_ s0 = (Finished, s, evs)
    ∧ persisted (ledger_file s) = old ++ (Copernicus.chunk_name <$> todo)
    ∧ (∀ c, c ∈ todo →
         Copernicus.s3_key c ∈ dest_bucket s
         ∧ Copernicus.temp_file c ∉ disk s)
    ∧ (∀ p, p ∈ disk s → p ∈ disk s0)
    ∧ attempted evs = (Copernicus.processing_line <$> todo).
Proof.
intros start end_ s0.
apply (copernicus_happy_path start end_ s0); reflexivity || done.
Defined.

(** X25 the NOAA script when nothing fails: started from a readable
    checkpoint, with every listed key at least five segments long and no
    two listed keys of the same file name, the run finishes without an
    error line; afterwards the checkpoint file holds the file name of
    every listed key, every listed key whose name was not in the
    checkpoint has its object [dest_key] in the bucket and no staging file
    on the disk, and nothing was added to the disk. *)
Theorem noaa_happy_path {G0} (s0 : state G0) :
  script s0 = [] → ledger_file s0 ≠ Garbled →
  let keys := noaa_keys s0 in
  let old := persisted (ledger_file s0) in
  (∀ k, k ∈ keys → (5 ≤ length (Py.split "/" k))%nat) →
  NoDup (Noaa.filename <$> keys) →
  ∃ s evs,
    Noaa.main s0 = (Finished, s, evs) ∧ errors evs = []
    ∧ (∀ k, k ∈ keys → Noaa.filename k ∈ persisted (ledger_file s))
    ∧ (∀ k folder, k ∈ keys → Noaa.filename k ∉ old →
         Noaa.date_folder k = inr folder →
         Noaa.dest_key k folder ∈ dest_bucket s
         ∧ Noaa.local_nc_path k ∉ disk s)
    ∧ (∀ p, p ∈ disk s → p ∈ disk s0).
Proof.
intros Hs Hg keys old Hlen Hnd.
assert (Noaa.load_checkpoint (ledger_file s0)
        = inr (list_to_set old : gset string)) as Hload.
{ subst old. by destruct (ledger_file s0). }
assert (∀ k, k ∈ keys → ∃ folder, Noaa.date_folder k = inr folder) as Hfold.
{ intros k Hk. unfold Noaa.date_folder.
  destruct (lookup_lt_is_Some_2 (Py.split "/" k) 4) as [seg ->];
    [specialize (Hlen k Hk); lia|by exists seg]. }
destruct (files_happy keys (set_globals (list_to_set old) s0) Hs Hfold Hnd)
  as (s & evs & Hloop & _ & He & Hbk).
exists s. eexists. split; [by apply (noaa_main_happy s0 _ s evs Hs Hload)|].
destruct (runs_det _ _ _ _ _ _ (files_run keys _) Hloop)
  as (_ & _ & _ & _ & _ & _ & _ & Hdone).
destruct (Hdone He) as [Hall Hled].
destruct (runs_det _ _ _ _ _ _ (files_frame keys _) Hloop)
  as (_ & _ & Hclean).
destruct (Hclean He) as [Hsub Hgone].
simpl in Hbk, Hled, Hgone, Hsub.
assert (∀ k, Noaa.filename k ∉ old →
             Noaa.filename k ∉ (list_to_set old : gset string)) as Hset.
{ intros k Hk. by rewrite elem_of_list_to_set. }
split_and!.
- done.
- intros k Hk. specialize (Hall k Hk).
  destruct Hled as [[-> Hgl]| ->].
  + rewrite Hgl in Hall. by apply elem_of_list_to_set in Hall.
  + simpl. by apply elem_of_elements.
- intros k folder Hk Hfresh Hf. split.
  + apply (Hbk k folder); auto.
  + apply Hgone; auto.
- done.
Qed.

Lemma noaa_happy_path_witness :
  let k1 := "GEFSv12/reforecast/2019/20190101/c00/a.grib2" in
  let k2 := "GEFSv12/reforecast/2019/20190101/c00/b.grib2" in
  let s0 := State () [] ∅ ∅ [k1; k2] (Json ["a.grib2"]) in
  let keys := noaa_keys s0 in
  let old := persisted (ledger_file s0) in
  ∃ s evs,
    Noaa.main s0 = (Finished, s, evs) ∧ errors evs = []
    ∧ (∀ k, k ∈ keys → Noaa.filename k ∈ persisted (ledger_file s))
    ∧ (∀ k folder, k ∈ keys → Noaa.filename k ∉ old →
         Noaa.date_folder k = inr folder →
         Noaa.dest_key k folder ∈ dest_bucket s
         ∧ Noaa.local_nc_path k ∉ disk s)
    ∧ (∀ p, p ∈ disk s → p ∈ disk s0).
Proof.
intros k1 k2 s0.
apply (noaa_happy_path s0); [reflexivity|done| |].
- intros k Hk. vm_compute in Hk.
  repeat (apply elem_of_cons in Hk as [->|Hk]; [vm_compute; lia|]).
  by apply elem_of_nil in Hk.
- apply (bool_decide_unpack _). vm_compute. exact I.
Defined.

End HappyPaths.
